(** * StoryWeaver: the branching story graph, its store and its playback

    A shallow embedding of the client-side story model
    ([types/story.ts]), the store hook ([hooks/useStories.ts]), the two
    players ([components/StoryPreview.tsx], [components/StoryCanvas.tsx]),
    the AI client ([hooks/useAiApi.ts]) and the scene route of the server
    ([routes/ai.ts]), followed by the properties of the specification
    that these definitions decide.

    Conventions.  A JavaScript [string] is a [String.string] that holds
    one character for each UTF-16 code unit, so the texts of this file
    are those whose code units lie below 256; [T | null] is [option T]; an array is a [list]; an optional field of a
    [Partial<T>] patch is an [option] whose [None] means that the key is
    not supplied.  React state is passed explicitly: a state setter with
    an updater function [setX (prev => f prev)] is the application of
    [f] to the current value. *)

From Stdlib Require Import String Ascii List Bool Arith NArith Lia.
From Stdlib Require Import DecimalString DecimalN.
Import ListNotations.

Set Warnings "-register-all".

Local Open Scope string_scope.
Local Open Scope list_scope.
Local Open Scope nat_scope.

(** ** JavaScript primitives used by the sources *)

Module Js.

(** [if (s)] on a string: only the empty string is falsy. *)
Definition truthy (s : string) : bool :=
  match s with
  | EmptyString => false
  | String _ _ => true
  end.

(** [if (v)] on a [string | null]. *)
Definition truthy_opt (v : option string) : bool :=
  match v with
  | None => false
  | Some s => truthy s
  end.

(** [a === b] between two strings. *)
Definition strict_eq (a b : string) : bool := String.eqb a b.

(** [a === v] between a string and a [string | null]: [null] equals no
    string. *)
Definition strict_eq_opt (a : string) (v : option string) : bool :=
  match v with
  | None => false
  | Some b => String.eqb a b
  end.

(** The white space that [String.prototype.trim] removes and that the
    class [\s] of a regular expression matches: the code units of
    [WhiteSpace] and [LineTerminator] that a character of this file can
    hold, which are TAB, LF, VT, FF, CR, SPACE and NO-BREAK SPACE
    (U+00A0).  The others (U+1680, U+2000 to U+200A, U+2028, U+2029,
    U+202F, U+205F, U+3000 and U+FEFF) lie above 255. *)
Definition is_space (c : ascii) : bool :=
  let n := nat_of_ascii c in
  (Nat.eqb n 9 || Nat.eqb n 10 || Nat.eqb n 11 || Nat.eqb n 12
   || Nat.eqb n 13 || Nat.eqb n 32 || Nat.eqb n 160)%bool.

Fixpoint trim_start (s : string) : string :=
  match s with
  | EmptyString => EmptyString
  | String c rest => if is_space c then trim_start rest else s
  end.

(** Removes the trailing white space: a character is kept when it is
    not white space or when something is kept after it. *)
Fixpoint trim_end (s : string) : string :=
  match s with
  | EmptyString => EmptyString
  | String c rest =>
      match trim_end rest with
      | EmptyString => if is_space c then EmptyString else String c EmptyString
      | kept => String c kept
      end
  end.

(** [s.trim()]. *)
Definition trim (s : string) : string := trim_end (trim_start s).

(** [s.substring(2, 11)]: the characters at positions 2 to 10, fewer
    when the string is shorter. *)
Definition substring_2_11 (s : string) : string := String.substring 2 9 s.

(** [String(n)] for a non-negative integer: its decimal digits. *)
Definition decimal (n : N) : string :=
  NilEmpty.string_of_uint (N.to_uint n).

(** [arr[arr.length - 1]]: [undefined] on the empty array. *)
Fixpoint last_elem {A : Type} (l : list A) : option A :=
  match l with
  | [] => None
  | [x] => Some x
  | _ :: rest => last_elem rest
  end.

(** [if (v)] on an object or [undefined]. *)
Definition defined {A : Type} (v : option A) : bool :=
  match v with
  | Some _ => true
  | None => false
  end.

(** [arr[0]]. *)
Definition first_elem {A : Type} (l : list A) : option A :=
  match l with
  | [] => None
  | x :: _ => Some x
  end.

(** [s.split(/(\s+)/)]: the text cut at its runs of white space, the
    runs included.  The result alternates words and runs, begins and
    ends with a word, and a word is empty where the text begins or ends
    with white space.  [split_from in_space s] reads [s] inside a token
    of the given kind, to which the caller adds the characters read so
    far. *)
Definition push_char (c : ascii) (tokens : list string) : list string :=
  match tokens with
  | token :: rest => String c token :: rest
  | [] => [String c EmptyString]
  end.

Fixpoint split_from (in_space : bool) (s : string) : list string :=
  match s with
  | EmptyString => if in_space then [EmptyString; EmptyString] else [EmptyString]
  | String c rest =>
      if Bool.eqb (is_space c) in_space
      then push_char c (split_from in_space rest)
      else EmptyString :: push_char c (split_from (is_space c) rest)
  end.

Definition split_spaces (s : string) : list string := split_from false s.

(** [s.substring(0, n)]. *)
Definition substring_to (n : nat) (s : string) : string := String.substring 0 n s.

End Js.

(** ** Data model ([types/story.ts]) *)

Module Choice.
Record t : Type := make
  { id : string;
    text : string;
    targetSceneId : option string }.
End Choice.

Module Scene.
Record t : Type := make
  { id : string;
    title : string;
    body : string;
    choices : list Choice.t }.
End Scene.

Module Story.
Record t : Type := make
  { id : string;
    title : string;
    description : string;
    scenes : list Scene.t;
    startSceneId : option string }.
End Story.

(** [Partial<Choice>], [Partial<Scene>] and [Partial<Story>]: every field
    of the entity, each one optional, the identifier included. *)

Module PartialChoice.
Record t : Type := make
  { id : option string;
    text : option string;
    targetSceneId : option (option string) }.
Definition empty : t := make None None None.
End PartialChoice.

Module PartialScene.
Record t : Type := make
  { id : option string;
    title : option string;
    body : option string;
    choices : option (list Choice.t) }.
Definition empty : t := make None None None None.
End PartialScene.

Module PartialStory.
Record t : Type := make
  { id : option string;
    title : option string;
    description : option string;
    scenes : option (list Scene.t);
    startSceneId : option (option string) }.
Definition empty : t := make None None None None None.
End PartialStory.

(** The object spread [{ ...entity, ...updates }]: a supplied key
    overwrites the field, any other field is kept. *)

Definition supplied {A : Type} (old : A) (patch : option A) : A :=
  match patch with
  | Some v => v
  | None => old
  end.

Definition spread_choice (choice : Choice.t) (updates : PartialChoice.t) : Choice.t :=
  {| Choice.id := supplied (Choice.id choice) (PartialChoice.id updates);
     Choice.text := supplied (Choice.text choice) (PartialChoice.text updates);
     Choice.targetSceneId :=
       supplied (Choice.targetSceneId choice) (PartialChoice.targetSceneId updates) |}.

Definition spread_scene (scene : Scene.t) (updates : PartialScene.t) : Scene.t :=
  {| Scene.id := supplied (Scene.id scene) (PartialScene.id updates);
     Scene.title := supplied (Scene.title scene) (PartialScene.title updates);
     Scene.body := supplied (Scene.body scene) (PartialScene.body updates);
     Scene.choices := supplied (Scene.choices scene) (PartialScene.choices updates) |}.

Definition spread_story (story : Story.t) (updates : PartialStory.t) : Story.t :=
  {| Story.id := supplied (Story.id story) (PartialStory.id updates);
     Story.title := supplied (Story.title story) (PartialStory.title updates);
     Story.description :=
       supplied (Story.description story) (PartialStory.description updates);
     Story.scenes := supplied (Story.scenes story) (PartialStory.scenes updates);
     Story.startSceneId :=
       supplied (Story.startSceneId story) (PartialStory.startSceneId updates) |}.

(** [story.scenes.find((s) => s.id === sceneId)] for a [string | null]
    key. *)
Definition find_scene (scenes : list Scene.t) (sceneId : option string)
  : option Scene.t :=
  find (fun s => Js.strict_eq_opt (Scene.id s) sceneId) scenes.

(** Equality of stories is decidable; it stands for the identity of
    the story objects where the sources mutate one in place. *)
Definition choice_eq_dec (a b : Choice.t) : {a = b} + {a <> b}.
Proof.
  decide equality;
    [decide equality; apply string_dec | apply string_dec | apply string_dec].
Defined.

Definition scene_eq_dec (a b : Scene.t) : {a = b} + {a <> b}.
Proof.
  decide equality;
    [apply (list_eq_dec choice_eq_dec) | apply string_dec | apply string_dec
     | apply string_dec].
Defined.

Definition story_eq_dec (a b : Story.t) : {a = b} + {a <> b}.
Proof.
  decide equality;
    [decide equality; apply string_dec | apply (list_eq_dec scene_eq_dec)
     | apply string_dec | apply string_dec | apply string_dec].
Defined.

(** ** Snapshot codec (the persistence boundary) *)

Module Snapshot.

(** The part of JSON that a story collection needs. *)
Inductive json : Type :=
| JNull
| JString (s : string)
| JArray (items : list json)
| JObject (members : list (string * json)).

Definition dquote : ascii := ascii_of_nat 34.
Definition backslash : ascii := ascii_of_nat 92.

Definition hex_digit (n : nat) : ascii :=
  ascii_of_nat (if n <? 10 then 48 + n else 87 + n).

Definition hex_value (c : ascii) : option nat :=
  let n := nat_of_ascii c in
  if (48 <=? n) && (n <=? 57) then Some (n - 48)
  else if (97 <=? n) && (n <=? 102) then Some (n - 87)
  else if (65 <=? n) && (n <=? 70) then Some (n - 55)
  else None.

Definition escaped (c : ascii) : string :=
  String backslash (String c EmptyString).

(** How a character is written inside a JSON string literal. *)
Definition escape_char (c : ascii) : string :=
  let n := nat_of_ascii c in
  if n =? 34 then escaped dquote
  else if n =? 92 then escaped backslash
  else if n =? 8 then escaped "b"
  else if n =? 9 then escaped "t"
  else if n =? 10 then escaped "n"
  else if n =? 12 then escaped "f"
  else if n =? 13 then escaped "r"
  else if n <? 32 then
    String backslash
      (String "u" (String "0" (String "0"
         (String (hex_digit (n / 16)) (String (hex_digit (n mod 16)) EmptyString)))))
  else String c EmptyString.

(** The characters of a string literal followed by its closing quote. *)
Fixpoint quote_body (s : string) : string :=
  match s with
  | EmptyString => String dquote EmptyString
  | String c rest => (escape_char c ++ quote_body rest)%string
  end.

Definition quote (s : string) : string := String dquote (quote_body s).

Section Sequences.

(** The elements of an array and the members of an object, separated
    by commas, up to and including the closing bracket. *)
Variable print : json -> string.

Fixpoint elements_text (l : list json) : string :=
  match l with
  | [] => "]"
  | x :: rest =>
      (print x ++
       match rest with
       | [] => "]"
       | _ :: _ => String "," (elements_text rest)
       end)%string
  end.

Fixpoint members_text (l : list (string * json)) : string :=
  match l with
  | [] => "}"
  | (k, v) :: rest =>
      (quote k ++ String ":" (print v) ++
       match rest with
       | [] => "}"
       | _ :: _ => String "," (members_text rest)
       end)%string
  end.

End Sequences.

(** Serialization without white space. *)
Fixpoint stringify (j : json) : string :=
  match j with
  | JNull => "null"
  | JString s => quote s
  | JArray items => String "[" (elements_text stringify items)
  | JObject members => String "{" (members_text stringify members)
  end.

(** The unescaped character that follows a backslash, with what is left
    of the input. *)
Definition parse_escape (s : string) : option (ascii * string) :=
  match s with
  | String "u" (String h1 (String h2 (String h3 (String h4 rest)))) =>
      match hex_value h1, hex_value h2, hex_value h3, hex_value h4 with
      | Some a, Some b, Some c, Some d =>
          let code := ((a * 16 + b) * 16 + c) * 16 + d in
          if code <? 256 then Some (ascii_of_nat code, rest) else None
      | _, _, _, _ => None
      end
  | String e rest =>
      let n := nat_of_ascii e in
      if n =? 34 then Some (dquote, rest)
      else if n =? 92 then Some (backslash, rest)
      else if n =? 47 then Some ("/"%char, rest)
      else if n =? 98 then Some (ascii_of_nat 8, rest)
      else if n =? 116 then Some (ascii_of_nat 9, rest)
      else if n =? 110 then Some (ascii_of_nat 10, rest)
      else if n =? 102 then Some (ascii_of_nat 12, rest)
      else if n =? 114 then Some (ascii_of_nat 13, rest)
      else None
  | EmptyString => None
  end.

(** Reads a string literal after its opening quote, up to and including
    the closing quote.  The fuel bounds the number of characters. *)
Fixpoint parse_chars (fuel : nat) (s : string) : option (string * string) :=
  match fuel with
  | O => None
  | S fuel' =>
      match s with
      | EmptyString => None
      | String c rest =>
          if Ascii.eqb c dquote then Some (EmptyString, rest)
          else if Ascii.eqb c backslash then
            match parse_escape rest with
            | Some (d, rest') =>
                match parse_chars fuel' rest' with
                | Some (str, out) => Some (String d str, out)
                | None => None
                end
            | None => None
            end
          else if nat_of_ascii c <? 32 then None
          else
            match parse_chars fuel' rest with
            | Some (str, out) => Some (String c str, out)
            | None => None
            end
      end
  end.

(** The input without the given character in front of it. *)
Definition after (c : ascii) (s : string) : option string :=
  match s with
  | String d rest => if Ascii.eqb d c then Some rest else None
  | EmptyString => None
  end.

(** The input without the given prefix. *)
Fixpoint after_text (p s : string) : option string :=
  match p with
  | EmptyString => Some s
  | String c p' =>
      match after c s with
      | Some rest => after_text p' rest
      | None => None
      end
  end.

Fixpoint parse_value (fuel : nat) (s : string) : option (json * string) :=
  match fuel with
  | O => None
  | S fuel' =>
      match s with
      | EmptyString => None
      | String c rest =>
          if Ascii.eqb c "n" then
            match after_text "ull" rest with
            | Some out => Some (JNull, out)
            | None => None
            end
          else if Ascii.eqb c dquote then
            match parse_chars fuel' rest with
            | Some (str, out) => Some (JString str, out)
            | None => None
            end
          else if Ascii.eqb c "[" then
            match after "]" rest with
            | Some out => Some (JArray [], out)
            | None =>
                match parse_elems fuel' rest with
                | Some (items, out) => Some (JArray items, out)
                | None => None
                end
            end
          else if Ascii.eqb c "{" then
            match after "}" rest with
            | Some out => Some (JObject [], out)
            | None =>
                match parse_members fuel' rest with
                | Some (members, out) => Some (JObject members, out)
                | None => None
                end
            end
          else None
      end
  end

with parse_elems (fuel : nat) (s : string) : option (list json * string) :=
  match fuel with
  | O => None
  | S fuel' =>
      match parse_value fuel' s with
      | Some (x, String d more) =>
          if Ascii.eqb d "]" then Some ([x], more)
          else if Ascii.eqb d "," then
            match parse_elems fuel' more with
            | Some (xs, out) => Some (x :: xs, out)
            | None => None
            end
          else None
      | _ => None
      end
  end

with parse_members (fuel : nat) (s : string)
  : option (list (string * json) * string) :=
  match fuel with
  | O => None
  | S fuel' =>
      match after dquote s with
      | Some s1 =>
          match parse_chars fuel' s1 with
          | Some (k, s2) =>
              match after ":" s2 with
              | Some s3 =>
                  match parse_value fuel' s3 with
                  | Some (v, String d more) =>
                      if Ascii.eqb d "}" then Some ([(k, v)], more)
                      else if Ascii.eqb d "," then
                        match parse_members fuel' more with
                        | Some (kvs, out) => Some ((k, v) :: kvs, out)
                        | None => None
                        end
                      else None
                  | _ => None
                  end
              | None => None
              end
          | None => None
          end
      | None => None
      end
  end.

(** A whole text is one value with nothing after it. *)
Definition parse (text : string) : option json :=
  match parse_value (S (String.length text)) text with
  | Some (j, EmptyString) => Some j
  | _ => None
  end.

(** *** Stories as JSON *)

Definition nullable_to_json (v : option string) : json :=
  match v with
  | None => JNull
  | Some s => JString s
  end.

Definition choice_to_json (c : Choice.t) : json :=
  JObject [ ("id", JString (Choice.id c));
            ("text", JString (Choice.text c));
            ("targetSceneId", nullable_to_json (Choice.targetSceneId c)) ].

Definition scene_to_json (s : Scene.t) : json :=
  JObject [ ("id", JString (Scene.id s));
            ("title", JString (Scene.title s));
            ("body", JString (Scene.body s));
            ("choices", JArray (map choice_to_json (Scene.choices s))) ].

Definition story_to_json (s : Story.t) : json :=
  JObject [ ("id", JString (Story.id s));
            ("title", JString (Story.title s));
            ("description", JString (Story.description s));
            ("scenes", JArray (map scene_to_json (Story.scenes s)));
            ("startSceneId", nullable_to_json (Story.startSceneId s)) ].

Definition stories_to_json (stories : list Story.t) : json :=
  JArray (map story_to_json stories).

Fixpoint field (key : string) (members : list (string * json)) : option json :=
  match members with
  | [] => None
  | (k, v) :: rest => if String.eqb k key then Some v else field key rest
  end.

Definition string_field (key : string) (members : list (string * json))
  : option string :=
  match field key members with
  | Some (JString s) => Some s
  | _ => None
  end.

Definition nullable_field (key : string) (members : list (string * json))
  : option (option string) :=
  match field key members with
  | Some JNull => Some None
  | Some (JString s) => Some (Some s)
  | _ => None
  end.

Definition array_field (key : string) (members : list (string * json))
  : option (list json) :=
  match field key members with
  | Some (JArray items) => Some items
  | _ => None
  end.

(** Decodes every item, or nothing when one item does not decode. *)
Fixpoint decode_all {A : Type} (decode : json -> option A) (items : list json)
  : option (list A) :=
  match items with
  | [] => Some []
  | x :: rest =>
      match decode x, decode_all decode rest with
      | Some a, Some l => Some (a :: l)
      | _, _ => None
      end
  end.

Definition choice_of_json (j : json) : option Choice.t :=
  match j with
  | JObject m =>
      match string_field "id" m, string_field "text" m,
            nullable_field "targetSceneId" m with
      | Some i, Some t, Some target => Some (Choice.make i t target)
      | _, _, _ => None
      end
  | _ => None
  end.

Definition scene_of_json (j : json) : option Scene.t :=
  match j with
  | JObject m =>
      match string_field "id" m, string_field "title" m,
            string_field "body" m, array_field "choices" m with
      | Some i, Some t, Some b, Some cs =>
          match decode_all choice_of_json cs with
          | Some choices => Some (Scene.make i t b choices)
          | None => None
          end
      | _, _, _, _ => None
      end
  | _ => None
  end.

Definition story_of_json (j : json) : option Story.t :=
  match j with
  | JObject m =>
      match string_field "id" m, string_field "title" m,
            string_field "description" m, array_field "scenes" m,
            nullable_field "startSceneId" m with
      | Some i, Some t, Some d, Some ss, Some start =>
          match decode_all scene_of_json ss with
          | Some scenes => Some (Story.make i t d scenes start)
          | None => None
          end
      | _, _, _, _, _ => None
      end
  | _ => None
  end.

Definition stories_of_json (j : json) : option (list Story.t) :=
  match j with
  | JArray items => decode_all story_of_json items
  | _ => None
  end.

(** Modelled from the spec: the snapshot codec lives in
    [hooks/useLocalStorage.ts], which is not among the sources.  The
    specification gives its contract, [save(stories) -> blob] and
    [load(blob) -> sequence<Story>], the blob being the text kept in
    the single storage slot; the text is the JSON rendering of the
    collection. *)
Definition save (stories : list Story.t) : string :=
  stringify (stories_to_json stories).

(** Modelled from the spec: [load] on a corrupt blob yields the empty
    collection instead of failing. *)
Definition load (blob : string) : list Story.t :=
  match parse blob with
  | Some j =>
      match stories_of_json j with
      | Some stories => stories
      | None => []
      end
  | None => []
  end.

(** Modelled from the spec: the slot is read once at startup; a
    missing slot yields the empty collection. *)
Definition load_slot (slot : option string) : list Story.t :=
  match slot with
  | Some blob => load blob
  | None => []
  end.

End Snapshot.

(** ** The world of the client: store state and environment readings *)

(** The collection held by the store, the storage slot it is written
    through to, and the environment: what [Date.now()] and
    [Math.random().toString(36)] answer at each successive reading. *)
Record World : Type := mkWorld
  { stories : list Story.t;
    slot : option string;
    now : nat -> N;
    random36 : nat -> string;
    reads : nat }.

Definition M (A : Type) : Type := World -> A * World.

Definition ret {A : Type} (a : A) : M A := fun w => (a, w).

Definition bind {A B : Type} (m : M A) (k : A -> M B) : M B :=
  fun w => let (a, w') := m w in k a w'.

Notation "x <- m ;; k" := (bind m (fun x => k))
  (at level 61, m at next level, right associativity).
Notation "m ;;; k" := (bind m (fun _ => k))
  (at level 61, right associativity).

(** [arr.forEach(f)] for an effectful [f]. *)
Fixpoint forEach {A : Type} (f : A -> M unit) (l : list A) : M unit :=
  match l with
  | [] => ret tt
  | x :: rest => f x ;;; forEach f rest
  end.

Definition next_reading (w : World) : World :=
  {| stories := stories w; slot := slot w; now := now w;
     random36 := random36 w; reads := S (reads w) |}.

(** [Date.now()]. *)
Definition date_now : M N := fun w => (now w (reads w), next_reading w).

(** [Math.random().toString(36)]: the base 36 rendering of the random
    number is taken from the environment as a string. *)
Definition math_random_36 : M string :=
  fun w => (random36 w (reads w), next_reading w).

Module UseStories.

(** Modelled from the spec: the state setter comes from
    [hooks/useLocalStorage.ts], which is not among the sources.  It
    applies the updater to the current collection and rewrites the
    storage slot after every mutation. *)
Definition setStories (f : list Story.t -> list Story.t) : M unit :=
  fun w =>
    let next := f (stories w) in
    (tt, {| stories := next; slot := Some (Snapshot.save next); now := now w;
            random36 := random36 w; reads := reads w |}).

(** The template [`${Date.now()}-${Math.random().toString(36).substring(2, 11)}`]. *)
Definition id_format (ms : N) (r36 : string) : string :=
  (Js.decimal ms ++ String "-" (Js.substring_2_11 r36))%string.

Definition generateId : M string :=
  ms <- date_now ;;
  r36 <- math_random_36 ;;
  ret (id_format ms r36).

(** [{ ...story, scenes }] and [{ ...scene, choices }]. *)
Definition with_scenes (story : Story.t) (scenes : list Scene.t) : Story.t :=
  {| Story.id := Story.id story; Story.title := Story.title story;
     Story.description := Story.description story; Story.scenes := scenes;
     Story.startSceneId := Story.startSceneId story |}.

Definition with_choices (scene : Scene.t) (choices : list Choice.t) : Scene.t :=
  {| Scene.id := Scene.id scene; Scene.title := Scene.title scene;
     Scene.body := Scene.body scene; Scene.choices := choices |}.

(** The updater functions handed to [setStories], one for each
    mutation. *)

Definition createStory_prev (newStory : Story.t) (prev : list Story.t) :=
  prev ++ [newStory].

Definition updateStory_prev (storyId : string) (updates : PartialStory.t)
    (prev : list Story.t) : list Story.t :=
  map (fun story =>
         if Js.strict_eq (Story.id story) storyId
         then spread_story story updates
         else story) prev.

Definition deleteStory_prev (storyId : string) (prev : list Story.t)
  : list Story.t :=
  filter (fun story => negb (Js.strict_eq (Story.id story) storyId)) prev.

Definition createScene_prev (storyId : string) (newScene : Scene.t)
    (prev : list Story.t) : list Story.t :=
  map (fun story =>
         if Js.strict_eq (Story.id story) storyId
         then with_scenes story (Story.scenes story ++ [newScene])
         else story) prev.

Definition updateScene_prev (storyId sceneId : string) (updates : PartialScene.t)
    (prev : list Story.t) : list Story.t :=
  map (fun story =>
         if Js.strict_eq (Story.id story) storyId
         then with_scenes story
                (map (fun scene =>
                        if Js.strict_eq (Scene.id scene) sceneId
                        then spread_scene scene updates
                        else scene) (Story.scenes story))
         else story) prev.

Definition deleteScene_prev (storyId sceneId : string) (prev : list Story.t)
  : list Story.t :=
  map (fun story =>
         if Js.strict_eq (Story.id story) storyId
         then {| Story.id := Story.id story;
                 Story.title := Story.title story;
                 Story.description := Story.description story;
                 Story.scenes :=
                   filter (fun scene => negb (Js.strict_eq (Scene.id scene) sceneId))
                     (Story.scenes story);
                 Story.startSceneId :=
                   if Js.strict_eq_opt sceneId (Story.startSceneId story)
                   then None
                   else Story.startSceneId story |}
         else story) prev.

Definition addChoice_prev (storyId sceneId : string) (newChoice : Choice.t)
    (prev : list Story.t) : list Story.t :=
  map (fun story =>
         if Js.strict_eq (Story.id story) storyId
         then with_scenes story
                (map (fun scene =>
                        if Js.strict_eq (Scene.id scene) sceneId
                        then with_choices scene (Scene.choices scene ++ [newChoice])
                        else scene) (Story.scenes story))
         else story) prev.

Definition updateChoice_prev (storyId sceneId choiceId : string)
    (updates : PartialChoice.t) (prev : list Story.t) : list Story.t :=
  map (fun story =>
         if Js.strict_eq (Story.id story) storyId
         then with_scenes story
                (map (fun scene =>
                        if Js.strict_eq (Scene.id scene) sceneId
                        then with_choices scene
                               (map (fun choice =>
                                       if Js.strict_eq (Choice.id choice) choiceId
                                       then spread_choice choice updates
                                       else choice) (Scene.choices scene))
                        else scene) (Story.scenes story))
         else story) prev.

Definition deleteChoice_prev (storyId sceneId choiceId : string)
    (prev : list Story.t) : list Story.t :=
  map (fun story =>
         if Js.strict_eq (Story.id story) storyId
         then with_scenes story
                (map (fun scene =>
                        if Js.strict_eq (Scene.id scene) sceneId
                        then with_choices scene
                               (filter (fun choice =>
                                          negb (Js.strict_eq (Choice.id choice) choiceId))
                                  (Scene.choices scene))
                        else scene) (Story.scenes story))
         else story) prev.

(** The operations returned by the hook. *)

Definition createStory (title description : string) : M Story.t :=
  newId <- generateId ;;
  let newStory :=
    {| Story.id := newId; Story.title := title;
       Story.description := description; Story.scenes := [];
       Story.startSceneId := None |} in
  setStories (createStory_prev newStory) ;;;
  ret newStory.

Definition updateStory (storyId : string) (updates : PartialStory.t) : M unit :=
  setStories (updateStory_prev storyId updates).

Definition deleteStory (storyId : string) : M unit :=
  setStories (deleteStory_prev storyId).

Definition getStory (storyId : string) : M (option Story.t) :=
  fun w =>
    (find (fun story => Js.strict_eq (Story.id story) storyId) (stories w), w).

(** The default title of [createScene] is ['New Scene']. *)
Definition createScene (storyId : string) (title : option string) : M Scene.t :=
  newId <- generateId ;;
  let newScene :=
    {| Scene.id := newId; Scene.title := supplied "New Scene" title;
       Scene.body := EmptyString; Scene.choices := [] |} in
  setStories (createScene_prev storyId newScene) ;;;
  ret newScene.

Definition updateScene (storyId sceneId : string) (updates : PartialScene.t)
  : M unit :=
  setStories (updateScene_prev storyId sceneId updates).

Definition deleteScene (storyId sceneId : string) : M unit :=
  setStories (deleteScene_prev storyId sceneId).

(** The default text of [addChoice] is ['New choice']. *)
Definition addChoice (storyId sceneId : string) (choiceText : option string)
  : M Choice.t :=
  newId <- generateId ;;
  let newChoice :=
    {| Choice.id := newId; Choice.text := supplied "New choice" choiceText;
       Choice.targetSceneId := None |} in
  setStories (addChoice_prev storyId sceneId newChoice) ;;;
  ret newChoice.

Definition updateChoice (storyId sceneId choiceId : string)
    (updates : PartialChoice.t) : M unit :=
  setStories (updateChoice_prev storyId sceneId choiceId updates).

Definition deleteChoice (storyId sceneId choiceId : string) : M unit :=
  setStories (deleteChoice_prev storyId sceneId choiceId).

End UseStories.

(** ** The scene route of the server ([routes/ai.ts]) *)

Module AiRoutes.

Record SuggestSceneRequest : Type :=
  { storyTitle : string;
    storyDescription : string;
    currentSceneBody : string;
    storySummary : option string }.

(** What the call to the language model gives the route: the call
    throws; the completion has no content; the content is not JSON; or
    it parses, and its fields [title] and [body] are read at their
    declared type [string] ([None]: the key is absent). *)
Inductive Completion : Type :=
| CallThrows (message : string)
| NoContent
| NotJson (message : string)
| Parsed (title body : option string).

(** The three answers of the route: [res.json(suggestion)],
    [res.status(400).json({ error })] and
    [res.status(500).json({ error, details })]. *)
Inductive Response : Type :=
| Ok200 (title body : string)
| BadRequest400 (error : string)
| ServerError500 (error details : string).

Definition failed (details : string) : Response :=
  ServerError500 "Failed to generate scene suggestion" details.

Definition suggest_scene (req : SuggestSceneRequest) (upstream : Completion)
  : Response :=
  if negb (Js.truthy (storyTitle req)) || negb (Js.truthy (storyDescription req))
     || negb (Js.truthy (currentSceneBody req))
  then BadRequest400
         "Missing required fields: storyTitle, storyDescription, and currentSceneBody are required"
  else
    match upstream with
    | CallThrows message => failed message
    | NoContent => failed "No response from OpenAI"
    | NotJson message => failed message
    | Parsed title body =>
        match title, body with
        | Some t, Some b =>
            if negb (Js.truthy t) || negb (Js.truthy b)
            then failed "Invalid response format from OpenAI"
            else Ok200 t b
        | _, _ => failed "Invalid response format from OpenAI"
        end
    end.

End AiRoutes.

(** ** The choices route and the text improvement route ([routes/ai.ts]) *)

Module AiChoicesRoute.

Record SuggestChoicesRequest : Type :=
  { sceneBody : string;
    storyContext : option string }.

(** What the call to the language model gives the route; in a parsed
    payload [choices] is read as an array of [{ text }] objects
    ([None]: the key is absent or is not an array). *)
Inductive Completion : Type :=
| CallThrows (message : string)
| NoContent
| NotJson (message : string)
| Parsed (choices : option (list string)).

Inductive Response : Type :=
| Ok200 (choices : list string)
| BadRequest400 (error : string)
| ServerError500 (error details : string).

Definition failed (details : string) : Response :=
  ServerError500 "Failed to generate choice suggestions" details.

Definition suggest_choices (req : SuggestChoicesRequest) (upstream : Completion)
  : Response :=
  if negb (Js.truthy (sceneBody req))
  then BadRequest400 "Missing required field: sceneBody"
  else
    match upstream with
    | CallThrows message => failed message
    | NoContent => failed "No response from OpenAI"
    | NotJson message => failed message
    | Parsed (Some choices) => Ok200 choices
    | Parsed None => failed "Invalid response format from OpenAI"
    end.

End AiChoicesRoute.

Module AiImproveRoute.

Record ImproveTextRequest : Type :=
  { sceneBody : string }.

(** In a parsed payload [improvedBody] is read at its declared type
    [string] ([None]: the key is absent). *)
Inductive Completion : Type :=
| CallThrows (message : string)
| NoContent
| NotJson (message : string)
| Parsed (improvedBody : option string).

Inductive Response : Type :=
| Ok200 (improvedBody : string)
| BadRequest400 (error : string)
| ServerError500 (error details : string).

Definition failed (details : string) : Response :=
  ServerError500 "Failed to improve text" details.

Definition improve_text (req : ImproveTextRequest) (upstream : Completion)
  : Response :=
  if negb (Js.truthy (sceneBody req))
  then BadRequest400 "Missing required field: sceneBody"
  else
    match upstream with
    | CallThrows message => failed message
    | NoContent => failed "No response from OpenAI"
    | NotJson message => failed message
    | Parsed (Some improved) =>
        if negb (Js.truthy improved)
        then failed "Invalid response format from OpenAI"
        else Ok200 improved
    | Parsed None => failed "Invalid response format from OpenAI"
    end.

End AiImproveRoute.

(** ** The AI client ([hooks/useAiApi.ts]) *)

Module UseAiApi.

Record SuggestSceneResult : Type :=
  { title : string;
    body : string }.

(** The elements of [SuggestChoicesResult.choices] are [{ text }]
    objects; only the texts are kept. *)
Definition SuggestChoicesResult : Type := list string.

(** The promise of [fetch]: it rejects, or the server answers. *)
Inductive Fetched : Type :=
| Rejects (message : string)
| Answers (response : AiRoutes.Response).

(** The state of the hook after a call. *)
Record ApiState : Type :=
  { loading : bool;
    error : option string }.

(** [a || b] on strings. *)
Definition or_else (a b : string) : string := if Js.truthy a then a else b.

Definition caught (message : string) : option SuggestSceneResult * ApiState :=
  (None,
   {| loading := false;
      error := Some (or_else message
                       "Failed to connect to AI service. Is the server running?") |}).

Definition suggestScene (fetch : AiRoutes.SuggestSceneRequest -> Fetched)
    (storyTitle storyDescription currentSceneBody : string)
    (storySummary : option string)
  : option SuggestSceneResult * ApiState :=
  match fetch {| AiRoutes.storyTitle := storyTitle;
                 AiRoutes.storyDescription := storyDescription;
                 AiRoutes.currentSceneBody := currentSceneBody;
                 AiRoutes.storySummary := storySummary |} with
  | Rejects message => caught message
  | Answers (AiRoutes.Ok200 t b) =>
      (Some {| title := t; body := b |}, {| loading := false; error := None |})
  | Answers (AiRoutes.BadRequest400 e) =>
      caught (or_else e "Server error: 400")
  | Answers (AiRoutes.ServerError500 e _) =>
      caught (or_else e "Server error: 500")
  end.

(** The wire between the client and the route: the server cannot be
    reached, or it runs the route on the request. *)
Inductive Network : Type :=
| Unreachable (message : string)
| Reachable (upstream : AiRoutes.Completion).

Definition wire (net : Network) (req : AiRoutes.SuggestSceneRequest) : Fetched :=
  match net with
  | Unreachable message => Rejects message
  | Reachable upstream => Answers (AiRoutes.suggest_scene req upstream)
  end.


(** The promise of [fetch] for the two other routes. *)
Inductive FetchedAs (R : Type) : Type :=
| RejectsAs (message : string)
| AnswersAs (response : R).

Arguments RejectsAs {R} message.
Arguments AnswersAs {R} response.

(** In [suggestChoices] and [improveText] the message of the caught
    error is stored as it is. *)
Definition caught_as {A : Type} (message : string) : option A * ApiState :=
  (None, {| loading := false; error := Some message |}).

Definition suggestChoices
    (fetch : AiChoicesRoute.SuggestChoicesRequest -> FetchedAs AiChoicesRoute.Response)
    (sceneBody : string) (storyContext : option string)
  : option SuggestChoicesResult * ApiState :=
  match fetch {| AiChoicesRoute.sceneBody := sceneBody;
                 AiChoicesRoute.storyContext := storyContext |} with
  | RejectsAs message => caught_as message
  | AnswersAs (AiChoicesRoute.Ok200 choices) =>
      (Some choices, {| loading := false; error := None |})
  | AnswersAs (AiChoicesRoute.BadRequest400 e) =>
      caught_as (or_else e "Failed to suggest choices")
  | AnswersAs (AiChoicesRoute.ServerError500 e _) =>
      caught_as (or_else e "Failed to suggest choices")
  end.

Record ImproveTextResult : Type :=
  { improvedBody : string }.

Definition improveText
    (fetch : AiImproveRoute.ImproveTextRequest -> FetchedAs AiImproveRoute.Response)
    (sceneBody : string)
  : option ImproveTextResult * ApiState :=
  match fetch {| AiImproveRoute.sceneBody := sceneBody |} with
  | RejectsAs message => caught_as message
  | AnswersAs (AiImproveRoute.Ok200 improved) =>
      (Some {| improvedBody := improved |}, {| loading := false; error := None |})
  | AnswersAs (AiImproveRoute.BadRequest400 e) =>
      caught_as (or_else e "Failed to improve text")
  | AnswersAs (AiImproveRoute.ServerError500 e _) =>
      caught_as (or_else e "Failed to improve text")
  end.

(** The wires to the two other routes. *)
Inductive NetworkAs (U : Type) : Type :=
| UnreachableAs (message : string)
| ReachableAs (upstream : U).

Arguments UnreachableAs {U} message.
Arguments ReachableAs {U} upstream.

Definition wire_choices (net : NetworkAs AiChoicesRoute.Completion)
    (req : AiChoicesRoute.SuggestChoicesRequest) : FetchedAs AiChoicesRoute.Response :=
  match net with
  | UnreachableAs message => RejectsAs message
  | ReachableAs upstream => AnswersAs (AiChoicesRoute.suggest_choices req upstream)
  end.

Definition wire_improve (net : NetworkAs AiImproveRoute.Completion)
    (req : AiImproveRoute.ImproveTextRequest) : FetchedAs AiImproveRoute.Response :=
  match net with
  | UnreachableAs message => RejectsAs message
  | ReachableAs upstream => AnswersAs (AiImproveRoute.improve_text req upstream)
  end.

End UseAiApi.

(** ** Play mode of the editor ([components/StoryPreview.tsx]) *)

Module StoryPreview.

(** The component state that the story logic reads and writes.  The
    [story] prop is held with it, as the handlers see it;
    [handleCustomInput] pushes onto [story.scenes] in place, which the
    store sees too (see [push_in_place]). *)
Record State : Type :=
  { story : Story.t;
    currentSceneId : option string;
    customInput : string;
    isGenerating : bool }.

(** The [useState] initializers. *)
Definition init (story : Story.t) : State :=
  {| story := story;
     currentSceneId := Story.startSceneId story;
     customInput := EmptyString;
     isGenerating := false |}.

Definition startScene (st : State) : option Scene.t :=
  find_scene (Story.scenes (story st)) (Story.startSceneId (story st)).

Definition currentScene (st : State) : option Scene.t :=
  find_scene (Story.scenes (story st)) (currentSceneId st).

Definition handleRestart (st : State) : State :=
  {| story := story st;
     currentSceneId := Story.startSceneId (story st);
     customInput := EmptyString;
     isGenerating := isGenerating st |}.

Definition handleChoice (targetSceneId : option string) (st : State) : State :=
  if Js.truthy_opt targetSceneId
  then {| story := story st;
          currentSceneId := targetSceneId;
          customInput := EmptyString;
          isGenerating := isGenerating st |}
  else st.

(** The identifier [`temp-${Date.now()}`] of a generated scene. *)
Definition temp_id (ms : N) : string := ("temp-" ++ Js.decimal ms)%string.

(** The call [suggestScene(story.title, story.description, ...)] of
    [handleCustomInput]: the scene body with the action of the player,
    and the action again as the summary. *)
Definition generate (fetch : AiRoutes.SuggestSceneRequest -> UseAiApi.Fetched)
    (st : State) (scene : Scene.t) : option UseAiApi.SuggestSceneResult :=
  fst (UseAiApi.suggestScene fetch
         (Story.title (story st)) (Story.description (story st))
         (Scene.body scene ++ String (ascii_of_nat 10)
            (String (ascii_of_nat 10) "Player action: ") ++ customInput st)%string
         (Some ("The player chose to: " ++ String Snapshot.dquote (customInput st)
                  ++ String Snapshot.dquote EmptyString)%string)).

(** [story.scenes.push(newScene)] mutates the story prop in place.  The
    prop is the object that the parent read from the store, so the story
    that the collection holds gains the scene as well, in memory only:
    [setStories] is not called and the slot is not written.  The object
    is the first story of the collection that equals the prop; a story
    that the collection does not hold is an object of its own, and the
    collection is then left alone. *)
Fixpoint push_held (story : Story.t) (newScene : Scene.t) (l : list Story.t)
  : list Story.t :=
  match l with
  | [] => []
  | held :: rest =>
      if story_eq_dec held story
      then UseStories.with_scenes held (Story.scenes held ++ [newScene]) :: rest
      else held :: push_held story newScene rest
  end.

Definition push_in_place (story : Story.t) (newScene : Scene.t) : M unit :=
  fun w =>
    (tt, {| stories := push_held story newScene (stories w); slot := slot w;
            now := now w; random36 := random36 w; reads := reads w |}).

Definition handleCustomInput (fetch : AiRoutes.SuggestSceneRequest -> UseAiApi.Fetched)
    (st : State) : M State :=
  match currentScene st with
  | None => ret st
  | Some scene =>
      if negb (Js.truthy (Js.trim (customInput st))) then ret st
      else
        match generate fetch st scene with
        | Some result =>
            ms <- date_now ;;
            let newScene :=
              {| Scene.id := temp_id ms;
                 Scene.title := UseAiApi.title result;
                 Scene.body := UseAiApi.body result;
                 Scene.choices := [] |} in
            push_in_place (story st) newScene ;;;
            ret {| story := UseStories.with_scenes (story st)
                              (Story.scenes (story st) ++ [newScene]);
                   currentSceneId := Some (Scene.id newScene);
                   customInput := EmptyString;
                   isGenerating := false |}
        | None =>
            ret {| story := story st;
                   currentSceneId := currentSceneId st;
                   customInput := customInput st;
                   isGenerating := false |}
        end
  end.

(** A choice button with its [disabled] attribute. *)
Record Button : Type :=
  { choice : Choice.t;
    disabled : bool }.

(** What the component renders: the cannot-start panel, the
    scene-not-found panel, or the current scene with its choice
    buttons and, when it has no choice, the end-of-story panel. *)
Inductive View : Type :=
| CannotStart
| SceneNotFound
| Playing (scene : Scene.t) (buttons : list Button) (endOfStory : bool).

Definition render (st : State) : View :=
  if negb (Js.truthy_opt (Story.startSceneId (story st)))
     || negb (Js.defined (startScene st))
  then CannotStart
  else
    match currentScene st with
    | None => SceneNotFound
    | Some scene =>
        Playing scene
          (map (fun c =>
                  {| choice := c;
                     disabled := negb (Js.truthy_opt (Choice.targetSceneId c))
                                 || isGenerating st |})
             (Scene.choices scene))
          (length (Scene.choices scene) =? 0)
    end.

(** The choices that a view offers to the player. *)
Definition exposed (v : View) : list Choice.t :=
  match v with
  | Playing _ buttons _ => map choice buttons
  | _ => []
  end.

(** A click on the button of a choice: a disabled button does not
    react. *)
Definition click (b : Button) (st : State) : State :=
  if disabled b then st else handleChoice (Choice.targetSceneId (choice b)) st.

(** The narration state: the words shown and the index of the word
    that is highlighted, [None] for [-1].  [words] starts empty. *)
Record Narration : Type :=
  { words : list string;
    currentWordIndex : option nat }.

Definition init_narration : Narration :=
  {| words := []; currentWordIndex := None |}.

(** The effect that splits the body of the current scene into words.
    It runs when the current scene changes, and does nothing without a
    current scene or on an empty body: the words shown before stay. *)
Definition split_effect (currentScene : option Scene.t) (n : Narration) : Narration :=
  match currentScene with
  | Some scene =>
      if Js.truthy (Scene.body scene)
      then {| words := Js.split_spaces (Scene.body scene); currentWordIndex := None |}
      else n
  | None => n
  end.

(** [textUpToNow.split(/(\s+)/).length - 1] for the character position
    [charIndex] of the body. *)
Definition word_index (body : string) (charIndex : nat) : nat :=
  length (Js.split_spaces (Js.substring_to charIndex body)) - 1.

(** The [onboundary] handler of the narration.  [toggleSpeech] installs
    it only for a current scene with a non-empty body, and it reacts to
    the events named [word]. *)
Definition onboundary (currentScene : option Scene.t) (name : string) (charIndex : nat)
    (n : Narration) : Narration :=
  match currentScene with
  | Some scene =>
      if Js.truthy (Scene.body scene) && Js.strict_eq name "word"
      then {| words := words n;
              currentWordIndex := Some (word_index (Scene.body scene) charIndex) |}
      else n
  | None => n
  end.

End StoryPreview.

(** ** The unified canvas ([components/StoryCanvas.tsx]) *)

Module StoryCanvas.

Inductive Mode : Type := play | edit.

Record State : Type :=
  { mode : Mode;
    currentSceneId : option string }.

(** The [useState] initializers: the start scene, or the first scene
    if available, or [null]; the default mode is ["play"]. *)
Definition init (story : Story.t) (initialMode : option Mode) : State :=
  {| mode := supplied play initialMode;
     currentSceneId :=
       if Js.truthy_opt (Story.startSceneId story) then Story.startSceneId story
       else
         match Story.scenes story with
         | first :: _ => Some (Scene.id first)
         | [] => None
         end |}.

(** The effect that selects the first scene when none is selected. *)
Definition select_first_effect (story : Story.t) (st : State) : State :=
  if negb (Js.truthy_opt (currentSceneId st)) && (0 <? length (Story.scenes story))
  then {| mode := mode st;
          currentSceneId := option_map Scene.id (Js.first_elem (Story.scenes story)) |}
  else st.

Definition currentScene (story : Story.t) (st : State) : option Scene.t :=
  find_scene (Story.scenes story) (currentSceneId st).

Definition handleChoice (targetSceneId : option string) (st : State) : State :=
  if Js.truthy_opt targetSceneId
  then {| mode := mode st; currentSceneId := targetSceneId |}
  else st.

Record Button : Type :=
  { choice : Choice.t;
    disabled : bool }.

(** What the component renders: the empty panel when the current
    scene does not resolve, else the scene in play or in edit mode. *)
Inductive View : Type :=
| NoScene
| PlayView (scene : Scene.t) (buttons : list Button)
| EditView (scene : Scene.t).

Definition render (story : Story.t) (st : State) : View :=
  match currentScene story st with
  | None => NoScene
  | Some scene =>
      match mode st with
      | play =>
          PlayView scene
            (map (fun c =>
                    {| choice := c;
                       disabled := negb (Js.truthy_opt (Choice.targetSceneId c)) |})
               (Scene.choices scene))
      | edit => EditView scene
      end
  end.

Definition exposed (v : View) : list Choice.t :=
  match v with
  | PlayView _ buttons => map choice buttons
  | _ => []
  end.

Definition click (b : Button) (st : State) : State :=
  if disabled b then st else handleChoice (Choice.targetSceneId (choice b)) st.

(** [!s || s.trim().length === 0]. *)
Definition blank (s : string) : bool :=
  negb (Js.truthy s) || (String.length (Js.trim s) =? 0).

Section Props.

(** The callbacks that the page passes down, the fetch of the AI
    client, and the outcome of its [suggestChoices] call ([None]:
    the call gave [null]). *)
Variable onCreateScene : M Scene.t.
Variable onUpdateScene : string -> PartialScene.t -> M unit.
Variable onAddChoice : string -> option string -> M unit.
Variable onUpdateChoice : string -> string -> PartialChoice.t -> M unit.
Variable fetch : AiRoutes.SuggestSceneRequest -> UseAiApi.Fetched.
Variable suggestChoices :
  string -> option string -> option UseAiApi.SuggestChoicesResult.

(** [story] is the prop of the render in which the handler was
    created: the store calls below do not change it.  With no
    current scene identifier there is no current scene, and the
    handler returns at its first test. *)
Definition handleAiSuggest (story : Story.t) (st : State) : M State :=
  match currentSceneId st, currentScene story st with
  | Some currentId, Some scene =>
      if blank (Scene.body scene) then ret st
      else if blank (Story.title story) then ret st
      else if blank (Story.description story) then ret st
      else
        match fst (UseAiApi.suggestScene fetch
                     (Js.trim (Story.title story))
                     (Js.trim (Story.description story))
                     (Js.trim (Scene.body scene)) None) with
        | None => ret st
        | Some result =>
            let choicesResult :=
              suggestChoices (UseAiApi.body result) (Some (Story.description story)) in
            newScene <- onCreateScene ;;
            onUpdateScene (Scene.id newScene)
              {| PartialScene.id := None;
                 PartialScene.title := Some (UseAiApi.title result);
                 PartialScene.body := Some (UseAiApi.body result);
                 PartialScene.choices := None |} ;;;
            match choicesResult with
            | Some suggested =>
                forEach (fun c => onAddChoice (Scene.id newScene) (Some c)) suggested
            | None => ret tt
            end ;;;
            onAddChoice currentId
              (Some ("Continue to " ++ UseAiApi.title result)%string) ;;;
            match find_scene (Story.scenes story) (currentSceneId st) with
            | Some origin =>
                match Js.last_elem (Scene.choices origin) with
                | Some lastChoice =>
                    onUpdateChoice currentId (Choice.id lastChoice)
                      {| PartialChoice.id := None;
                         PartialChoice.text := None;
                         PartialChoice.targetSceneId := Some (Some (Scene.id newScene)) |}
                | None => ret tt
                end
            | None => ret tt
            end ;;;
            ret {| mode := mode st; currentSceneId := Some (Scene.id newScene) |}
        end
  | _, _ => ret st
  end.

End Props.

(** The target selector of the choice editor.  Its patch is
    [{ nextSceneId: value || null }]: [nextSceneId] is not a key of
    [Choice], so none of [id], [text] and [targetSceneId] is supplied. *)
Definition selectTarget (onUpdateChoice : string -> string -> PartialChoice.t -> M unit)
    (st : State) (choice : Choice.t) (value : string) : M unit :=
  match currentSceneId st with
  | Some currentId =>
      if Js.truthy currentId
      then onUpdateChoice currentId (Choice.id choice) PartialChoice.empty
      else ret tt
  | None => ret tt
  end.

End StoryCanvas.

(** ** The page that wires the canvas to the store ([routes/StoryEditorPage.tsx]) *)

Module StoryEditorPage.

Definition onUpdateStory (story : Story.t) (updates : PartialStory.t) : M unit :=
  UseStories.updateStory (Story.id story) updates.

Definition onCreateScene (story : Story.t) : M Scene.t :=
  UseStories.createScene (Story.id story) None.

Definition onUpdateScene (story : Story.t) (sceneId : string)
    (updates : PartialScene.t) : M unit :=
  UseStories.updateScene (Story.id story) sceneId updates.

Definition onDeleteScene (story : Story.t) (sceneId : string) : M unit :=
  UseStories.deleteScene (Story.id story) sceneId.

(** The canvas declares [onAddChoice] as returning [void]: the new
    choice is dropped. *)
Definition onAddChoice (story : Story.t) (sceneId : string) (text : option string)
  : M unit :=
  UseStories.addChoice (Story.id story) sceneId text ;;; ret tt.

Definition onUpdateChoice (story : Story.t) (sceneId choiceId : string)
    (updates : PartialChoice.t) : M unit :=
  UseStories.updateChoice (Story.id story) sceneId choiceId updates.

Definition onDeleteChoice (story : Story.t) (sceneId choiceId : string) : M unit :=
  UseStories.deleteChoice (Story.id story) sceneId choiceId.

(** The AI suggestion button of the canvas rendered for the story
    [storyId]: the page reads the story from the store, the canvas
    receives it as its prop, and the handler runs with that prop. *)
Definition aiSuggest (storyId : string)
    (fetch : AiRoutes.SuggestSceneRequest -> UseAiApi.Fetched)
    (suggestChoices : string -> option string -> option UseAiApi.SuggestChoicesResult)
    (st : StoryCanvas.State) : M StoryCanvas.State :=
  found <- UseStories.getStory storyId ;;
  match found with
  | None => ret st
  | Some story =>
      StoryCanvas.handleAiSuggest (onCreateScene story) (onUpdateScene story)
        (onAddChoice story) (onUpdateChoice story) fetch suggestChoices story st
  end.

End StoryEditorPage.

(** ** The scene editor panel ([components/SceneEditor.tsx]) *)

Module SceneEditor.

(** [value || null]. *)
Definition or_null (value : string) : option string :=
  if Js.truthy value then Some value else None.

(** The target selector of a choice: [{ targetSceneId: value || null }]. *)
Definition selectTarget (onUpdateChoice : string -> PartialChoice.t -> M unit)
    (choice : Choice.t) (value : string) : M unit :=
  onUpdateChoice (Choice.id choice)
    {| PartialChoice.id := None;
       PartialChoice.text := None;
       PartialChoice.targetSceneId := Some (or_null value) |}.

End SceneEditor.

(** ** The sidebar editor ([components/StoryEditor.tsx]) *)

Module StoryEditor.

(** [story.scenes[0]?.id || null]. *)
Definition first_id_or_null (scenes : list Scene.t) : option string :=
  match Js.first_elem scenes with
  | Some first => SceneEditor.or_null (Scene.id first)
  | None => None
  end.

(** The initial selection. *)
Definition init (story : Story.t) : option string :=
  first_id_or_null (Story.scenes story).

(** Deletes the scene and, when it was the selected one, selects the
    first of the remaining scenes of the story prop; gives the new
    selection. *)
Definition handleDeleteScene (onDeleteScene : string -> M unit) (story : Story.t)
    (selectedSceneId : option string) (sceneId : string) : M (option string) :=
  onDeleteScene sceneId ;;;
  if Js.strict_eq_opt sceneId selectedSceneId
  then
    let remainingScenes :=
      filter (fun s => negb (Js.strict_eq (Scene.id s) sceneId)) (Story.scenes story) in
    ret (first_id_or_null remainingScenes)
  else ret selectedSceneId.

(** The modal that is open, and the state of the editor.  The
    suggestion held while the scene-suggestion modal is open is the
    generated scene with the texts of its suggested choices. *)
Inductive ModalType : Type :=
| none
| scene_suggestion
| choice_suggestions
| text_improvement.

Record SceneSuggestion : Type :=
  { title : string;
    body : string;
    suggestedChoices : list string }.

Record State : Type :=
  { selectedSceneId : option string;
    modalType : ModalType;
    aiSuggestion : option SceneSuggestion }.

(** "Add as new scene" of the scene-suggestion modal. *)
Definition handleAddSceneAsNew (onCreateScene : M Scene.t)
    (onUpdateScene : string -> PartialScene.t -> M unit)
    (onAddChoice : string -> option string -> M unit)
    (onUpdateChoice : string -> string -> PartialChoice.t -> M unit)
    (story : Story.t) (st : State) : M State :=
  match aiSuggestion st, selectedSceneId st with
  | Some suggestion, Some selected =>
      if Js.truthy selected
      then
        newScene <- onCreateScene ;;
        onUpdateScene (Scene.id newScene)
          {| PartialScene.id := None;
             PartialScene.title := Some (title suggestion);
             PartialScene.body := Some (body suggestion);
             PartialScene.choices := None |} ;;;
        match suggestedChoices suggestion with
        | [] => ret tt
        | _ :: _ =>
            forEach (fun text => onAddChoice (Scene.id newScene) (Some text))
              (suggestedChoices suggestion)
        end ;;;
        onAddChoice selected (Some ("Continue to " ++ title suggestion)%string) ;;;
        match find_scene (Story.scenes story) (selectedSceneId st) with
        | Some currentScene =>
            match Js.last_elem (Scene.choices currentScene) with
            | Some lastChoice =>
                onUpdateChoice selected (Choice.id lastChoice)
                  {| PartialChoice.id := None;
                     PartialChoice.text := None;
                     PartialChoice.targetSceneId := Some (Some (Scene.id newScene)) |}
            | None => ret tt
            end
        | None => ret tt
        end ;;;
        ret {| selectedSceneId := Some (Scene.id newScene);
               modalType := none;
               aiSuggestion := None |}
      else ret st
  | _, _ => ret st
  end.

(** The scene panel passes the selected scene to the choice callbacks. *)
Definition selectTarget (onUpdateChoice : string -> string -> PartialChoice.t -> M unit)
    (selectedScene : Scene.t) (choice : Choice.t) (value : string) : M unit :=
  SceneEditor.selectTarget (onUpdateChoice (Scene.id selectedScene)) choice value.

End StoryEditor.

(** ** The home page ([routes/StoryListPage.tsx]) *)

Module StoryListPage.

(** Creates the story and gives the identifier that the page navigates
    to; does nothing on a blank title. *)
Definition handleCreateStory (newTitle newDescription : string) : M (option string) :=
  if Js.truthy (Js.trim newTitle)
  then
    let finalDescription :=
      UseAiApi.or_else (Js.trim newDescription) "An interactive story adventure" in
    newStory <- UseStories.createStory (Js.trim newTitle) finalDescription ;;
    ret (Some (Story.id newStory))
  else ret None.

End StoryListPage.

(** ** The graph of the story ([components/StoryGraphVisualizer.tsx]) *)

Module StoryGraphVisualizer.

(** The fields of an edge that depend on the story; the style constants
    are left out. *)
Record Edge : Type :=
  { id : string;
    source : string;
    target : string;
    label : string }.

(** [text.substring(0, 20) + (text.length > 20 ? "..." : "")]. *)
Definition edge_label (text : string) : string :=
  (Js.substring_to 20 text
   ++ (if Nat.ltb 20 (String.length text) then "..." else EmptyString))%string.

Definition initialEdges (story : Story.t) : list Edge :=
  flat_map
    (fun scene =>
       flat_map
         (fun choice =>
            match Choice.targetSceneId choice with
            | Some targetId =>
                if Js.truthy targetId
                then [{| id := (Scene.id scene ++ String "-" (Choice.id choice))%string;
                         source := Scene.id scene;
                         target := targetId;
                         label := edge_label (Choice.text choice) |}]
                else []
            | None => []
            end)
         (Scene.choices scene))
    (Story.scenes story).

(** The identifiers of the nodes, one node for each scene. *)
Definition node_ids (story : Story.t) : list string :=
  map Scene.id (Story.scenes story).

End StoryGraphVisualizer.

(** ** Sample stories and auxiliary notions used by the properties *)

Definition sample_scene (sceneId title : string) (choices : list Choice.t) : Scene.t :=
  {| Scene.id := sceneId; Scene.title := title; Scene.body := "Once upon a time.";
     Scene.choices := choices |}.

Definition sample_world (l : list Story.t) : World :=
  {| stories := l; slot := None;
     now := fun _ => 1700000000000%N;
     random36 := fun k => ("0." ++ Js.decimal (N.of_nat k) ++ "k3j9x2m1qa7")%string;
     reads := 0 |}.

(** The identifiers of the collection, level by level. *)
Definition story_ids (l : list Story.t) : list string := map Story.id l.

Definition scene_ids (l : list Story.t) : list (list string) :=
  map (fun story => map Scene.id (Story.scenes story)) l.

Definition choice_ids (l : list Story.t) : list (list (list string)) :=
  map (fun story =>
         map (fun scene => map Choice.id (Scene.choices scene)) (Story.scenes story)) l.

Fixpoint no_dash (s : string) : Prop :=
  match s with
  | EmptyString => True
  | String c rest => c <> "-"%char /\ no_dash rest
  end.

(** A world in which two random numbers differ only after their ninth
    base 36 digit. *)
Definition close_draws_world (l : list Story.t) : World :=
  {| stories := l; slot := None;
     now := fun _ => 1700000000000%N;
     random36 := fun k => if k =? 1 then "0.k3j9x2m1qa7" else "0.k3j9x2m1qzz";
     reads := 0 |}.

(** A story whose only scene offers a choice that points at a scene
    that was deleted. *)
Definition dangling_story : Story.t :=
  Story.make "s" "T" "D"
    [sample_scene "a" "A" [Choice.make "c1" "Enter the cave" (Some "gone")]]
    (Some "a").

(** A story with one scene and no start scene. *)
Definition unstarted_story : Story.t :=
  Story.make "s" "T" "D"
    [sample_scene "a" "A" [Choice.make "c1" "Go on" (Some "a")]] None.

(** A playing state of the story [A -> B] with a typed action. *)
Definition typing_state (action : string) : StoryPreview.State :=
  {| StoryPreview.story :=
       Story.make "s" "T" "D"
         [sample_scene "a" "A" [Choice.make "c1" "to B" (Some "b")];
          sample_scene "b" "B" []] (Some "a");
     StoryPreview.currentSceneId := Some "a";
     StoryPreview.customInput := action;
     StoryPreview.isGenerating := false |}.

(** The story under edit: scene [A] with its prior choices, and scene
    [B]. *)
Definition origin_story (prior : list Choice.t) : Story.t :=
  Story.make "s" "T" "D" [sample_scene "a" "A" prior; sample_scene "b" "B" []] (Some "a").

Definition editing_a : StoryCanvas.State :=
  {| StoryCanvas.mode := StoryCanvas.edit; StoryCanvas.currentSceneId := Some "a" |}.

(** The generator answers [suggestScene] with the cave scene of the
    specification, and [suggestChoices] with two texts. *)
Definition cave_reply : UseAiApi.Network :=
  UseAiApi.Reachable (AiRoutes.Parsed (Some "Cave") (Some "You enter a cave.")).

Definition cave_choices (body : string) (context : option string)
  : option UseAiApi.SuggestChoicesResult :=
  Some ["Look around"; "Leave"].

Definition cave_scene : Scene.t :=
  {| Scene.id := "1700000000000-1k3j9x2m1"; Scene.title := "Cave";
     Scene.body := "You enter a cave.";
     Scene.choices :=
       [Choice.make "1700000000000-3k3j9x2m1" "Look around" None;
        Choice.make "1700000000000-5k3j9x2m1" "Leave" None] |}.

(** Induction on a JSON value whose hypotheses reach the items of an
    array and the values of an object. *)
Fixpoint json_nested_ind (P : Snapshot.json -> Prop)
    (HNull : P Snapshot.JNull)
    (HString : forall s, P (Snapshot.JString s))
    (HArray : forall items, Forall P items -> P (Snapshot.JArray items))
    (HObject : forall members,
        Forall (fun kv => P (snd kv)) members -> P (Snapshot.JObject members))
    (j : Snapshot.json) {struct j} : P j :=
  match j with
  | Snapshot.JNull => HNull
  | Snapshot.JString s => HString s
  | Snapshot.JArray items =>
      HArray items
        ((fix all (l : list Snapshot.json) : Forall P l :=
            match l with
            | [] => Forall_nil P
            | x :: rest =>
                Forall_cons x (json_nested_ind P HNull HString HArray HObject x) (all rest)
            end) items)
  | Snapshot.JObject members =>
      HObject members
        ((fix all (l : list (string * Snapshot.json))
            : Forall (fun kv => P (snd kv)) l :=
            match l with
            | [] => Forall_nil _
            | kv :: rest =>
                Forall_cons kv
                  (json_nested_ind P HNull HString HArray HObject (snd kv)) (all rest)
            end) members)
  end.

(** A value is read back from its text, whatever follows it, when the
    fuel covers the length of the text. *)
Definition reads_back (j : Snapshot.json) : Prop :=
  forall rest fuel,
    String.length (Snapshot.stringify j) <= fuel ->
    Snapshot.parse_value fuel (Snapshot.stringify j ++ rest)%string = Some (j, rest).

(** In every scene [sceneId] of every story [storyId], the choice
    sequence ends with [c]. *)
Definition ends_with (storyId sceneId : string) (c : Choice.t) (l : list Story.t) : Prop :=
  forall story scene,
    In story l -> Story.id story = storyId ->
    In scene (Story.scenes story) -> Scene.id scene = sceneId ->
    exists before, Scene.choices scene = before ++ [c].

(** The start scene of the story is [null] or names one of its scenes. *)
Definition start_resolves (story : Story.t) : bool :=
  match Story.startSceneId story with
  | None => true
  | Some _ => Js.defined (find_scene (Story.scenes story) (Story.startSceneId story))
  end.

(** The stories that are not named by [storyId] are the same in both
    collections, position by position, and no identifier changes. *)
Definition others_untouched (storyId : string) (l l' : list Story.t) : Prop :=
  Forall2
    (fun story story' =>
       Story.id story' = Story.id story /\ (Story.id story <> storyId -> story' = story))
    l l'.

(** A computation that leaves the other stories untouched in every
    world. *)
Definition frames {A : Type} (storyId : string) (m : M A) : Prop :=
  forall w, others_untouched storyId (stories w) (stories (snd (m w))).

(** The text begins, or ends, with a white-space character. *)
Definition starts_with_space (s : string) : bool :=
  match s with
  | EmptyString => false
  | String c _ => Js.is_space c
  end.

Fixpoint ends_with_space (s : string) : bool :=
  match s with
  | EmptyString => false
  | String c EmptyString => Js.is_space c
  | String _ rest => ends_with_space rest
  end.

(** Every character of the text passes the test. *)
Fixpoint all_chars (p : ascii -> bool) (s : string) : bool :=
  match s with
  | EmptyString => true
  | String c rest => p c && all_chars p rest
  end.

(** A word holds no white space; a run holds nothing else. *)
Definition is_word (token : string) : bool :=
  all_chars (fun c => negb (Js.is_space c)) token.

Definition is_run (token : string) : bool :=
  all_chars Js.is_space token.

Definition is_nil {A : Type} (l : list A) : bool :=
  match l with
  | [] => true
  | _ :: _ => false
  end.

(** The tokens after a word: runs and words in turn, the runs not empty,
    and no word empty but the last one. *)
Fixpoint tail_shape (tokens : list string) : bool :=
  match tokens with
  | [] => true
  | run :: more =>
      match more with
      | [] => false
      | word :: rest =>
          Js.truthy run && is_run run && is_word word
          && (Js.truthy word || is_nil rest) && tail_shape rest
      end
  end.

(** The tokens of a text: a word, then runs and words in turn. *)
Definition token_shape (tokens : list string) : bool :=
  match tokens with
  | [] => false
  | first :: rest => is_word first && tail_shape rest
  end.

(** The tokens read inside a run of which the beginning is still to be
    added. *)
Definition run_shape (tokens : list string) : bool :=
  match tokens with
  | run :: word :: rest =>
      is_run run && is_word word && (Js.truthy word || is_nil rest) && tail_shape rest
  | _ => false
  end.

(** The word at the beginning of the text: its characters up to the
    first white space. *)
Fixpoint take_word (s : string) : string :=
  match s with
  | EmptyString => EmptyString
  | String c rest => if Js.is_space c then EmptyString else String c (take_word rest)
  end.

(** The tokens of a text and of the text that follows it, when the
    second text continues the last word of the first. *)
Definition glue (tokens more : list string) : list string :=
  removelast tokens ++ [(last tokens EmptyString ++ hd EmptyString more)%string] ++ tl more.

(** The choices that the graph draws an edge for. *)
Definition linked_choices (story : Story.t) : list Choice.t :=
  filter (fun choice => Js.truthy_opt (Choice.targetSceneId choice))
    (flat_map Scene.choices (Story.scenes story)).


(** The identifier that [generateId] draws after [k] earlier readings
    of the clock and of the random source. *)
Definition drawn_id (w : World) (k : nat) : string :=
  UseStories.id_format (now w (reads w + k)) (random36 w (S (reads w + k))).

(** The world [w'] has the clock and the random source of [w], [k]
    readings later. *)
Definition later (k : nat) (w w' : World) : Prop :=
  now w' = now w /\ random36 w' = random36 w /\ reads w' = reads w + k.

(** Some scene [sceneId] of some story [storyId] of the collection has
    a choice sequence with the property [q]. *)
Definition holds_scene (storyId sceneId : string) (q : list Choice.t -> Prop)
    (l : list Story.t) : Prop :=
  exists story scene,
    In story l /\ Story.id story = storyId /\
    In scene (Story.scenes story) /\ Scene.id scene = sceneId /\
    q (Scene.choices scene).

(** A property of choice sequences that appending choices keeps. *)
Definition grows (q : list Choice.t -> Prop) : Prop :=
  forall choices more, q choices -> q (choices ++ more).

(** * Properties *)

(** ** The store operations act through their updater *)

Section StoreSteps.

Variable w : World.

Lemma setStories_stories (f : list Story.t -> list Story.t) :
  stories (snd (UseStories.setStories f w)) = f (stories w).
Proof. reflexivity. Qed.

Lemma deleteScene_stories (storyId sceneId : string) :
  stories (snd (UseStories.deleteScene storyId sceneId w))
  = UseStories.deleteScene_prev storyId sceneId (stories w).
Proof. reflexivity. Qed.

Lemma updateStory_stories (storyId : string) (updates : PartialStory.t) :
  stories (snd (UseStories.updateStory storyId updates w))
  = UseStories.updateStory_prev storyId updates (stories w).
Proof. reflexivity. Qed.

Lemma updateScene_stories (storyId sceneId : string) (updates : PartialScene.t) :
  stories (snd (UseStories.updateScene storyId sceneId updates w))
  = UseStories.updateScene_prev storyId sceneId updates (stories w).
Proof. reflexivity. Qed.

Lemma updateChoice_stories (storyId sceneId choiceId : string)
    (updates : PartialChoice.t) :
  stories (snd (UseStories.updateChoice storyId sceneId choiceId updates w))
  = UseStories.updateChoice_prev storyId sceneId choiceId updates (stories w).
Proof. reflexivity. Qed.

Lemma addChoice_stories (storyId sceneId : string) (choiceText : option string) :
  stories (snd (UseStories.addChoice storyId sceneId choiceText w))
  = UseStories.addChoice_prev storyId sceneId
      (fst (UseStories.addChoice storyId sceneId choiceText w)) (stories w).
Proof. reflexivity. Qed.

Lemma addChoice_returns (storyId sceneId : string) (choiceText : option string) :
  fst (UseStories.addChoice storyId sceneId choiceText w)
  = {| Choice.id := fst (UseStories.generateId w);
       Choice.text := supplied "New choice" choiceText;
       Choice.targetSceneId := None |}.
Proof. reflexivity. Qed.

Lemma deleteChoice_stories (storyId sceneId choiceId : string) :
  stories (snd (UseStories.deleteChoice storyId sceneId choiceId w))
  = UseStories.deleteChoice_prev storyId sceneId choiceId (stories w).
Proof. reflexivity. Qed.

End StoreSteps.

(** ** Deleting a scene *)

Lemma Forall2_map_self {A : Type} (R : A -> A -> Prop) (f : A -> A) (l : list A) :
  (forall x, In x l -> R x (f x)) -> Forall2 R l (map f l).
Proof.
  induction l as [|x l IH]; intros H; simpl; constructor.
  - apply H. left. reflexivity.
  - apply IH. intros y Hy. apply H. right. exact Hy.
Qed.

Lemma filter_other_ids (sceneId : string) (l1 l2 : list Scene.t) (sc : Scene.t) :
  Scene.id sc = sceneId ->
  (forall x, In x (l1 ++ l2) -> Scene.id x <> sceneId) ->
  filter (fun scene => negb (Js.strict_eq (Scene.id scene) sceneId)) (l1 ++ sc :: l2)
  = l1 ++ l2.
Proof.
  intros Hsc Hothers.
  assert (Hkeep : forall l, (forall x, In x l -> Scene.id x <> sceneId) ->
            filter (fun scene => negb (Js.strict_eq (Scene.id scene) sceneId)) l = l).
  { induction l as [|x l IH]; intros Hl; simpl; [reflexivity|].
    unfold Js.strict_eq at 1.
    destruct (String.eqb_spec (Scene.id x) sceneId) as [E|E].
    - exfalso. apply (Hl x); [left; reflexivity | exact E].
    - simpl. f_equal. apply IH. intros y Hy. apply Hl. right. exact Hy. }
  rewrite filter_app. simpl. unfold Js.strict_eq at 2.
  rewrite Hsc, String.eqb_refl. simpl.
  rewrite !Hkeep; [reflexivity | |].
  - intros x Hx. apply Hothers, in_or_app. right. exact Hx.
  - intros x Hx. apply Hothers, in_or_app. left. exact Hx.
Qed.

(** C5: [deleteScene] maps the collection story by story.  A story with
    another identifier is untouched.  In the named story the title and
    the description are kept, the scene sequence loses the scenes that
    carry [sceneId] and nothing else (every remaining scene is kept as
    it is, choices included, so references to the deleted scene stay),
    [startSceneId] becomes [null] when it referenced the deleted scene
    and is kept otherwise; when exactly one scene carries [sceneId],
    exactly that scene is removed. *)
Theorem deleteScene_frame (w : World) (storyId sceneId : string) :
  Forall2
    (fun story story' =>
       Story.id story' = Story.id story /\
       Story.title story' = Story.title story /\
       Story.description story' = Story.description story /\
       (Story.id story <> storyId -> story' = story) /\
       (Story.id story = storyId ->
        Story.scenes story'
        = filter (fun scene => negb (Js.strict_eq (Scene.id scene) sceneId))
            (Story.scenes story) /\
        (forall scene, In scene (Story.scenes story) ->
           Scene.id scene <> sceneId -> In scene (Story.scenes story')) /\
        (forall scene, In scene (Story.scenes story') ->
           In scene (Story.scenes story) /\ Scene.id scene <> sceneId) /\
        (Story.startSceneId story = Some sceneId -> Story.startSceneId story' = None) /\
        (Story.startSceneId story <> Some sceneId ->
           Story.startSceneId story' = Story.startSceneId story) /\
        (forall l1 sc l2,
           Story.scenes story = l1 ++ sc :: l2 ->
           Scene.id sc = sceneId ->
           (forall x, In x (l1 ++ l2) -> Scene.id x <> sceneId) ->
           Story.scenes story' = l1 ++ l2)))
    (stories w)
    (stories (snd (UseStories.deleteScene storyId sceneId w))).
Proof.
  rewrite deleteScene_stories. unfold UseStories.deleteScene_prev.
  apply Forall2_map_self. intros story _. unfold Js.strict_eq.
  destruct (String.eqb_spec (Story.id story) storyId) as [E|E]; simpl.
  - split; [reflexivity|]. split; [reflexivity|]. split; [reflexivity|].
    split; [intros Hne; contradiction|]. intros _.
    split; [reflexivity|]. split; [|split; [|split; [|split]]].
    + intros scene Hin Hid. apply filter_In. split; [exact Hin|].
      unfold Js.strict_eq. apply negb_true_iff, String.eqb_neq. exact Hid.
    + intros scene Hin. apply filter_In in Hin. destruct Hin as [Hin Hid].
      split; [exact Hin|].
      unfold Js.strict_eq in Hid. apply negb_true_iff, String.eqb_neq in Hid. exact Hid.
    + intros Hstart. rewrite Hstart. simpl. rewrite String.eqb_refl. reflexivity.
    + intros Hstart. destruct (Story.startSceneId story) as [s|]; simpl; [|reflexivity].
      destruct (String.eqb_spec sceneId s) as [E'|E']; [|reflexivity].
      subst s. contradiction.
    + intros l1 sc l2 Hsplit Hsc Hothers. rewrite Hsplit.
      apply filter_other_ids; assumption.
  - split; [reflexivity|]. split; [reflexivity|]. split; [reflexivity|].
    split; [reflexivity|]. intros Heq. contradiction.
Qed.

(** A story [A -> B -> A] started at [A]: deleting [A] leaves [B] with
    its choice that still points at [A], and clears the start. *)
Lemma deleteScene_frame_witness :
  let a := sample_scene "a" "A" [Choice.make "c1" "to B" (Some "b")] in
  let b := sample_scene "b" "B" [Choice.make "c2" "to A" (Some "a")] in
  let w := sample_world [Story.make "s" "T" "D" [a; b] (Some "a")] in
  exists story',
    stories (snd (UseStories.deleteScene "s" "a" w)) = [story'] /\
    Story.scenes story' = [b] /\ Story.startSceneId story' = None.
Proof.
  intros a b w.
  pose proof (deleteScene_frame w "s" "a") as H.
  remember (stories (snd (UseStories.deleteScene "s" "a" w))) as next eqn:Hnext.
  simpl in H.
  inversion H as [|story story' prev rest Hrel Hrest]; subst story prev.
  inversion Hrest; subst rest.
  exists story'. split; [reflexivity|].
  destruct Hrel as (_ & _ & _ & _ & Hnamed).
  destruct (Hnamed eq_refl) as (_ & _ & _ & Hstart & _ & Hexact).
  split.
  - apply (Hexact [] a [b]); [reflexivity | reflexivity |].
    intros x [Hx|[]]. subst x. discriminate.
  - apply Hstart. reflexivity.
Defined.

(** ** Identifiers under the update operations *)

Lemma map_ext_cond {A B : Type} (f : A -> B) (g : A -> A) (l : list A) :
  (forall x, f (g x) = f x) -> map f (map g l) = map f l.
Proof.
  intros H. rewrite map_map. apply map_ext. exact H.
Qed.





Lemma updateChoice_scene_ids (storyId sceneId choiceId : string)
    (updates : PartialChoice.t) (prev : list Story.t) :
  scene_ids (UseStories.updateChoice_prev storyId sceneId choiceId updates prev)
  = scene_ids prev.
Proof.
  unfold scene_ids, UseStories.updateChoice_prev.
  rewrite map_map. apply map_ext. intros story.
  destruct (Js.strict_eq (Story.id story) storyId); [|reflexivity].
  simpl. apply map_ext_cond. intros scene.
  destruct (Js.strict_eq (Scene.id scene) sceneId); reflexivity.
Qed.

Lemma updateChoice_choice_ids (storyId sceneId choiceId : string)
    (updates : PartialChoice.t) (prev : list Story.t) :
  PartialChoice.id updates = None ->
  choice_ids (UseStories.updateChoice_prev storyId sceneId choiceId updates prev)
  = choice_ids prev.
Proof.
  intros Hid. unfold choice_ids, UseStories.updateChoice_prev.
  rewrite map_map. apply map_ext. intros story.
  destruct (Js.strict_eq (Story.id story) storyId); [|reflexivity].
  simpl. rewrite map_map. apply map_ext. intros scene.
  destruct (Js.strict_eq (Scene.id scene) sceneId); [|reflexivity].
  simpl. apply map_ext_cond. intros choice.
  destruct (Js.strict_eq (Choice.id choice) choiceId); [|reflexivity].
  simpl. rewrite Hid. reflexivity.
Qed.




(** A scene patch without the key [id] that supplies [choices] replaces
    the choices of the scene, and with them their identifiers. *)
Lemma choices_patch_replaces_choice_ids :
  let a := sample_scene "a" "A" [Choice.make "c1" "to B" None] in
  let w := sample_world [Story.make "s" "T" "D" [a] (Some "a")] in
  let scenePatch :=
    {| PartialScene.id := None; PartialScene.title := None; PartialScene.body := None;
       PartialScene.choices := Some [Choice.make "zzz" "to B" None] |} in
  scene_ids (stories (snd (UseStories.updateScene "s" "a" scenePatch w))) = [["a"]] /\
  choice_ids (stories w) = [[["c1"]]] /\
  choice_ids (stories (snd (UseStories.updateScene "s" "a" scenePatch w))) = [[["zzz"]]].
Proof.
  repeat split.
Qed.

(** ** Adding a choice and deleting it again *)

Lemma filter_appended_choice (choiceId : string) (cs : list Choice.t) (c : Choice.t) :
  Choice.id c = choiceId ->
  (forall ch, In ch cs -> Choice.id ch <> choiceId) ->
  filter (fun choice => negb (Js.strict_eq (Choice.id choice) choiceId)) (cs ++ [c]) = cs.
Proof.
  intros Hc Hfresh. rewrite filter_app. simpl. unfold Js.strict_eq at 2.
  rewrite Hc, String.eqb_refl. simpl. rewrite app_nil_r.
  induction cs as [|x cs IH]; simpl; [reflexivity|]. unfold Js.strict_eq at 1.
  destruct (String.eqb_spec (Choice.id x) choiceId) as [E|E].
  - exfalso. apply (Hfresh x); [left; reflexivity | exact E].
  - simpl. f_equal. apply IH. intros ch Hch. apply Hfresh. right. exact Hch.
Qed.

Lemma map_self {A : Type} (f : A -> A) (l : list A) :
  (forall x, In x l -> f x = x) -> map f l = l.
Proof.
  intros H. rewrite <- (map_id l) at 2. apply map_ext_in. exact H.
Qed.

Lemma with_scenes_same (story : Story.t) :
  UseStories.with_scenes story (Story.scenes story) = story.
Proof. destruct story. reflexivity. Qed.

Lemma with_choices_same (scene : Scene.t) :
  UseStories.with_choices scene (Scene.choices scene) = scene.
Proof. destruct scene. reflexivity. Qed.

Lemma deleteChoice_addChoice_prev (storyId sceneId : string) (c : Choice.t)
    (prev : list Story.t) :
  (forall story scene ch,
     In story prev -> Story.id story = storyId ->
     In scene (Story.scenes story) -> Scene.id scene = sceneId ->
     In ch (Scene.choices scene) -> Choice.id ch <> Choice.id c) ->
  UseStories.deleteChoice_prev storyId sceneId (Choice.id c)
    (UseStories.addChoice_prev storyId sceneId c prev) = prev.
Proof.
  intros Hfresh. unfold UseStories.deleteChoice_prev, UseStories.addChoice_prev.
  rewrite map_map. apply map_self. intros story Hstory. unfold Js.strict_eq.
  destruct (String.eqb_spec (Story.id story) storyId) as [E|E].
  - cbn. rewrite E, String.eqb_refl.
    etransitivity; [|apply with_scenes_same]. unfold UseStories.with_scenes. cbn.
    f_equal. rewrite map_map. apply map_self. intros scene Hscene.
    destruct (String.eqb_spec (Scene.id scene) sceneId) as [E'|E'].
    + cbn. rewrite E', String.eqb_refl.
      etransitivity; [|apply with_choices_same]. unfold UseStories.with_choices. cbn.
      f_equal. apply filter_appended_choice; [reflexivity|].
      intros ch Hch. apply (Hfresh story scene ch); assumption.
    + apply String.eqb_neq in E'. rewrite E'. reflexivity.
  - apply String.eqb_neq in E. rewrite E. reflexivity.
Qed.

(** C9, as the claim states it, fails for a prior choice sequence that
    already holds the identifier that [addChoice] draws: [deleteChoice]
    removes every choice that carries it. *)
Lemma addChoice_deleteChoice_counterexample :
  let prior := [Choice.make "1700000000000-1k3j9x2m1" "Open the door" (Some "b")] in
  let w := sample_world [Story.make "s" "T" "D" [sample_scene "a" "A" prior] None] in
  let added := UseStories.addChoice "s" "a" None w in
  Choice.id (fst added) = "1700000000000-1k3j9x2m1" /\
  stories (snd (UseStories.deleteChoice "s" "a" (Choice.id (fst added)) (snd added)))
  = [Story.make "s" "T" "D" [sample_scene "a" "A" []] None] /\
  stories (snd (UseStories.deleteChoice "s" "a" (Choice.id (fst added)) (snd added)))
  <> stories w.
Proof.
  split; [reflexivity|]. split; [reflexivity | discriminate].
Qed.

(** C9, amended: [addChoice] followed by [deleteChoice] with the
    returned identifier restores the collection, and with it the choice
    sequence of the scene, provided that no choice already in that scene
    carries the returned identifier. *)
Theorem addChoice_deleteChoice_inverse (w : World) (storyId sceneId : string)
    (choiceText : option string) :
  let added := UseStories.addChoice storyId sceneId choiceText w in
  (forall story scene ch,
     In story (stories w) -> Story.id story = storyId ->
     In scene (Story.scenes story) -> Scene.id scene = sceneId ->
     In ch (Scene.choices scene) -> Choice.id ch <> Choice.id (fst added)) ->
  stories (snd (UseStories.deleteChoice storyId sceneId (Choice.id (fst added)) (snd added)))
  = stories w.
Proof.
  intros added Hfresh.
  rewrite deleteChoice_stories. unfold added. rewrite addChoice_stories.
  apply deleteChoice_addChoice_prev. exact Hfresh.
Qed.

Lemma addChoice_deleteChoice_inverse_witness :
  let prior := [Choice.make "c1" "Open the door" (Some "b")] in
  let w := sample_world [Story.make "s" "T" "D" [sample_scene "a" "A" prior] None] in
  let added := UseStories.addChoice "s" "a" None w in
  stories (snd (UseStories.deleteChoice "s" "a" (Choice.id (fst added)) (snd added)))
  = stories w.
Proof.
  intros prior w added.
  apply (addChoice_deleteChoice_inverse w "s" "a" None).
  intros story scene ch Hstory _ Hscene _ Hch.
  destruct Hstory as [Hstory|[]]. subst story.
  destruct Hscene as [Hscene|[]]. subst scene.
  destruct Hch as [Hch|[]]. subst ch.
  vm_compute. discriminate.
Defined.

(** ** Identifier generation *)

Lemma string_of_uint_no_dash (d : Decimal.uint) :
  no_dash (NilEmpty.string_of_uint d).
Proof.
  induction d; simpl; try exact I; (split; [discriminate | assumption]).
Qed.

Lemma string_of_uint_inj (d d' : Decimal.uint) :
  NilEmpty.string_of_uint d = NilEmpty.string_of_uint d' -> d = d'.
Proof.
  intros H. apply (f_equal NilEmpty.uint_of_string) in H.
  rewrite !NilEmpty.usu in H. congruence.
Qed.

Lemma decimal_inj (n m : N) : Js.decimal n = Js.decimal m -> n = m.
Proof.
  intros H. apply DecimalN.Unsigned.to_uint_inj, string_of_uint_inj, H.
Qed.

Lemma split_at_dash (a b s t : string) :
  no_dash a -> no_dash b ->
  (a ++ String "-" s)%string = (b ++ String "-" t)%string -> a = b /\ s = t.
Proof.
  revert b. induction a as [|c a IH]; intros [|c' b] Ha Hb H; simpl in *.
  - inversion H. split; reflexivity.
  - inversion H as [[Hc Hrest]]. destruct Hb as [Hb _]. congruence.
  - inversion H as [[Hc Hrest]]. destruct Ha as [Ha _]. congruence.
  - inversion H as [[Hc Hrest]]. destruct Ha as [_ Ha]. destruct Hb as [_ Hb].
    destruct (IH b Ha Hb Hrest) as [E1 E2]. subst. split; reflexivity.
Qed.

Lemma id_format_inj (ms ms' : N) (r r' : string) :
  UseStories.id_format ms r = UseStories.id_format ms' r' <->
  ms = ms' /\ Js.substring_2_11 r = Js.substring_2_11 r'.
Proof.
  unfold UseStories.id_format. split.
  - intros H. apply split_at_dash in H; try apply string_of_uint_no_dash.
    destruct H as [H1 H2]. split; [apply decimal_inj, H1 | exact H2].
  - intros [H1 H2]. rewrite H1, H2. reflexivity.
Qed.

Lemma generateId_reads (w : World) :
  fst (UseStories.generateId w)
  = UseStories.id_format (now w (reads w)) (random36 w (S (reads w))).
Proof. reflexivity. Qed.

(** C7: the code breaks the uniqueness that the claim states and that
    the comment of [generateId] ("Generate a unique ID for stories,
    scenes, and choices") promises.  Within one millisecond, two
    distinct random numbers whose base 36 renderings agree on the nine
    characters that are kept give [createScene] and [addChoice] the same
    identifier: a scene and a choice of the same story then share it. *)
Lemma generateId_collision :
  let w := close_draws_world [Story.make "s" "T" "D" [] None] in
  let created := UseStories.createScene "s" None w in
  let added := UseStories.addChoice "s" (Scene.id (fst created)) None (snd created) in
  random36 w 1 <> random36 w 3 /\
  Scene.id (fst created) = "1700000000000-k3j9x2m1q" /\
  Choice.id (fst added) = Scene.id (fst created).
Proof.
  split; [discriminate|]. split; reflexivity.
Qed.

(** X25: stories, scenes and choices all take their identifier from
    [generateId], and two calls of it give different identifiers exactly
    when their millisecond readings differ or the nine kept characters
    of their random numbers differ: there is no counter and no registry
    of the identifiers in use. *)
Theorem generateId_distinct_iff (w1 w2 : World) (title description storyId sceneId : string)
    (sceneTitle choiceText : option string) :
  Story.id (fst (UseStories.createStory title description w1))
  = fst (UseStories.generateId w1) /\
  Scene.id (fst (UseStories.createScene storyId sceneTitle w1))
  = fst (UseStories.generateId w1) /\
  Choice.id (fst (UseStories.addChoice storyId sceneId choiceText w1))
  = fst (UseStories.generateId w1) /\
  (fst (UseStories.generateId w1) <> fst (UseStories.generateId w2) <->
   now w1 (reads w1) <> now w2 (reads w2) \/
   Js.substring_2_11 (random36 w1 (S (reads w1)))
   <> Js.substring_2_11 (random36 w2 (S (reads w2)))).
Proof.
  split; [reflexivity|]. split; [reflexivity|]. split; [reflexivity|].
  rewrite !generateId_reads, id_format_inj.
  destruct (N.eq_dec (now w1 (reads w1)) (now w2 (reads w2))) as [E|E];
    destruct (string_dec (Js.substring_2_11 (random36 w1 (S (reads w1))))
                (Js.substring_2_11 (random36 w2 (S (reads w2))))) as [E'|E'];
    tauto.
Qed.

(** ** Selecting a choice *)

(** C1, as the claim states it, fails in both players: the button of a
    dangling choice is enabled, and the click moves [currentSceneId] to
    the identifier that resolves to nothing. *)
Lemma dangling_choice_counterexample :
  let c := Choice.make "c1" "Enter the cave" (Some "gone") in
  let pst := StoryPreview.init dangling_story in
  let cst := StoryCanvas.init dangling_story None in
  find_scene (Story.scenes dangling_story) (Choice.targetSceneId c) = None /\
  StoryPreview.render pst
  = StoryPreview.Playing (sample_scene "a" "A" [c])
      [{| StoryPreview.choice := c; StoryPreview.disabled := false |}] false /\
  StoryPreview.currentSceneId
    (StoryPreview.click {| StoryPreview.choice := c; StoryPreview.disabled := false |} pst)
  <> StoryPreview.currentSceneId pst /\
  StoryCanvas.render dangling_story cst
  = StoryCanvas.PlayView (sample_scene "a" "A" [c])
      [{| StoryCanvas.choice := c; StoryCanvas.disabled := false |}] /\
  StoryCanvas.currentSceneId
    (StoryCanvas.click {| StoryCanvas.choice := c; StoryCanvas.disabled := false |} cst)
  <> StoryCanvas.currentSceneId cst.
Proof.
  repeat split; discriminate.
Qed.

(** C1, amended: the handlers are total, so a selection never throws.
    A choice whose target is a non-empty identifier that names no scene
    of the story moves [currentSceneId] to that identifier; the story
    is not modified, the player then shows no scene and exposes no
    choice, and the first-scene effect of the canvas does not step in.
    Only a [null] or empty target is inert. *)
Theorem dangling_choice_moves (story : Story.t) (pst : StoryPreview.State)
    (cst : StoryCanvas.State) (target : string) :
  StoryPreview.story pst = story ->
  Js.truthy target = true ->
  find_scene (Story.scenes story) (Some target) = None ->
  let pst' := StoryPreview.handleChoice (Some target) pst in
  let cst' := StoryCanvas.handleChoice (Some target) cst in
  StoryPreview.currentSceneId pst' = Some target /\
  StoryPreview.story pst' = story /\
  StoryPreview.exposed (StoryPreview.render pst') = [] /\
  StoryCanvas.currentSceneId cst' = Some target /\
  StoryCanvas.render story cst' = StoryCanvas.NoScene /\
  StoryCanvas.select_first_effect story cst' = cst' /\
  (forall inert, Js.truthy_opt inert = false ->
     StoryPreview.handleChoice inert pst = pst /\
     StoryCanvas.handleChoice inert cst = cst).
Proof.
  intros Hstory Htarget Hdangling pst' cst'.
  unfold pst', cst', StoryPreview.handleChoice, StoryCanvas.handleChoice.
  simpl. rewrite Htarget. simpl.
  split; [reflexivity|]. split; [exact Hstory|]. split.
  - unfold StoryPreview.render, StoryPreview.currentScene. simpl.
    rewrite Hstory, Hdangling.
    destruct (negb (Js.truthy_opt (Story.startSceneId story))
              || negb (Js.defined (StoryPreview.startScene _))); reflexivity.
  - split; [reflexivity|]. split; [|split].
    + unfold StoryCanvas.render, StoryCanvas.currentScene. simpl.
      rewrite Hdangling. reflexivity.
    + unfold StoryCanvas.select_first_effect. simpl. rewrite Htarget. reflexivity.
    + intros inert Hinert. rewrite Hinert. split; reflexivity.
Qed.

Lemma dangling_choice_moves_witness :
  let pst := StoryPreview.init dangling_story in
  let cst := StoryCanvas.init dangling_story None in
  StoryPreview.currentSceneId (StoryPreview.handleChoice (Some "gone") pst) = Some "gone" /\
  StoryCanvas.render dangling_story (StoryCanvas.handleChoice (Some "gone") cst)
  = StoryCanvas.NoScene.
Proof.
  intros pst cst.
  destruct (dangling_choice_moves dangling_story pst cst "gone" eq_refl eq_refl eq_refl)
    as (Hp & _ & _ & _ & Hc & _ & _).
  split; [exact Hp | exact Hc].
Defined.

(** ** Starting playback *)

(** C2, as the claim states it, fails in the canvas: without a start
    scene it selects the first scene of the story and offers its
    choices. *)
Lemma canvas_fallback_counterexample :
  let st := StoryCanvas.init unstarted_story None in
  Story.startSceneId unstarted_story = None /\
  StoryCanvas.currentSceneId st = Some "a" /\
  StoryCanvas.currentSceneId st <> Story.startSceneId unstarted_story /\
  StoryCanvas.exposed (StoryCanvas.render unstarted_story st)
  = [Choice.make "c1" "Go on" (Some "a")].
Proof.
  repeat split; discriminate.
Qed.

Lemma canvas_effect_after_init (story : Story.t) (initialMode : option StoryCanvas.Mode) :
  StoryCanvas.select_first_effect story (StoryCanvas.init story initialMode)
  = StoryCanvas.init story initialMode.
Proof.
  unfold StoryCanvas.select_first_effect, StoryCanvas.init.
  destruct (Story.startSceneId story) as [[|c start]|]; simpl;
    try reflexivity;
    destruct (Story.scenes story) as [|[[|c' first] t b cs] rest]; reflexivity.
Qed.

(** C2, amended.  The preview starts at exactly [startSceneId]; when
    that is [null], empty or names no scene, every state of the preview
    on that story renders the cannot-start panel, which exposes no
    choice.  The canvas starts at [startSceneId] when it is a non-empty
    identifier, and then shows no scene if it names none; when it is
    [null] or empty the canvas starts at the first scene of the story if
    there is one, else at [null], and its first-scene effect changes
    nothing after that. *)
Theorem playback_initialization (story : Story.t)
    (initialMode : option StoryCanvas.Mode) :
  StoryPreview.currentSceneId (StoryPreview.init story) = Story.startSceneId story /\
  (Js.truthy_opt (Story.startSceneId story) = false \/
   find_scene (Story.scenes story) (Story.startSceneId story) = None ->
   forall st, StoryPreview.story st = story ->
     StoryPreview.render st = StoryPreview.CannotStart /\
     StoryPreview.exposed (StoryPreview.render st) = []) /\
  (Js.truthy_opt (Story.startSceneId story) = true ->
   StoryCanvas.currentSceneId (StoryCanvas.init story initialMode)
   = Story.startSceneId story /\
   (find_scene (Story.scenes story) (Story.startSceneId story) = None ->
    StoryCanvas.render story (StoryCanvas.init story initialMode) = StoryCanvas.NoScene)) /\
  (Js.truthy_opt (Story.startSceneId story) = false ->
   StoryCanvas.currentSceneId (StoryCanvas.init story initialMode)
   = option_map Scene.id (Js.first_elem (Story.scenes story))) /\
  StoryCanvas.select_first_effect story (StoryCanvas.init story initialMode)
  = StoryCanvas.init story initialMode.
Proof.
  split; [reflexivity|]. split; [|split; [|split]].
  - intros Hbad st Hstory.
    assert (Hview : StoryPreview.render st = StoryPreview.CannotStart).
    { unfold StoryPreview.render, StoryPreview.startScene. rewrite Hstory.
      destruct Hbad as [Hbad|Hbad]; rewrite Hbad; [reflexivity|].
      simpl. rewrite orb_true_r. reflexivity. }
    rewrite Hview. split; reflexivity.
  - intros Hstart. unfold StoryCanvas.init. simpl. rewrite Hstart.
    split; [reflexivity|]. intros Hdangling.
    unfold StoryCanvas.render, StoryCanvas.currentScene. simpl.
    rewrite Hdangling. reflexivity.
  - intros Hstart. unfold StoryCanvas.init. simpl. rewrite Hstart.
    destruct (Story.scenes story); reflexivity.
  - apply canvas_effect_after_init.
Qed.

(** The scenario of the specification, a story without scenes and
    without a start scene, and a story whose start scene was deleted. *)
Lemma playback_initialization_witness :
  StoryPreview.render (StoryPreview.init (Story.make "s" "T" "D" [] None))
  = StoryPreview.CannotStart /\
  StoryCanvas.render (Story.make "s" "T" "D" [] (Some "gone"))
    (StoryCanvas.init (Story.make "s" "T" "D" [] (Some "gone")) None)
  = StoryCanvas.NoScene.
Proof.
  split.
  - destruct (playback_initialization (Story.make "s" "T" "D" [] None) None)
      as (_ & Hpreview & _).
    apply (Hpreview (or_introl eq_refl)
             (StoryPreview.init (Story.make "s" "T" "D" [] None)) eq_refl).
  - destruct (playback_initialization (Story.make "s" "T" "D" [] (Some "gone")) None)
      as (_ & _ & Hcanvas & _).
    apply (Hcanvas eq_refl). reflexivity.
Defined.

(** ** Generation during playback *)


(** The only answer of the route that carries a scene has a non-empty
    title and a non-empty body. *)
Lemma suggest_scene_ok (req : AiRoutes.SuggestSceneRequest)
    (upstream : AiRoutes.Completion) (t b : string) :
  AiRoutes.suggest_scene req upstream = AiRoutes.Ok200 t b ->
  upstream = AiRoutes.Parsed (Some t) (Some b) /\
  Js.truthy t = true /\ Js.truthy b = true.
Proof.
  unfold AiRoutes.suggest_scene.
  destruct (negb (Js.truthy (AiRoutes.storyTitle req))
            || negb (Js.truthy (AiRoutes.storyDescription req))
            || negb (Js.truthy (AiRoutes.currentSceneBody req))); [discriminate|].
  destruct upstream as [message| |message|[t'|] [b'|]]; try discriminate.
  destruct (Js.truthy t') eqn:Ht; simpl; [|discriminate].
  destruct (Js.truthy b') eqn:Hb; simpl; [|discriminate].
  intros H. inversion H. subst. repeat split; assumption.
Qed.




Lemma find_scene_app_fresh (scenes : list Scene.t) (newScene : Scene.t) :
  find_scene scenes (Some (Scene.id newScene)) = None ->
  find_scene (scenes ++ [newScene]) (Some (Scene.id newScene)) = Some newScene.
Proof.
  unfold find_scene. induction scenes as [|s l IH]; simpl.
  - intros _. rewrite String.eqb_refl. reflexivity.
  - destruct (Scene.id s =? Scene.id newScene)%string; [discriminate | exact IH].
Qed.

Lemma find_scene_app_found (scenes extra : list Scene.t) (key : option string)
    (scene : Scene.t) :
  find_scene scenes key = Some scene -> find_scene (scenes ++ extra) key = Some scene.
Proof.
  unfold find_scene. induction scenes as [|s l IH]; simpl; [discriminate|].
  destruct (Js.strict_eq_opt (Scene.id s) key); [trivial | exact IH].
Qed.

(** C10: while a scene is being played, a custom action whose
    generation succeeds appends to the story one scene with the
    generated title and body and with no choice, and makes its
    identifier current.  Once the preview is at that scene, which is
    the case when no earlier scene carries its identifier, it plays it
    with no choice button and with the end-of-story panel. *)
Theorem custom_scene_is_ending
    (fetch : AiRoutes.SuggestSceneRequest -> UseAiApi.Fetched)
    (st : StoryPreview.State) (w : World) (scene : Scene.t) (buttons : list StoryPreview.Button)
    (ending : bool) (result : UseAiApi.SuggestSceneResult) :
  StoryPreview.render st = StoryPreview.Playing scene buttons ending ->
  Js.truthy (Js.trim (StoryPreview.customInput st)) = true ->
  StoryPreview.generate fetch st scene = Some result ->
  let st' := fst (StoryPreview.handleCustomInput fetch st w) in
  let newScene :=
    {| Scene.id := StoryPreview.temp_id (now w (reads w));
       Scene.title := UseAiApi.title result;
       Scene.body := UseAiApi.body result;
       Scene.choices := [] |} in
  Story.scenes (StoryPreview.story st')
  = Story.scenes (StoryPreview.story st) ++ [newScene] /\
  Scene.choices newScene = [] /\
  StoryPreview.currentSceneId st' = Some (Scene.id newScene) /\
  (StoryPreview.currentScene st' = Some newScene ->
   StoryPreview.render st' = StoryPreview.Playing newScene [] true) /\
  (find_scene (Story.scenes (StoryPreview.story st)) (Some (Scene.id newScene)) = None ->
   StoryPreview.currentScene st' = Some newScene).
Proof.
  intros Hplaying Hinput Hresult st' newScene.
  unfold StoryPreview.render in Hplaying.
  destruct (Js.truthy_opt (Story.startSceneId (StoryPreview.story st))) eqn:Hstart;
    [|discriminate].
  destruct (StoryPreview.startScene st) as [start|] eqn:Hfound; [|discriminate].
  simpl in Hplaying.
  destruct (StoryPreview.currentScene st) as [current|] eqn:Hcurrent; [|discriminate].
  inversion Hplaying as [[Hscene Hbuttons Hending]]. subst current.
  assert (Hstep : st' = {| StoryPreview.story :=
                             UseStories.with_scenes (StoryPreview.story st)
                               (Story.scenes (StoryPreview.story st) ++ [newScene]);
                           StoryPreview.currentSceneId := Some (Scene.id newScene);
                           StoryPreview.customInput := EmptyString;
                           StoryPreview.isGenerating := false |}).
  { unfold st', StoryPreview.handleCustomInput.
    rewrite Hcurrent, Hinput, Hresult. reflexivity. }
  rewrite Hstep. split; [reflexivity|]. split; [reflexivity|].
  split; [reflexivity|]. split.
  - intros Hat. unfold StoryPreview.render. rewrite Hat.
    unfold StoryPreview.startScene.
    cbn [StoryPreview.story StoryPreview.isGenerating
         Story.startSceneId Story.scenes UseStories.with_scenes].
    unfold StoryPreview.startScene in Hfound.
    rewrite Hstart, (find_scene_app_found _ _ _ _ Hfound). reflexivity.
  - intros Hfresh. unfold StoryPreview.currentScene.
    cbn [StoryPreview.story StoryPreview.currentSceneId
         Story.scenes UseStories.with_scenes].
    apply (find_scene_app_fresh _ newScene Hfresh).
Qed.

(** The player lights a torch in scene [A]; the model answers with the
    cave scene of the specification. *)
Lemma custom_scene_is_ending_witness :
  let net := UseAiApi.Reachable
               (AiRoutes.Parsed (Some "Cave") (Some "You enter a cave.")) in
  let st := typing_state "light a torch" in
  let cave := {| Scene.id := "temp-1700000000000"; Scene.title := "Cave";
                 Scene.body := "You enter a cave."; Scene.choices := [] |} in
  StoryPreview.render (fst (StoryPreview.handleCustomInput (UseAiApi.wire net) st
                              (sample_world [])))
  = StoryPreview.Playing cave [] true.
Proof.
  intros net st cave.
  destruct (custom_scene_is_ending (UseAiApi.wire net) st (sample_world [])
              (sample_scene "a" "A" [Choice.make "c1" "to B" (Some "b")])
              [{| StoryPreview.choice := Choice.make "c1" "to B" (Some "b");
                  StoryPreview.disabled := false |}] false
              {| UseAiApi.title := "Cave"; UseAiApi.body := "You enter a cave." |}
              eq_refl eq_refl eq_refl)
    as (_ & _ & _ & Hview & Hat).
  apply Hview, Hat. reflexivity.
Defined.

(** ** The scene suggestion of the canvas *)

(** C3: what the scene suggestion does on the story [A, B].  A new
    scene is created with the generated title and body and becomes
    current, and exactly one choice, with the text derived from the new
    title, is appended to the originating scene [A]; but that choice is
    left without a target.  The handler looks for the last choice in
    the story prop of its render, which does not hold the appended
    choice yet: when [A] had no choice nothing is linked and no choice
    of the story leads to the new scene; when [A] had choices, the last
    of the prior ones is redirected to the new scene instead. *)
Theorem ai_suggest_leaves_new_choice_unlinked :
  let run prior :=
    StoryEditorPage.aiSuggest "s" (UseAiApi.wire cave_reply) cave_choices editing_a
      (sample_world [origin_story prior]) in
  let continue := Choice.make "1700000000000-7k3j9x2m1" "Continue to Cave" None in
  let toB := Choice.make "c0" "Go to B" (Some "b") in
  StoryCanvas.currentSceneId (fst (run [])) = Some (Scene.id cave_scene) /\
  stories (snd (run []))
  = [Story.make "s" "T" "D"
       [sample_scene "a" "A" [continue]; sample_scene "b" "B" []; cave_scene]
       (Some "a")] /\
  stories (snd (run [toB]))
  = [Story.make "s" "T" "D"
       [sample_scene "a" "A"
          [Choice.make "c0" "Go to B" (Some (Scene.id cave_scene)); continue];
        sample_scene "b" "B" []; cave_scene]
       (Some "a")].
Proof.
  repeat split.
Qed.

(** *** The appended choice is never the one that is linked *)

Lemma addChoice_prev_ends_with (storyId sceneId : string) (c : Choice.t)
    (prev : list Story.t) :
  ends_with storyId sceneId c (UseStories.addChoice_prev storyId sceneId c prev).
Proof.
  intros story scene Hstory Hid Hscene Hsid.
  unfold UseStories.addChoice_prev in Hstory.
  apply in_map_iff in Hstory. destruct Hstory as (story0 & Hmap & _).
  unfold Js.strict_eq in Hmap.
  destruct (String.eqb_spec (Story.id story0) storyId) as [E|E].
  - subst story. cbn in Hscene.
    apply in_map_iff in Hscene. destruct Hscene as (scene0 & Hmap & _).
    unfold Js.strict_eq in Hmap.
    destruct (String.eqb_spec (Scene.id scene0) sceneId) as [E'|E'].
    + subst scene. exists (Scene.choices scene0). reflexivity.
    + subst scene. contradiction.
  - subst story. contradiction.
Qed.

Lemma updateChoice_prev_ends_with (storyId sceneId choiceId : string)
    (updates : PartialChoice.t) (c : Choice.t) (l : list Story.t) :
  Choice.id c <> choiceId ->
  ends_with storyId sceneId c l ->
  ends_with storyId sceneId c
    (UseStories.updateChoice_prev storyId sceneId choiceId updates l).
Proof.
  intros Hother Hends story scene Hstory Hid Hscene Hsid.
  unfold UseStories.updateChoice_prev in Hstory.
  apply in_map_iff in Hstory. destruct Hstory as (story0 & Hmap & Hstory0).
  unfold Js.strict_eq in Hmap.
  destruct (String.eqb_spec (Story.id story0) storyId) as [E|E].
  - subst story. cbn in Hscene.
    apply in_map_iff in Hscene. destruct Hscene as (scene0 & Hmap & Hscene0).
    unfold Js.strict_eq in Hmap.
    destruct (Hends story0 scene0 Hstory0 E Hscene0) as (before & Hbefore).
    { destruct (String.eqb_spec (Scene.id scene0) sceneId) as [E'|E'];
        subst scene; [exact E' | contradiction]. }
    destruct (String.eqb_spec (Scene.id scene0) sceneId) as [E'|E'].
    + subst scene. cbn. rewrite Hbefore, map_app. cbn.
      apply String.eqb_neq in Hother. unfold Js.strict_eq. rewrite Hother.
      eexists. reflexivity.
    + subst scene. contradiction.
  - subst story. apply (Hends story0 scene); assumption.
Qed.

Lemma bind_run {A B : Type} (m : M A) (k : A -> M B) (w : World) :
  bind m k w = k (fst (m w)) (snd (m w)).
Proof.
  unfold bind. destruct (m w). reflexivity.
Qed.

(** Whatever the story, the current scene and the answers of the
    generator, a scene suggestion that succeeds makes the created scene
    current and leaves, at the end of the originating scene, the choice
    it appended with the derived text and without a target; the only
    exception is a drawn identifier equal to that of the prior last
    choice. *)
Lemma ai_suggest_appended_choice_unlinked (w : World) (storyId currentId : string)
    (fetch : AiRoutes.SuggestSceneRequest -> UseAiApi.Fetched)
    (suggestChoices : string -> option string -> option UseAiApi.SuggestChoicesResult)
    (st : StoryCanvas.State) (story : Story.t) (origin : Scene.t)
    (result : UseAiApi.SuggestSceneResult) :
  fst (UseStories.getStory storyId w) = Some story ->
  StoryCanvas.currentSceneId st = Some currentId ->
  find_scene (Story.scenes story) (Some currentId) = Some origin ->
  StoryCanvas.blank (Scene.body origin) = false ->
  StoryCanvas.blank (Story.title story) = false ->
  StoryCanvas.blank (Story.description story) = false ->
  fst (UseAiApi.suggestScene fetch (Js.trim (Story.title story))
         (Js.trim (Story.description story)) (Js.trim (Scene.body origin)) None)
  = Some result ->
  let after := StoryEditorPage.aiSuggest storyId fetch suggestChoices st w in
  exists newSceneId newChoiceId,
    StoryCanvas.currentSceneId (fst after) = Some newSceneId /\
    ((forall lastChoice, Js.last_elem (Scene.choices origin) = Some lastChoice ->
        Choice.id lastChoice <> newChoiceId) ->
     ends_with (Story.id story) currentId
       {| Choice.id := newChoiceId;
          Choice.text := ("Continue to " ++ UseAiApi.title result)%string;
          Choice.targetSceneId := None |}
       (stories (snd after))).
Proof.
  intros Hstory Hcurrent Horigin Hbody Htitle Hdescription Hresult after.
  unfold after, StoryEditorPage.aiSuggest.
  rewrite bind_run, Hstory. change (snd (UseStories.getStory storyId w)) with w.
  unfold StoryCanvas.handleAiSuggest, StoryCanvas.currentScene.
  rewrite Hcurrent, Horigin, Hbody, Htitle, Hdescription, Hresult.
  rewrite bind_run.
  set (created := StoryEditorPage.onCreateScene story w).
  rewrite bind_run.
  set (w2 := snd (StoryEditorPage.onUpdateScene story (Scene.id (fst created)) _
                    (snd created))).
  rewrite bind_run.
  match goal with
  | |- context [snd (?m w2)] => set (w3 := snd (m w2))
  end.
  rewrite bind_run. unfold StoryEditorPage.onAddChoice at 1 2.
  rewrite !bind_run. unfold ret at 1 3. cbn [fst snd].
  set (added := UseStories.addChoice (Story.id story) currentId
                  (Some ("Continue to " ++ UseAiApi.title result)%string) w3).
  exists (Scene.id (fst created)), (Choice.id (fst added)).
  assert (Hw4 : ends_with (Story.id story) currentId (fst added) (stories (snd added))).
  { unfold added. rewrite addChoice_stories. apply addChoice_prev_ends_with. }
  change {| Choice.id := Choice.id (fst added);
            Choice.text := ("Continue to " ++ UseAiApi.title result)%string;
            Choice.targetSceneId := None |} with (fst added).
  destruct (Js.last_elem (Scene.choices origin)) as [lastChoice|].
  - unfold ret. cbn [fst snd].
    split; [reflexivity|]. intros Hother.
    unfold StoryEditorPage.onUpdateChoice. rewrite updateChoice_stories.
    apply updateChoice_prev_ends_with; [|exact Hw4].
    intros E. apply (Hother lastChoice eq_refl). symmetry. exact E.
  - unfold ret. cbn [fst snd].
    split; [reflexivity|]. intros _. exact Hw4.
Qed.

(** A failed [suggestChoices] call adds nothing of its own: the scene
    suggestion then runs as it does on an empty list of suggested
    choices. *)
Lemma ai_suggest_without_choices (storyId : string)
    (fetch : AiRoutes.SuggestSceneRequest -> UseAiApi.Fetched)
    (st : StoryCanvas.State) (w : World) :
  StoryEditorPage.aiSuggest storyId fetch (fun _ _ => None) st w
  = StoryEditorPage.aiSuggest storyId fetch (fun _ _ => Some []) st w.
Proof.
  reflexivity.
Qed.

(** ** The snapshot round trip *)

Section Texts.

Local Open Scope string_scope.

Lemma append_assoc (a b c : string) : (a ++ b) ++ c = a ++ (b ++ c).
Proof.
  induction a as [|x a IH]; simpl; [reflexivity | rewrite IH; reflexivity].
Qed.

Lemma append_empty (a : string) : a ++ EmptyString = a.
Proof.
  induction a as [|x a IH]; simpl; [reflexivity | rewrite IH; reflexivity].
Qed.

Lemma length_append (a b : string) :
  String.length (a ++ b) = String.length a + String.length b.
Proof.
  induction a as [|x a IH]; simpl; [reflexivity | rewrite IH; reflexivity].
Qed.

End Texts.

(** Reading back one written character: the reader consumes the
    characters written for [c] and continues with what follows. *)
Lemma parse_chars_escape (c : ascii) (rest : string) (fuel : nat) :
  Snapshot.parse_chars (S fuel) (Snapshot.escape_char c ++ rest)
  = match Snapshot.parse_chars fuel rest with
    | Some (str, out) => Some (String c str, out)
    | None => None
    end.
Proof.
  destruct c as [[] [] [] [] [] [] [] []]; reflexivity.
Qed.

Lemma escape_char_length (c : ascii) : 1 <= String.length (Snapshot.escape_char c).
Proof.
  destruct c as [[] [] [] [] [] [] [] []]; simpl; lia.
Qed.

Lemma parse_chars_quote_body (s rest : string) (fuel : nat) :
  String.length (Snapshot.quote_body s) <= fuel ->
  Snapshot.parse_chars fuel (Snapshot.quote_body s ++ rest) = Some (s, rest).
Proof.
  revert fuel. induction s as [|c s IH]; intros fuel Hfuel; simpl in *.
  - destruct fuel as [|fuel]; [lia | reflexivity].
  - rewrite length_append in Hfuel. pose proof (escape_char_length c) as Hc.
    destruct fuel as [|fuel]; [lia|].
    rewrite append_assoc, parse_chars_escape, IH by lia. reflexivity.
Qed.

Lemma stringify_not_closing (j : Snapshot.json) (rest : string) :
  Snapshot.after "]" (Snapshot.stringify j ++ rest)%string = None.
Proof.
  destruct j; reflexivity.
Qed.

Lemma parse_elems_text (items : list Snapshot.json) :
  items <> [] ->
  Forall reads_back items ->
  forall rest fuel,
    String.length (Snapshot.elements_text Snapshot.stringify items) <= fuel ->
    Snapshot.parse_elems fuel
      (Snapshot.elements_text Snapshot.stringify items ++ rest)%string
    = Some (items, rest).
Proof.
  induction items as [|x l IH]; intros Hne Hall rest fuel Hfuel; [contradiction|].
  inversion Hall as [|x' l' Hx Hl]; subst.
  cbn [Snapshot.elements_text] in *. rewrite length_append in Hfuel.
  destruct fuel as [|fuel]; [destruct l; simpl in Hfuel; lia|].
  rewrite append_assoc. cbn [Snapshot.parse_elems].
  destruct l as [|y l].
  - simpl in Hfuel. rewrite Hx by lia. reflexivity.
  - cbn [String.length] in Hfuel. rewrite Hx by lia.
    cbn [append]. change (Ascii.eqb "," "]") with false.
    change (Ascii.eqb "," ",") with true. cbn iota.
    rewrite IH; [reflexivity | discriminate | exact Hl | lia].
Qed.

Lemma parse_members_text (members : list (string * Snapshot.json)) :
  members <> [] ->
  Forall (fun kv => reads_back (snd kv)) members ->
  forall rest fuel,
    String.length (Snapshot.members_text Snapshot.stringify members) <= fuel ->
    Snapshot.parse_members fuel
      (Snapshot.members_text Snapshot.stringify members ++ rest)%string
    = Some (members, rest).
Proof.
  induction members as [|[k v] l IH]; intros Hne Hall rest fuel Hfuel; [contradiction|].
  inversion Hall as [|kv l' Hv Hl]; subst. simpl in Hv.
  cbn [Snapshot.members_text] in *. unfold Snapshot.quote in *.
  rewrite length_append in Hfuel. cbn [String.length] in Hfuel.
  rewrite length_append in Hfuel. cbn [String.length] in Hfuel.
  destruct fuel as [|fuel]; [lia|].
  cbn [Snapshot.parse_members append Snapshot.after].
  change (Ascii.eqb Snapshot.dquote Snapshot.dquote) with true. cbn iota.
  rewrite append_assoc, parse_chars_quote_body by lia.
  cbn [append Snapshot.after]. change (Ascii.eqb ":" ":") with true. cbn iota.
  rewrite append_assoc.
  destruct l as [|kv l].
  - rewrite Hv by lia. reflexivity.
  - cbn [String.length] in Hfuel. rewrite Hv by lia.
    cbn [append]. change (Ascii.eqb "," "}") with false.
    change (Ascii.eqb "," ",") with true. cbn iota.
    rewrite IH; [reflexivity | discriminate | exact Hl | lia].
Qed.

Lemma parse_value_stringify (j : Snapshot.json) : reads_back j.
Proof.
  induction j as [|s|items IH|members IH] using json_nested_ind;
    intros rest fuel Hfuel.
  - simpl in Hfuel. destruct fuel as [|fuel]; [lia | reflexivity].
  - unfold Snapshot.stringify, Snapshot.quote in *. cbn [String.length] in Hfuel.
    destruct fuel as [|fuel]; [lia|].
    cbn [append Snapshot.parse_value].
    change (Ascii.eqb Snapshot.dquote "n") with false.
    change (Ascii.eqb Snapshot.dquote Snapshot.dquote) with true. cbn iota.
    rewrite parse_chars_quote_body by lia. reflexivity.
  - cbn [Snapshot.stringify String.length] in Hfuel.
    destruct fuel as [|fuel]; [lia|].
    cbn [Snapshot.stringify append Snapshot.parse_value].
    change (Ascii.eqb "[" "n") with false.
    change (Ascii.eqb "[" Snapshot.dquote) with false.
    change (Ascii.eqb "[" "[") with true. cbn iota.
    destruct items as [|x l]; [reflexivity|].
    assert (Hopen : Snapshot.after "]"
                      (Snapshot.elements_text Snapshot.stringify (x :: l) ++ rest)%string
                    = None).
    { cbn [Snapshot.elements_text]. rewrite append_assoc.
      apply stringify_not_closing. }
    rewrite Hopen, parse_elems_text; [reflexivity | discriminate | exact IH | lia].
  - cbn [Snapshot.stringify String.length] in Hfuel.
    destruct fuel as [|fuel]; [lia|].
    cbn [Snapshot.stringify append Snapshot.parse_value].
    change (Ascii.eqb "{" "n") with false.
    change (Ascii.eqb "{" Snapshot.dquote) with false.
    change (Ascii.eqb "{" "[") with false.
    change (Ascii.eqb "{" "{") with true. cbn iota.
    destruct members as [|[k v] l]; [reflexivity|].
    assert (Hopen : Snapshot.after "}"
                      (Snapshot.members_text Snapshot.stringify ((k, v) :: l) ++ rest)%string
                    = None) by reflexivity.
    rewrite Hopen, parse_members_text; [reflexivity | discriminate | exact IH | lia].
Qed.

Lemma parse_stringify (j : Snapshot.json) :
  Snapshot.parse (Snapshot.stringify j) = Some j.
Proof.
  unfold Snapshot.parse.
  rewrite <- (append_empty (Snapshot.stringify j)) at 2.
  rewrite parse_value_stringify by lia. reflexivity.
Qed.

Lemma decode_all_map {A : Type} (encode : A -> Snapshot.json)
    (decode : Snapshot.json -> option A) (l : list A) :
  (forall a, decode (encode a) = Some a) ->
  Snapshot.decode_all decode (map encode l) = Some l.
Proof.
  intros Hinv. induction l as [|a l IH]; simpl; [reflexivity|].
  rewrite Hinv, IH. reflexivity.
Qed.

Lemma choice_of_to_json (c : Choice.t) :
  Snapshot.choice_of_json (Snapshot.choice_to_json c) = Some c.
Proof.
  destruct c as [i t [target|]]; reflexivity.
Qed.

Lemma scene_of_to_json (s : Scene.t) :
  Snapshot.scene_of_json (Snapshot.scene_to_json s) = Some s.
Proof.
  destruct s as [i t b cs].
  unfold Snapshot.scene_to_json, Snapshot.scene_of_json.
  cbn -[Snapshot.decode_all Snapshot.choice_of_json Snapshot.choice_to_json].
  rewrite (decode_all_map _ _ cs choice_of_to_json). reflexivity.
Qed.

Lemma story_of_to_json (s : Story.t) :
  Snapshot.story_of_json (Snapshot.story_to_json s) = Some s.
Proof.
  destruct s as [i t d ss [start|]];
    unfold Snapshot.story_to_json, Snapshot.story_of_json;
    cbn -[Snapshot.decode_all Snapshot.scene_of_json Snapshot.scene_to_json];
    rewrite (decode_all_map _ _ ss scene_of_to_json); reflexivity.
Qed.

Lemma stories_of_to_json (l : list Story.t) :
  Snapshot.stories_of_json (Snapshot.stories_to_json l) = Some l.
Proof.
  apply (decode_all_map _ _ l story_of_to_json).
Qed.

(** C6: the snapshot round trip is lossless.  Loading the saved text of
    any collection gives back the collection, every field of every
    story, scene and choice included; this covers the empty collection,
    a story without scenes and a story whose choices link its scenes in
    a cycle (links are identifiers, not references).  The store writes
    the slot through at every mutation, so the slot always loads to the
    collection held in memory. *)
Theorem load_save_round_trip (l : list Story.t) (w : World)
    (f : list Story.t -> list Story.t) :
  Snapshot.load (Snapshot.save l) = l /\
  Snapshot.load_slot (slot (snd (UseStories.setStories f w)))
  = stories (snd (UseStories.setStories f w)).
Proof.
  assert (Hround : forall l', Snapshot.load (Snapshot.save l') = l').
  { intros l'. unfold Snapshot.load, Snapshot.save.
    rewrite parse_stringify, stories_of_to_json. reflexivity. }
  split; [apply Hround|]. simpl. apply Hround.
Qed.

(** The three collections named by the specification. *)
Lemma load_save_round_trip_samples :
  let a := sample_scene "a" "A" [Choice.make "c1" "to B" (Some "b")] in
  let b := sample_scene "b" "B" [Choice.make "c2" "to A" (Some "a")] in
  Snapshot.save [] = "[]" /\
  Snapshot.load "[]" = [] /\
  Snapshot.load (Snapshot.save [Story.make "s" "T" "D" [] None])
  = [Story.make "s" "T" "D" [] None] /\
  Snapshot.load (Snapshot.save [Story.make "s" "T" "D" [a; b] (Some "a")])
  = [Story.make "s" "T" "D" [a; b] (Some "a")] /\
  Snapshot.load "not a snapshot" = [] /\
  Snapshot.load_slot None = [].
Proof.
  repeat split.
Qed.

(** * Further properties of the store *)

Section StoreStepsMore.

Variable w : World.

Lemma createScene_stories (storyId : string) (title : option string) :
  stories (snd (UseStories.createScene storyId title w))
  = UseStories.createScene_prev storyId
      (fst (UseStories.createScene storyId title w)) (stories w).
Proof. reflexivity. Qed.

Lemma createStory_stories (title description : string) :
  stories (snd (UseStories.createStory title description w))
  = stories w ++ [fst (UseStories.createStory title description w)].
Proof. reflexivity. Qed.

Lemma deleteStory_stories (storyId : string) :
  stories (snd (UseStories.deleteStory storyId w))
  = UseStories.deleteStory_prev storyId (stories w).
Proof. reflexivity. Qed.

Lemma getStory_find (storyId : string) :
  fst (UseStories.getStory storyId w)
  = find (fun story => Js.strict_eq (Story.id story) storyId) (stories w).
Proof. reflexivity. Qed.

End StoreStepsMore.

(** X1: [createScene] gives a scene with the given title, or "New
    Scene", an empty body and no choice; in every story named by
    [storyId] the scene sequence keeps its scenes and grows by exactly
    that scene at its end, the other fields of the story are kept, and
    every other story is untouched. *)
Theorem createScene_appends (w : World) (storyId : string) (title : option string) :
  let created := UseStories.createScene storyId title w in
  Scene.title (fst created) = supplied "New Scene" title /\
  Scene.body (fst created) = EmptyString /\
  Scene.choices (fst created) = [] /\
  Forall2
    (fun story story' =>
       Story.id story' = Story.id story /\
       Story.title story' = Story.title story /\
       Story.description story' = Story.description story /\
       Story.startSceneId story' = Story.startSceneId story /\
       (Story.id story = storyId ->
        Story.scenes story' = Story.scenes story ++ [fst created] /\
        length (Story.scenes story') = S (length (Story.scenes story))) /\
       (Story.id story <> storyId -> story' = story))
    (stories w) (stories (snd created)).
Proof.
  intros created. split; [reflexivity|]. split; [reflexivity|]. split; [reflexivity|].
  unfold created. rewrite createScene_stories. unfold UseStories.createScene_prev.
  apply Forall2_map_self. intros story _. unfold Js.strict_eq.
  destruct (String.eqb_spec (Story.id story) storyId) as [E|E]; cbn.
  - repeat (split; [reflexivity|]). split.
    + intros _. split; [reflexivity|]. rewrite length_app. simpl. lia.
    + intros Hne. contradiction.
  - repeat (split; [reflexivity|]). split; [intros Heq; contradiction | reflexivity].
Qed.

Lemma find_app_fresh {A : Type} (p : A -> bool) (l : list A) (x : A) :
  (forall y, In y l -> p y = false) -> p x = true -> find p (l ++ [x]) = Some x.
Proof.
  intros Hl Hx. induction l as [|y l IH]; simpl.
  - rewrite Hx. reflexivity.
  - rewrite (Hl y) by (left; reflexivity). apply IH.
    intros z Hz. apply Hl. right. exact Hz.
Qed.

Lemma find_app_other {A : Type} (p : A -> bool) (l : list A) (x : A) :
  p x = false -> find p (l ++ [x]) = find p l.
Proof.
  intros Hx. induction l as [|y l IH]; simpl.
  - rewrite Hx. reflexivity.
  - destruct (p y); [reflexivity | exact IH].
Qed.

(** X2: [createStory] appends one story with the given title and
    description, no scene and no start scene, after the stories already
    held.  [getStory] then finds it under its identifier when no earlier
    story carries that identifier, and finds what it found before under
    every other identifier. *)
Theorem createStory_then_getStory (w : World) (title description : string) :
  let created := UseStories.createStory title description w in
  stories (snd created) = stories w ++ [fst created] /\
  Story.title (fst created) = title /\
  Story.description (fst created) = description /\
  Story.scenes (fst created) = [] /\
  Story.startSceneId (fst created) = None /\
  ((forall story, In story (stories w) -> Story.id story <> Story.id (fst created)) ->
   fst (UseStories.getStory (Story.id (fst created)) (snd created)) = Some (fst created)) /\
  (forall storyId, storyId <> Story.id (fst created) ->
   fst (UseStories.getStory storyId (snd created)) = fst (UseStories.getStory storyId w)).
Proof.
  intros created. unfold created.
  split; [reflexivity|]. split; [reflexivity|]. split; [reflexivity|].
  split; [reflexivity|]. split; [reflexivity|].
  rewrite !getStory_find. split.
  - intros Hfresh. rewrite createStory_stories. apply find_app_fresh.
    + intros y Hy. apply String.eqb_neq. apply Hfresh. exact Hy.
    + apply String.eqb_refl.
  - intros storyId Hother. rewrite getStory_find, createStory_stories.
    apply find_app_other. apply String.eqb_neq. congruence.
Qed.

Lemma createStory_then_getStory_witness :
  let w := sample_world [Story.make "s" "T" "D" [] None] in
  let created := UseStories.createStory "Second" "Another tale" w in
  fst (UseStories.getStory (Story.id (fst created)) (snd created)) = Some (fst created) /\
  fst (UseStories.getStory "s" (snd created)) = Some (Story.make "s" "T" "D" [] None).
Proof.
  intros w created.
  destruct (createStory_then_getStory w "Second" "Another tale")
    as (_ & _ & _ & _ & _ & Hnew & Hold).
  split.
  - apply Hnew. intros story [Hstory|[]]. subst story. discriminate.
  - unfold created. rewrite (Hold "s"); [reflexivity | discriminate].
Defined.

Lemma find_filter_none {A : Type} (p : A -> bool) (l : list A) :
  find p (filter (fun x => negb (p x)) l) = None.
Proof.
  induction l as [|x l IH]; simpl; [reflexivity|].
  destruct (p x) eqn:Hx; simpl; [exact IH | rewrite Hx; exact IH].
Qed.

Lemma find_filter_other {A : Type} (p q : A -> bool) (l : list A) :
  (forall x, p x = true -> q x = true) ->
  find p (filter q l) = find p l.
Proof.
  intros Hpq. induction l as [|x l IH]; simpl; [reflexivity|].
  destruct (q x) eqn:Hq; simpl.
  - destruct (p x); [reflexivity | exact IH].
  - destruct (p x) eqn:Hp; [|exact IH].
    rewrite (Hpq x Hp) in Hq. discriminate.
Qed.

(** X3: after [deleteStory] no story is found under the deleted
    identifier, whatever the collection held (a missing story, or
    several stories with that identifier); under any other identifier
    [getStory] finds what it found before. *)
Theorem deleteStory_then_getStory (w : World) (storyId : string) :
  let after := snd (UseStories.deleteStory storyId w) in
  fst (UseStories.getStory storyId after) = None /\
  (forall other, other <> storyId ->
   fst (UseStories.getStory other after) = fst (UseStories.getStory other w)) /\
  length (stories after) <= length (stories w).
Proof.
  intros after. unfold after. rewrite !getStory_find, deleteStory_stories.
  unfold UseStories.deleteStory_prev. split; [|split].
  - apply (find_filter_none (fun story => Js.strict_eq (Story.id story) storyId)).
  - intros other Hother. rewrite !getStory_find, deleteStory_stories.
    unfold UseStories.deleteStory_prev. apply find_filter_other.
    intros story Hfound. unfold Js.strict_eq in *.
    apply String.eqb_eq in Hfound. apply negb_true_iff, String.eqb_neq. congruence.
  - apply filter_length_le.
Qed.

Lemma filter_all {A : Type} (q : A -> bool) (l : list A) :
  (forall x, In x l -> q x = true) -> filter q l = l.
Proof.
  induction l as [|x l IH]; intros H; simpl; [reflexivity|].
  rewrite (H x) by (left; reflexivity). f_equal.
  apply IH. intros y Hy. apply H. right. exact Hy.
Qed.

Lemma find_all_false {A : Type} (p : A -> bool) (l : list A) :
  (forall x, In x l -> p x = false) -> find p l = None.
Proof.
  induction l as [|x l IH]; intros H; simpl; [reflexivity|].
  rewrite (H x) by (left; reflexivity).
  apply IH. intros y Hy. apply H. right. exact Hy.
Qed.

(** X4: an operation that names a story identifier carried by no story
    changes nothing in the collection: no error is raised and nothing is
    created in another story, although [createScene] and [addChoice]
    still return the entity they built. *)
Theorem absent_story_is_noop (w : World) (storyId sceneId choiceId : string)
    (title text : option string) (storyPatch : PartialStory.t)
    (scenePatch : PartialScene.t) (choicePatch : PartialChoice.t) :
  (forall story, In story (stories w) -> Story.id story <> storyId) ->
  stories (snd (UseStories.updateStory storyId storyPatch w)) = stories w /\
  stories (snd (UseStories.deleteStory storyId w)) = stories w /\
  stories (snd (UseStories.createScene storyId title w)) = stories w /\
  stories (snd (UseStories.updateScene storyId sceneId scenePatch w)) = stories w /\
  stories (snd (UseStories.deleteScene storyId sceneId w)) = stories w /\
  stories (snd (UseStories.addChoice storyId sceneId text w)) = stories w /\
  stories (snd (UseStories.updateChoice storyId sceneId choiceId choicePatch w)) = stories w /\
  stories (snd (UseStories.deleteChoice storyId sceneId choiceId w)) = stories w /\
  fst (UseStories.getStory storyId w) = None.
Proof.
  intros Habsent.
  assert (Hmap : forall f : Story.t -> Story.t,
             map (fun story =>
                    if Js.strict_eq (Story.id story) storyId then f story else story)
               (stories w) = stories w).
  { intros f. apply map_self. intros story Hstory. unfold Js.strict_eq.
    destruct (String.eqb_spec (Story.id story) storyId) as [E|E]; [|reflexivity].
    exfalso. apply (Habsent story Hstory E). }
  rewrite updateStory_stories, deleteStory_stories, createScene_stories,
    updateScene_stories, deleteScene_stories, addChoice_stories,
    updateChoice_stories, deleteChoice_stories, getStory_find.
  repeat split; try apply Hmap.
  - apply filter_all. intros story Hstory. unfold Js.strict_eq.
    apply negb_true_iff, String.eqb_neq, Habsent, Hstory.
  - apply find_all_false. intros story Hstory. unfold Js.strict_eq.
    apply String.eqb_neq, Habsent, Hstory.
Qed.

Lemma absent_story_is_noop_witness :
  let w := sample_world [Story.make "s" "T" "D" [sample_scene "a" "A" []] (Some "a")] in
  stories (snd (UseStories.createScene "missing" None w)) = stories w /\
  stories (snd (UseStories.deleteScene "missing" "a" w)) = stories w.
Proof.
  intros w.
  destruct (absent_story_is_noop w "missing" "a" "c" None None PartialStory.empty
              PartialScene.empty PartialChoice.empty)
    as (_ & _ & Hcreate & _ & Hdelete & _).
  - intros story [Hstory|[]]. subst story. discriminate.
  - split; [exact Hcreate | exact Hdelete].
Defined.

Lemma filter_twice {A : Type} (q : A -> bool) (l : list A) :
  filter q (filter q l) = filter q l.
Proof.
  apply filter_all. intros x Hx. apply filter_In in Hx. tauto.
Qed.

Lemma map_twice {A : Type} (f : A -> A) (l : list A) :
  (forall x, f (f x) = f x) -> map f (map f l) = map f l.
Proof.
  intros H. rewrite map_map. apply map_ext. exact H.
Qed.

(** X5: the three deletions are idempotent: deleting the same story,
    scene or choice a second time changes nothing. *)
Theorem deletions_idempotent (w : World) (storyId sceneId choiceId : string) :
  stories (snd (UseStories.deleteStory storyId (snd (UseStories.deleteStory storyId w))))
  = stories (snd (UseStories.deleteStory storyId w)) /\
  stories (snd (UseStories.deleteScene storyId sceneId
                  (snd (UseStories.deleteScene storyId sceneId w))))
  = stories (snd (UseStories.deleteScene storyId sceneId w)) /\
  stories (snd (UseStories.deleteChoice storyId sceneId choiceId
                  (snd (UseStories.deleteChoice storyId sceneId choiceId w))))
  = stories (snd (UseStories.deleteChoice storyId sceneId choiceId w)).
Proof.
  rewrite !deleteStory_stories, !deleteScene_stories, !deleteChoice_stories.
  split; [apply filter_twice|]. split.
  - unfold UseStories.deleteScene_prev. apply map_twice. intros story.
    unfold Js.strict_eq.
    destruct (String.eqb_spec (Story.id story) storyId) as [E|E]; cbn.
    + rewrite E, String.eqb_refl. f_equal; [apply filter_twice|].
      destruct (Story.startSceneId story) as [start|]; cbn; [|reflexivity].
      destruct (String.eqb_spec sceneId start) as [E'|E']; cbn; [reflexivity|].
      apply String.eqb_neq in E'. rewrite E'. reflexivity.
    + apply String.eqb_neq in E. rewrite E. reflexivity.
  - unfold UseStories.deleteChoice_prev. apply map_twice. intros story.
    unfold Js.strict_eq.
    destruct (String.eqb_spec (Story.id story) storyId) as [E|E]; cbn.
    + rewrite E, String.eqb_refl. unfold UseStories.with_scenes. cbn. f_equal.
      apply map_twice. intros scene.
      destruct (String.eqb_spec (Scene.id scene) sceneId) as [E'|E']; cbn.
      * rewrite E', String.eqb_refl. unfold UseStories.with_choices. cbn. f_equal.
        apply filter_twice.
      * apply String.eqb_neq in E'. rewrite E'. reflexivity.
    + apply String.eqb_neq in E. rewrite E. reflexivity.
Qed.

Lemma find_scene_map_defined (g : Scene.t -> Scene.t) (scenes : list Scene.t)
    (key : option string) :
  (forall s, Scene.id (g s) = Scene.id s) ->
  Js.defined (find_scene (map g scenes) key) = Js.defined (find_scene scenes key).
Proof.
  intros Hid. unfold find_scene. induction scenes as [|s l IH]; simpl; [reflexivity|].
  rewrite Hid. destruct (Js.strict_eq_opt (Scene.id s) key); [reflexivity | exact IH].
Qed.

Lemma Forall_map_self {A : Type} (P : A -> Prop) (f : A -> A) (l : list A) :
  (forall x, P x -> P (f x)) -> Forall P l -> Forall P (map f l).
Proof.
  intros H Hl. induction Hl as [|x l Hx Hl IH]; simpl; constructor; auto.
Qed.

Lemma start_resolves_same_ids (story : Story.t) (g : Scene.t -> Scene.t) :
  (forall s, Scene.id (g s) = Scene.id s) ->
  start_resolves story = true ->
  start_resolves (UseStories.with_scenes story (map g (Story.scenes story))) = true.
Proof.
  intros Hid. unfold start_resolves.
  cbn [Story.startSceneId Story.scenes UseStories.with_scenes].
  destruct (Story.startSceneId story) as [start|]; [|trivial].
  rewrite find_scene_map_defined by exact Hid. trivial.
Qed.

(** X6: the store never leaves a start scene dangling by its own
    doing.  If in every story the start scene is [null] or names a
    scene of the story, this still holds after [deleteScene] (which
    clears the start when it deletes that scene), [createScene],
    [addChoice], [updateChoice], [deleteChoice] and [deleteStory].
    Whatever held before, after [deleteScene] no story named by
    [storyId] starts at the deleted identifier. *)
Theorem start_scene_stays_resolved (w : World) (storyId sceneId choiceId : string)
    (title text : option string) (choicePatch : PartialChoice.t) :
  (Forall (fun story => start_resolves story = true) (stories w) ->
   Forall (fun story => start_resolves story = true)
     (stories (snd (UseStories.deleteScene storyId sceneId w))) /\
   Forall (fun story => start_resolves story = true)
     (stories (snd (UseStories.createScene storyId title w))) /\
   Forall (fun story => start_resolves story = true)
     (stories (snd (UseStories.addChoice storyId sceneId text w))) /\
   Forall (fun story => start_resolves story = true)
     (stories (snd (UseStories.updateChoice storyId sceneId choiceId choicePatch w))) /\
   Forall (fun story => start_resolves story = true)
     (stories (snd (UseStories.deleteChoice storyId sceneId choiceId w))) /\
   Forall (fun story => start_resolves story = true)
     (stories (snd (UseStories.deleteStory storyId w)))) /\
  Forall (fun story => Story.id story = storyId -> Story.startSceneId story <> Some sceneId)
    (stories (snd (UseStories.deleteScene storyId sceneId w))).
Proof.
  rewrite deleteScene_stories, createScene_stories, addChoice_stories,
    updateChoice_stories, deleteChoice_stories, deleteStory_stories.
  split; [intros Hok; split; [|split; [|split; [|split; [|split]]]]|].
  - unfold UseStories.deleteScene_prev. apply Forall_map_self; [|exact Hok].
    intros story Hstory. destruct (Js.strict_eq (Story.id story) storyId); [|exact Hstory].
    unfold start_resolves in *. cbn.
    destruct (Story.startSceneId story) as [start|]; cbn; [|reflexivity].
    destruct (String.eqb_spec sceneId start) as [E|E]; [reflexivity|].
    unfold find_scene in *. rewrite find_filter_other; [exact Hstory|].
    intros scene Hfound. cbn in Hfound. apply String.eqb_eq in Hfound.
    unfold Js.strict_eq. apply negb_true_iff, String.eqb_neq. congruence.
  - unfold UseStories.createScene_prev. apply Forall_map_self; [|exact Hok].
    intros story Hstory. destruct (Js.strict_eq (Story.id story) storyId); [|exact Hstory].
    unfold start_resolves in *.
    cbn [Story.startSceneId Story.scenes UseStories.with_scenes].
    destruct (Story.startSceneId story) as [start|]; [|reflexivity].
    destruct (find_scene (Story.scenes story) (Some start)) as [found|] eqn:Hfound;
      [|discriminate].
    rewrite (find_scene_app_found _ _ _ _ Hfound). reflexivity.
  - unfold UseStories.addChoice_prev. apply Forall_map_self; [|exact Hok].
    intros story Hstory. destruct (Js.strict_eq (Story.id story) storyId); [|exact Hstory].
    apply start_resolves_same_ids; [|exact Hstory].
    intros s. destruct (Js.strict_eq (Scene.id s) sceneId); reflexivity.
  - unfold UseStories.updateChoice_prev. apply Forall_map_self; [|exact Hok].
    intros story Hstory. destruct (Js.strict_eq (Story.id story) storyId); [|exact Hstory].
    apply start_resolves_same_ids; [|exact Hstory].
    intros s. destruct (Js.strict_eq (Scene.id s) sceneId); reflexivity.
  - unfold UseStories.deleteChoice_prev. apply Forall_map_self; [|exact Hok].
    intros story Hstory. destruct (Js.strict_eq (Story.id story) storyId); [|exact Hstory].
    apply start_resolves_same_ids; [|exact Hstory].
    intros s. destruct (Js.strict_eq (Scene.id s) sceneId); reflexivity.
  - unfold UseStories.deleteStory_prev. apply Forall_forall.
    intros story Hstory. apply filter_In in Hstory.
    rewrite Forall_forall in Hok. apply Hok. tauto.
  - unfold UseStories.deleteScene_prev. apply Forall_forall.
    intros story' Hstory'. apply in_map_iff in Hstory'.
    destruct Hstory' as (story & Hmap & _). unfold Js.strict_eq in Hmap.
    destruct (String.eqb_spec (Story.id story) storyId) as [E|E].
    + subst story'. cbn. intros _.
      destruct (Story.startSceneId story) as [start|]; cbn; [|discriminate].
      destruct (String.eqb_spec sceneId start) as [E'|E']; [discriminate|].
      congruence.
    + subst story'. intros Hid. contradiction.
Qed.

(** Deleting the start scene [A] of the story [A], [B]; and deleting
    the scene [gone] that a story starts at without holding it. *)
Lemma start_scene_stays_resolved_witness :
  let a := sample_scene "a" "A" [Choice.make "c1" "to B" (Some "b")] in
  let b := sample_scene "b" "B" [] in
  let w := sample_world [Story.make "s" "T" "D" [a; b] (Some "a")] in
  let w' := sample_world [Story.make "s" "T" "D" [b] (Some "gone")] in
  Forall (fun story => start_resolves story = true)
    (stories (snd (UseStories.deleteScene "s" "a" w))) /\
  Forall (fun story => Story.id story = "s" -> Story.startSceneId story <> Some "gone")
    (stories (snd (UseStories.deleteScene "s" "gone" w'))).
Proof.
  intros a b w w'. split.
  - apply (start_scene_stays_resolved w "s" "a" "c1" None None PartialChoice.empty).
    repeat constructor.
  - apply (start_scene_stays_resolved w' "s" "gone" "c1" None None PartialChoice.empty).
Defined.

Lemma filter_appended_scene (sceneId : string) (l : list Scene.t) (sc : Scene.t) :
  Scene.id sc = sceneId ->
  (forall x, In x l -> Scene.id x <> sceneId) ->
  filter (fun scene => negb (Js.strict_eq (Scene.id scene) sceneId)) (l ++ [sc]) = l.
Proof.
  intros Hsc Hl. rewrite (filter_other_ids sceneId l [] sc Hsc).
  - apply app_nil_r.
  - rewrite app_nil_r. exact Hl.
Qed.

(** X7: creating and then deleting what was created restores the
    collection.  [createStory] followed by [deleteStory] of the returned
    identifier does when no earlier story carries it; [createScene]
    followed by [deleteScene] of the returned identifier does when, in
    the stories named by [storyId], no earlier scene carries it and the
    start scene is not that identifier. *)
Theorem create_then_delete_restores (w : World) (storyId title description : string)
    (sceneTitle : option string) :
  let story := UseStories.createStory title description w in
  let scene := UseStories.createScene storyId sceneTitle w in
  ((forall s, In s (stories w) -> Story.id s <> Story.id (fst story)) ->
   stories (snd (UseStories.deleteStory (Story.id (fst story)) (snd story))) = stories w) /\
  ((forall s, In s (stories w) -> Story.id s = storyId ->
      Story.startSceneId s <> Some (Scene.id (fst scene)) /\
      forall x, In x (Story.scenes s) -> Scene.id x <> Scene.id (fst scene)) ->
   stories (snd (UseStories.deleteScene storyId (Scene.id (fst scene)) (snd scene)))
   = stories w).
Proof.
  intros story scene. split.
  - intros Hfresh. rewrite deleteStory_stories. unfold story.
    rewrite createStory_stories. unfold UseStories.deleteStory_prev.
    rewrite filter_app. cbn [filter]. unfold Js.strict_eq at 2.
    rewrite String.eqb_refl. cbn. rewrite app_nil_r.
    apply filter_all. intros s Hs. unfold Js.strict_eq.
    apply negb_true_iff, String.eqb_neq, Hfresh, Hs.
  - intros Hfresh. rewrite deleteScene_stories. unfold scene in *.
    rewrite createScene_stories.
    set (newScene := fst (UseStories.createScene storyId sceneTitle w)) in *.
    clearbody newScene.
    unfold UseStories.deleteScene_prev, UseStories.createScene_prev.
    rewrite map_map. apply map_self. intros s Hs. unfold Js.strict_eq.
    destruct (Story.id s =? storyId)%string eqn:Heq; cbn; rewrite Heq; [|reflexivity].
    destruct (Hfresh s Hs (proj1 (String.eqb_eq _ _) Heq)) as [Hstart Hscenes].
    etransitivity; [|apply with_scenes_same]. unfold UseStories.with_scenes.
    f_equal.
    + apply filter_appended_scene; [reflexivity | exact Hscenes].
    + destruct (Story.startSceneId s) as [start|]; cbn; [|reflexivity].
      destruct (String.eqb_spec (Scene.id newScene) start) as [E'|E']; [|reflexivity].
      exfalso. apply Hstart. rewrite E'. reflexivity.
Qed.

Lemma create_then_delete_restores_witness :
  let w := sample_world [Story.make "s" "T" "D" [sample_scene "a" "A" []] (Some "a")] in
  let scene := UseStories.createScene "s" None w in
  stories (snd (UseStories.deleteScene "s" (Scene.id (fst scene)) (snd scene))) = stories w.
Proof.
  intros w scene.
  destruct (create_then_delete_restores w "s" "Second" "Another tale" None) as [_ Hscene].
  apply Hscene. intros s [Hs|[]] _. subst s. split; [discriminate|].
  intros x [Hx|[]]. subst x. discriminate.
Defined.

(** * Linking choices in the two editors *)

Lemma spread_choice_empty (choice : Choice.t) :
  spread_choice choice PartialChoice.empty = choice.
Proof. destruct choice. reflexivity. Qed.

Lemma updateChoice_prev_empty (storyId sceneId choiceId : string) (prev : list Story.t) :
  UseStories.updateChoice_prev storyId sceneId choiceId PartialChoice.empty prev = prev.
Proof.
  unfold UseStories.updateChoice_prev. apply map_self. intros story _.
  destruct (Js.strict_eq (Story.id story) storyId); [|reflexivity].
  etransitivity; [|apply with_scenes_same]. f_equal.
  apply map_self. intros scene _.
  destruct (Js.strict_eq (Scene.id scene) sceneId); [|reflexivity].
  etransitivity; [|apply with_choices_same]. f_equal.
  apply map_self. intros choice _.
  destruct (Js.strict_eq (Choice.id choice) choiceId); [|reflexivity].
  apply spread_choice_empty.
Qed.

(** X8: in the sidebar editor, selecting a target for a choice gives
    that target ([null] for "None / Unlinked") to every choice with
    that identifier in the selected scene of the story, and keeps every
    identifier of the collection; the play button of the choice is then
    enabled exactly when a scene was selected. *)
Theorem scene_editor_links_choice (w : World) (story : Story.t) (selectedScene : Scene.t)
    (choice : Choice.t) (value : string) :
  let after :=
    snd (StoryEditor.selectTarget (StoryEditorPage.onUpdateChoice story)
           selectedScene choice value w) in
  (forall story' scene' choice',
     In story' (stories after) -> Story.id story' = Story.id story ->
     In scene' (Story.scenes story') -> Scene.id scene' = Scene.id selectedScene ->
     In choice' (Scene.choices scene') -> Choice.id choice' = Choice.id choice ->
     Choice.targetSceneId choice' = SceneEditor.or_null value) /\
  choice_ids (stories after) = choice_ids (stories w) /\
  scene_ids (stories after) = scene_ids (stories w) /\
  Js.truthy_opt (SceneEditor.or_null value) = Js.truthy value.
Proof.
  intros after. unfold after, StoryEditor.selectTarget, SceneEditor.selectTarget,
    StoryEditorPage.onUpdateChoice.
  rewrite updateChoice_stories. split; [|split; [|split]].
  - intros story' scene' choice' Hstory Hid Hscene Hsid Hchoice Hcid.
    unfold UseStories.updateChoice_prev in Hstory.
    apply in_map_iff in Hstory. destruct Hstory as (story0 & Hmap & _).
    unfold Js.strict_eq in Hmap.
    destruct (String.eqb_spec (Story.id story0) (Story.id story)) as [E|E];
      subst story'; [|contradiction].
    cbn in Hscene. apply in_map_iff in Hscene. destruct Hscene as (scene0 & Hmap & _).
    destruct (String.eqb_spec (Scene.id scene0) (Scene.id selectedScene)) as [E'|E'];
      subst scene'; [|contradiction].
    cbn in Hchoice. apply in_map_iff in Hchoice.
    destruct Hchoice as (choice0 & Hmap & _).
    destruct (String.eqb_spec (Choice.id choice0) (Choice.id choice)) as [E''|E''];
      subst choice'; [reflexivity | contradiction].
  - apply updateChoice_choice_ids. reflexivity.
  - apply updateChoice_scene_ids.
  - unfold SceneEditor.or_null. destruct value; reflexivity.
Qed.

(** X9: in the canvas, the target selector of a choice changes no
    choice: its patch carries the key [nextSceneId], so the identifier,
    the text and the target of every choice of the collection stay as
    they were, whatever scene is selected. *)
Theorem canvas_selector_changes_no_choice (w : World) (story : Story.t)
    (st : StoryCanvas.State) (choice : Choice.t) (value : string) :
  stories (snd (StoryCanvas.selectTarget (StoryEditorPage.onUpdateChoice story)
                  st choice value w))
  = stories w.
Proof.
  unfold StoryCanvas.selectTarget.
  destruct (StoryCanvas.currentSceneId st) as [currentId|]; [|reflexivity].
  destruct (Js.truthy currentId); [|reflexivity].
  unfold StoryEditorPage.onUpdateChoice. rewrite updateChoice_stories.
  apply updateChoice_prev_empty.
Qed.

(** * The three calls of the AI client, end to end *)

(** X10: [suggestScene] gives a scene exactly when the server is
    reached, the three request fields are non-empty and the model
    answers with a payload whose [title] and [body] are both non-empty;
    the scene it gives carries that title and that body.  The hook then
    holds no error; in every other case it gives [null] and a non-empty
    error message.  Loading is over in both cases. *)
Theorem suggestScene_succeeds_iff (net : UseAiApi.Network)
    (storyTitle storyDescription currentSceneBody : string)
    (storySummary : option string) (result : UseAiApi.SuggestSceneResult) :
  let call := UseAiApi.suggestScene (UseAiApi.wire net)
                storyTitle storyDescription currentSceneBody storySummary in
  (fst call = Some result <->
   net = UseAiApi.Reachable
           (AiRoutes.Parsed (Some (UseAiApi.title result)) (Some (UseAiApi.body result))) /\
   Js.truthy storyTitle = true /\ Js.truthy storyDescription = true /\
   Js.truthy currentSceneBody = true /\
   Js.truthy (UseAiApi.title result) = true /\ Js.truthy (UseAiApi.body result) = true) /\
  (UseAiApi.error (snd call) = None <-> fst call <> None) /\
  (forall message, UseAiApi.error (snd call) = Some message -> Js.truthy message = true) /\
  UseAiApi.loading (snd call) = false.
Proof.
  intros call. unfold call, UseAiApi.suggestScene, UseAiApi.wire, UseAiApi.caught.
  assert (Hor : forall a b, Js.truthy b = true -> Js.truthy (UseAiApi.or_else a b) = true).
  { intros a b Hb. unfold UseAiApi.or_else. destruct (Js.truthy a) eqn:Ha; assumption. }
  destruct net as [message|upstream].
  - cbn. split; [|split; [|split]]; try reflexivity.
    + split; [discriminate | intros [H _]; discriminate].
    + split; [discriminate | intros H; contradiction].
    + intros m Hm. inversion Hm. first [reflexivity | apply Hor; reflexivity].
  - unfold AiRoutes.suggest_scene. cbn [AiRoutes.storyTitle AiRoutes.storyDescription
      AiRoutes.currentSceneBody].
    destruct (Js.truthy storyTitle) eqn:Ht; cbn [negb orb];
      [destruct (Js.truthy storyDescription) eqn:Hd; cbn [negb orb];
        [destruct (Js.truthy currentSceneBody) eqn:Hb; cbn [negb orb]|]|].
    2-4: cbn; (split; [|split; [|split]]); try reflexivity;
      [ split; [discriminate | intros (_ & H1 & H2 & H3 & _); discriminate]
      | split; [discriminate | intros H; contradiction]
      | intros m Hm; inversion Hm; first [reflexivity | apply Hor; reflexivity] ].
    destruct upstream as [message| |message|[t|] [b|]]; cbn;
      try (split; [|split; [|split]]; try reflexivity;
           [ split; [discriminate | intros (H & _); discriminate]
           | split; [discriminate | intros H; contradiction]
           | intros m Hm; inversion Hm; first [reflexivity | apply Hor; reflexivity] ]).
    destruct (Js.truthy t) eqn:Htt; cbn [negb orb];
      [destruct (Js.truthy b) eqn:Hbb; cbn [negb orb]|].
    + cbn. split; [|split; [|split]]; try reflexivity.
      * split.
        -- intros H. inversion H. subst. cbn. repeat split; assumption.
        -- intros (H & _). inversion H. destruct result. reflexivity.
      * split; [intros _; discriminate | reflexivity].
      * discriminate.
    + cbn. split; [|split; [|split]]; try reflexivity.
      * split; [discriminate|]. intros (H & _ & _ & _ & _ & H5).
        inversion H. subst. congruence.
      * split; [discriminate | intros H; contradiction].
      * intros m Hm. inversion Hm. first [reflexivity | apply Hor; reflexivity].
    + cbn. split; [|split; [|split]]; try reflexivity.
      * split; [discriminate|]. intros (H & _ & _ & _ & H4 & _).
        inversion H. subst. congruence.
      * split; [discriminate | intros H; contradiction].
      * intros m Hm. inversion Hm. first [reflexivity | apply Hor; reflexivity].
Qed.

(** X11: [suggestChoices] gives a list of choice texts exactly when the
    server is reached, the scene body of the request is non-empty and
    the payload of the model holds a [choices] array; the array is
    passed on as it is, so an empty list of suggestions is a success. *)
Theorem suggestChoices_succeeds_iff (net : UseAiApi.NetworkAs AiChoicesRoute.Completion)
    (sceneBody : string) (storyContext : option string)
    (result : UseAiApi.SuggestChoicesResult) :
  let call := UseAiApi.suggestChoices (UseAiApi.wire_choices net) sceneBody storyContext in
  (fst call = Some result <->
   net = UseAiApi.ReachableAs (AiChoicesRoute.Parsed (Some result)) /\
   Js.truthy sceneBody = true) /\
  (UseAiApi.error (snd call) = None <-> fst call <> None) /\
  UseAiApi.loading (snd call) = false.
Proof.
  intros call. unfold call, UseAiApi.suggestChoices, UseAiApi.wire_choices,
    UseAiApi.caught_as.
  destruct net as [message|upstream]; cbn.
  - split; [|split]; try reflexivity.
    + split; [discriminate | intros [H _]; discriminate].
    + split; [discriminate | intros H; contradiction].
  - unfold AiChoicesRoute.suggest_choices. cbn [AiChoicesRoute.sceneBody].
    destruct (Js.truthy sceneBody) eqn:Hb; cbn.
    + destruct upstream as [message| |message|[choices|]]; cbn;
        (split; [|split]); try reflexivity;
        try (split; [discriminate | intros [H _]; discriminate]);
        try (split; [discriminate | intros H; contradiction]).
      * split.
        -- intros H. inversion H. split; reflexivity.
        -- intros [H _]. inversion H. reflexivity.
      * split; [intros _; discriminate | reflexivity].
    + split; [|split]; try reflexivity.
      * split; [discriminate | intros [_ H]; discriminate].
      * split; [discriminate | intros H; contradiction].
Qed.

(** X12: [improveText] gives an improved body exactly when the server
    is reached, the scene body of the request is non-empty and the
    payload of the model holds a non-empty [improvedBody]: an
    improvement that reaches the editor is never the empty text. *)
Theorem improveText_succeeds_iff (net : UseAiApi.NetworkAs AiImproveRoute.Completion)
    (sceneBody : string) (result : UseAiApi.ImproveTextResult) :
  let call := UseAiApi.improveText (UseAiApi.wire_improve net) sceneBody in
  (fst call = Some result <->
   net = UseAiApi.ReachableAs (AiImproveRoute.Parsed (Some (UseAiApi.improvedBody result))) /\
   Js.truthy sceneBody = true /\
   Js.truthy (UseAiApi.improvedBody result) = true) /\
  (UseAiApi.error (snd call) = None <-> fst call <> None) /\
  UseAiApi.loading (snd call) = false.
Proof.
  intros call. unfold call, UseAiApi.improveText, UseAiApi.wire_improve,
    UseAiApi.caught_as.
  destruct net as [message|upstream]; cbn.
  - split; [|split]; try reflexivity.
    + split; [discriminate | intros [H _]; discriminate].
    + split; [discriminate | intros H; contradiction].
  - unfold AiImproveRoute.improve_text. cbn [AiImproveRoute.sceneBody].
    destruct (Js.truthy sceneBody) eqn:Hb; cbn.
    + destruct upstream as [message| |message|[improved|]]; cbn;
        try ((split; [|split]); try reflexivity;
             [ split; [discriminate | intros [H _]; discriminate]
             | split; [discriminate | intros H; contradiction] ]).
      destruct (Js.truthy improved) eqn:Hi; cbn; (split; [|split]); try reflexivity.
      * split.
        -- intros H. inversion H. cbn. repeat split; assumption.
        -- intros (H & _). inversion H. destruct result. reflexivity.
      * split; [intros _; discriminate | reflexivity].
      * split; [discriminate|]. intros (H & _ & H2). inversion H. subst. congruence.
      * split; [discriminate | intros H; contradiction].
    + split; [|split]; try reflexivity.
      * split; [discriminate | intros (_ & H & _); discriminate].
      * split; [discriminate | intros H; contradiction].
Qed.

(** * Walking the story in the two players *)

(** X13: in the preview, a click on an enabled choice button whose
    target names a scene makes the first scene with that identifier
    current: the preview plays it, offers exactly its choices, each one
    enabled when it has a target, and shows the end-of-story panel
    exactly when it has no choice.  The story is not modified and the
    typed action is cleared. *)
Theorem preview_follows_linked_choice (st : StoryPreview.State) (scene next : Scene.t)
    (buttons : list StoryPreview.Button) (ending : bool) (b : StoryPreview.Button) :
  StoryPreview.render st = StoryPreview.Playing scene buttons ending ->
  In b buttons ->
  StoryPreview.disabled b = false ->
  find_scene (Story.scenes (StoryPreview.story st))
    (Choice.targetSceneId (StoryPreview.choice b)) = Some next ->
  let st' := StoryPreview.click b st in
  StoryPreview.render st'
  = StoryPreview.Playing next
      (map (fun c => {| StoryPreview.choice := c;
                        StoryPreview.disabled :=
                          negb (Js.truthy_opt (Choice.targetSceneId c)) |})
         (Scene.choices next))
      (length (Scene.choices next) =? 0) /\
  StoryPreview.exposed (StoryPreview.render st') = Scene.choices next /\
  StoryPreview.story st' = StoryPreview.story st /\
  StoryPreview.customInput st' = EmptyString.
Proof.
  intros Hplaying Hin Henabled Hnext st'.
  unfold StoryPreview.render in Hplaying.
  destruct (negb (Js.truthy_opt (Story.startSceneId (StoryPreview.story st)))
            || negb (Js.defined (StoryPreview.startScene st))) eqn:Hstart;
    [discriminate|].
  destruct (StoryPreview.currentScene st) as [current|]; [|discriminate].
  inversion Hplaying as [[Hscene Hbuttons Hending]]. subst current.
  rewrite <- Hbuttons in Hin. apply in_map_iff in Hin.
  destruct Hin as (c & Hb & _). subst b. cbn in Henabled, Hnext.
  apply orb_false_iff in Henabled. destruct Henabled as [Hlinked Hidle].
  apply negb_false_iff in Hlinked.
  assert (Hstep : st' = {| StoryPreview.story := StoryPreview.story st;
                           StoryPreview.currentSceneId := Choice.targetSceneId c;
                           StoryPreview.customInput := EmptyString;
                           StoryPreview.isGenerating := StoryPreview.isGenerating st |}).
  { unfold st', StoryPreview.click, StoryPreview.handleChoice. cbn.
    rewrite ?Hlinked, ?Hidle. cbn. rewrite ?Hlinked. reflexivity. }
  assert (Hview : StoryPreview.render st'
                  = StoryPreview.Playing next
                      (map (fun c => {| StoryPreview.choice := c;
                                        StoryPreview.disabled :=
                                          negb (Js.truthy_opt (Choice.targetSceneId c)) |})
                         (Scene.choices next))
                      (length (Scene.choices next) =? 0)).
  { rewrite Hstep. unfold StoryPreview.render, StoryPreview.startScene,
      StoryPreview.currentScene in *.
    cbn [StoryPreview.story StoryPreview.currentSceneId StoryPreview.isGenerating].
    rewrite Hstart, Hnext, Hidle. f_equal. apply map_ext. intros c'.
    rewrite orb_false_r. reflexivity. }
  split; [exact Hview|]. split.
  - rewrite Hview. cbn. rewrite map_map. cbn. apply map_id.
  - rewrite Hstep. split; reflexivity.
Qed.

(** The scenario of the specification: scene [A] has one choice to
    scene [B], which has none; selecting it ends the story at [B]. *)
Lemma preview_follows_linked_choice_witness :
  let toB := Choice.make "c1" "to B" (Some "b") in
  let st := typing_state EmptyString in
  StoryPreview.render
    (StoryPreview.click {| StoryPreview.choice := toB; StoryPreview.disabled := false |} st)
  = StoryPreview.Playing (sample_scene "b" "B" []) [] true.
Proof.
  intros toB st.
  destruct (preview_follows_linked_choice st
              (sample_scene "a" "A" [toB]) (sample_scene "b" "B" [])
              [{| StoryPreview.choice := toB; StoryPreview.disabled := false |}] false
              {| StoryPreview.choice := toB; StoryPreview.disabled := false |}
              eq_refl (or_introl eq_refl) eq_refl eq_refl) as [Hview _].
  exact Hview.
Defined.

(** X14: Restart brings the preview back to the start scene from every
    state that is not the cannot-start panel, the scene-not-found panel
    included; it keeps the story, with the scenes generated in the
    session, and clears the typed action. *)
Theorem restart_recovers_start (st : StoryPreview.State) :
  StoryPreview.render st <> StoryPreview.CannotStart ->
  exists start,
    StoryPreview.startScene st = Some start /\
    StoryPreview.render (StoryPreview.handleRestart st)
    = StoryPreview.Playing start
        (map (fun c => {| StoryPreview.choice := c;
                          StoryPreview.disabled :=
                            negb (Js.truthy_opt (Choice.targetSceneId c))
                            || StoryPreview.isGenerating st |})
           (Scene.choices start))
        (length (Scene.choices start) =? 0) /\
    StoryPreview.currentSceneId (StoryPreview.handleRestart st)
    = Story.startSceneId (StoryPreview.story st) /\
    StoryPreview.story (StoryPreview.handleRestart st) = StoryPreview.story st /\
    StoryPreview.customInput (StoryPreview.handleRestart st) = EmptyString.
Proof.
  intros Hstarted. unfold StoryPreview.render in *.
  destruct (Js.truthy_opt (Story.startSceneId (StoryPreview.story st))) eqn:Hstart;
    [|contradiction Hstarted; reflexivity].
  destruct (StoryPreview.startScene st) as [start|] eqn:Hfound;
    [|contradiction Hstarted; reflexivity].
  exists start. split; [reflexivity|]. split; [|repeat split].
  unfold StoryPreview.startScene, StoryPreview.currentScene, StoryPreview.handleRestart in *.
  cbn [StoryPreview.story StoryPreview.currentSceneId StoryPreview.isGenerating].
  rewrite Hstart, Hfound. reflexivity.
Qed.

(** After the dangling choice of the sample story, Restart plays scene
    [A] again. *)
Lemma restart_recovers_start_witness :
  let lost := StoryPreview.handleChoice (Some "gone") (StoryPreview.init dangling_story) in
  StoryPreview.render lost = StoryPreview.SceneNotFound /\
  exists start,
    StoryPreview.startScene lost = Some start /\
    StoryPreview.currentSceneId (StoryPreview.handleRestart lost) = Some "a".
Proof.
  intros lost. split; [reflexivity|].
  destruct (restart_recovers_start lost) as (start & Hstart & _ & Hcurrent & _).
  - discriminate.
  - exists start. split; [exact Hstart | exact Hcurrent].
Defined.








(** X16: in the canvas, the first-scene effect leaves a non-empty
    selection alone, even one that names no scene; with an empty
    selection and at least one scene it selects the first scene of the
    story, which then is the current scene; it never changes the mode,
    and running it again changes nothing. *)
Theorem first_scene_effect (story : Story.t) (st : StoryCanvas.State) :
  let st' := StoryCanvas.select_first_effect story st in
  (Js.truthy_opt (StoryCanvas.currentSceneId st) = true -> st' = st) /\
  (Story.scenes story = [] -> st' = st) /\
  (Js.truthy_opt (StoryCanvas.currentSceneId st) = false ->
   forall first rest, Story.scenes story = first :: rest ->
     StoryCanvas.currentSceneId st' = Some (Scene.id first) /\
     StoryCanvas.currentScene story st' = Some first) /\
  StoryCanvas.mode st' = StoryCanvas.mode st /\
  StoryCanvas.select_first_effect story st' = st'.
Proof.
  intros st'. unfold st', StoryCanvas.select_first_effect.
  destruct (Js.truthy_opt (StoryCanvas.currentSceneId st)) eqn:Hcurrent; cbn [negb andb].
  - split; [reflexivity|]. split; [reflexivity|]. split; [discriminate|].
    split; [reflexivity|]. rewrite Hcurrent. reflexivity.
  - destruct (Story.scenes story) as [|first rest] eqn:Hscenes; cbn.
    + split; [reflexivity|]. split; [reflexivity|].
      split; [intros _ first rest H; discriminate|].
      split; [reflexivity|]. rewrite ?Hcurrent, ?Hscenes. reflexivity.
    + split; [discriminate|]. split; [discriminate|]. split; [|split; [reflexivity|]].
      * intros _ first' rest' Heq. inversion Heq. subst.
        split; [reflexivity|].
        unfold StoryCanvas.currentScene, find_scene. cbn. rewrite ?Hscenes. cbn.
        rewrite String.eqb_refl. reflexivity.
      * rewrite ?Hscenes. cbn.
        destruct (Js.truthy (Scene.id first)); reflexivity.
Qed.

(** X17: in the canvas in play mode, a click on an enabled choice
    button whose target names a scene makes the first scene with that
    identifier current and shows it with exactly its choices; the mode
    is kept. *)
Theorem canvas_follows_linked_choice (story : Story.t) (st : StoryCanvas.State)
    (scene next : Scene.t) (buttons : list StoryCanvas.Button) (b : StoryCanvas.Button) :
  StoryCanvas.render story st = StoryCanvas.PlayView scene buttons ->
  In b buttons ->
  StoryCanvas.disabled b = false ->
  find_scene (Story.scenes story) (Choice.targetSceneId (StoryCanvas.choice b))
  = Some next ->
  let st' := StoryCanvas.click b st in
  StoryCanvas.currentSceneId st' = Choice.targetSceneId (StoryCanvas.choice b) /\
  StoryCanvas.render story st'
  = StoryCanvas.PlayView next
      (map (fun c => {| StoryCanvas.choice := c;
                        StoryCanvas.disabled :=
                          negb (Js.truthy_opt (Choice.targetSceneId c)) |})
         (Scene.choices next)) /\
  StoryCanvas.exposed (StoryCanvas.render story st') = Scene.choices next /\
  StoryCanvas.select_first_effect story st' = st'.
Proof.
  intros Hview Hin Henabled Hnext st'.
  unfold StoryCanvas.render in Hview.
  destruct (StoryCanvas.currentScene story st) as [current|]; [|discriminate].
  destruct (StoryCanvas.mode st) eqn:Hmode; [|discriminate].
  inversion Hview as [[Hscene Hbuttons]]. subst current.
  rewrite <- Hbuttons in Hin. apply in_map_iff in Hin.
  destruct Hin as (c & Hb & _). subst b. cbn in Henabled, Hnext |- *.
  apply negb_false_iff in Henabled.
  assert (Hstep : st' = {| StoryCanvas.mode := StoryCanvas.play;
                           StoryCanvas.currentSceneId := Choice.targetSceneId c |}).
  { unfold st', StoryCanvas.click, StoryCanvas.handleChoice. cbn.
    rewrite ?Henabled. cbn. rewrite ?Henabled, ?Hmode. reflexivity. }
  rewrite Hstep. split; [reflexivity|].
  assert (Hrender : StoryCanvas.render story
                      {| StoryCanvas.mode := StoryCanvas.play;
                         StoryCanvas.currentSceneId := Choice.targetSceneId c |}
                    = StoryCanvas.PlayView next
                        (map (fun c => {| StoryCanvas.choice := c;
                                          StoryCanvas.disabled :=
                                            negb (Js.truthy_opt (Choice.targetSceneId c)) |})
                           (Scene.choices next))).
  { unfold StoryCanvas.render, StoryCanvas.currentScene.
    cbn [StoryCanvas.currentSceneId StoryCanvas.mode]. rewrite Hnext. reflexivity. }
  split; [exact Hrender|]. split.
  - rewrite Hrender. cbn. rewrite map_map. cbn. apply map_id.
  - unfold StoryCanvas.select_first_effect. cbn. rewrite Henabled. reflexivity.
Qed.

Lemma canvas_follows_linked_choice_witness :
  let toB := Choice.make "c1" "to B" (Some "b") in
  let story := StoryPreview.story (typing_state EmptyString) in
  let st := StoryCanvas.init story None in
  StoryCanvas.render story
    (StoryCanvas.click {| StoryCanvas.choice := toB; StoryCanvas.disabled := false |} st)
  = StoryCanvas.PlayView (sample_scene "b" "B" []) [].
Proof.
  intros toB story st.
  destruct (canvas_follows_linked_choice story st
              (sample_scene "a" "A" [toB]) (sample_scene "b" "B" [])
              [{| StoryCanvas.choice := toB; StoryCanvas.disabled := false |}]
              {| StoryCanvas.choice := toB; StoryCanvas.disabled := false |}
              eq_refl (or_introl eq_refl) eq_refl eq_refl) as (_ & Hview & _).
  exact Hview.
Defined.

(** * The scene suggestion and the other stories *)

Lemma others_untouched_refl (storyId : string) (l : list Story.t) :
  others_untouched storyId l l.
Proof.
  induction l; constructor; [split; reflexivity | assumption].
Qed.

Lemma others_untouched_trans (storyId : string) (l1 l2 l3 : list Story.t) :
  others_untouched storyId l1 l2 -> others_untouched storyId l2 l3 ->
  others_untouched storyId l1 l3.
Proof.
  intros H12. revert l3. induction H12 as [|a b l1 l2 [Hid Hab] _ IH]; intros l3 H23.
  - exact H23.
  - inversion H23 as [|b' c l2' l3' [Hid' Hbc] Hrest]; subst. constructor.
    + split; [congruence|]. intros Hne. rewrite Hbc by congruence. apply Hab, Hne.
    + apply IH, Hrest.
Qed.

Lemma others_untouched_map (storyId : string) (f : Story.t -> Story.t) (l : list Story.t) :
  (forall story, Story.id (f story) = Story.id story) ->
  others_untouched storyId l
    (map (fun story => if Js.strict_eq (Story.id story) storyId then f story else story) l).
Proof.
  intros Hid. apply Forall2_map_self. intros story _. unfold Js.strict_eq.
  destruct (String.eqb_spec (Story.id story) storyId) as [E|E].
  - split; [apply Hid | intros Hne; contradiction].
  - split; reflexivity.
Qed.

Lemma frames_ret {A : Type} (storyId : string) (a : A) : frames storyId (ret a).
Proof. intros w. apply others_untouched_refl. Qed.

Lemma frames_bind {A B : Type} (storyId : string) (m : M A) (k : A -> M B) :
  frames storyId m -> (forall a, frames storyId (k a)) -> frames storyId (bind m k).
Proof.
  intros Hm Hk w. rewrite bind_run.
  apply (others_untouched_trans _ _ (stories (snd (m w)))); [apply Hm | apply Hk].
Qed.

Lemma frames_forEach {A : Type} (storyId : string) (f : A -> M unit) (l : list A) :
  (forall a, frames storyId (f a)) -> frames storyId (forEach f l).
Proof.
  intros Hf. induction l as [|x l IH]; cbn [forEach].
  - apply frames_ret.
  - apply frames_bind; [apply Hf | intros _; exact IH].
Qed.

Lemma frames_generateId (storyId : string) : frames storyId UseStories.generateId.
Proof. intros w. apply others_untouched_refl. Qed.

Lemma frames_setStories_map (storyId : string) (f : Story.t -> Story.t) :
  (forall story, Story.id (f story) = Story.id story) ->
  frames storyId
    (UseStories.setStories
       (map (fun story => if Js.strict_eq (Story.id story) storyId then f story else story))).
Proof.
  intros Hid w. rewrite setStories_stories. apply others_untouched_map, Hid.
Qed.

Lemma frames_createScene (storyId : string) (title : option string) :
  frames storyId (UseStories.createScene storyId title).
Proof.
  unfold UseStories.createScene. apply frames_bind; [apply frames_generateId|].
  intros newId. apply frames_bind; [|intros _; apply frames_ret].
  apply (frames_setStories_map storyId
           (fun story => UseStories.with_scenes story (Story.scenes story ++ [_]))).
  reflexivity.
Qed.

Lemma frames_updateScene (storyId sceneId : string) (updates : PartialScene.t) :
  frames storyId (UseStories.updateScene storyId sceneId updates).
Proof.
  apply (frames_setStories_map storyId (fun story => UseStories.with_scenes story _)).
  reflexivity.
Qed.

Lemma frames_addChoice (storyId sceneId : string) (text : option string) :
  frames storyId (UseStories.addChoice storyId sceneId text).
Proof.
  unfold UseStories.addChoice. apply frames_bind; [apply frames_generateId|].
  intros newId. apply frames_bind; [|intros _; apply frames_ret].
  apply (frames_setStories_map storyId (fun story => UseStories.with_scenes story _)).
  reflexivity.
Qed.

Lemma frames_updateChoice (storyId sceneId choiceId : string) (updates : PartialChoice.t) :
  frames storyId (UseStories.updateChoice storyId sceneId choiceId updates).
Proof.
  apply (frames_setStories_map storyId (fun story => UseStories.with_scenes story _)).
  reflexivity.
Qed.

(** X18: the scene suggestion of the canvas touches no other story.
    Whatever the generator answers and whatever the canvas state is,
    the collection keeps its length and the identifier of every story,
    and every story that is not the one being edited is exactly as it
    was. *)
Theorem ai_suggest_touches_one_story (storyId : string)
    (fetch : AiRoutes.SuggestSceneRequest -> UseAiApi.Fetched)
    (suggestChoices : string -> option string -> option UseAiApi.SuggestChoicesResult)
    (st : StoryCanvas.State) (w : World) :
  let after := snd (StoryEditorPage.aiSuggest storyId fetch suggestChoices st w) in
  others_untouched storyId (stories w) (stories after) /\
  length (stories after) = length (stories w) /\
  story_ids (stories after) = story_ids (stories w).
Proof.
  assert (Hhandle : forall story,
             frames (Story.id story)
               (StoryCanvas.handleAiSuggest (StoryEditorPage.onCreateScene story)
                  (StoryEditorPage.onUpdateScene story) (StoryEditorPage.onAddChoice story)
                  (StoryEditorPage.onUpdateChoice story) fetch suggestChoices story st)).
  { intros story.
    unfold StoryCanvas.handleAiSuggest, StoryEditorPage.onCreateScene,
      StoryEditorPage.onUpdateScene, StoryEditorPage.onAddChoice,
      StoryEditorPage.onUpdateChoice.
    destruct (StoryCanvas.currentSceneId st) as [currentId|]; [|apply frames_ret].
    destruct (StoryCanvas.currentScene story st) as [scene|]; [|apply frames_ret].
    destruct (StoryCanvas.blank (Scene.body scene)); [apply frames_ret|].
    destruct (StoryCanvas.blank (Story.title story)); [apply frames_ret|].
    destruct (StoryCanvas.blank (Story.description story)); [apply frames_ret|].
    destruct (fst (UseAiApi.suggestScene _ _ _ _ _)) as [result|]; [|apply frames_ret].
    apply frames_bind; [apply frames_createScene|]. intros newScene.
    apply frames_bind; [apply frames_updateScene|]. intros _.
    apply frames_bind.
    { destruct (suggestChoices _ _) as [suggested|]; [|apply frames_ret].
      apply frames_forEach. intros c.
      apply frames_bind; [apply frames_addChoice | intros _; apply frames_ret]. }
    intros _. apply frames_bind.
    { apply frames_bind; [apply frames_addChoice | intros _; apply frames_ret]. }
    intros _. apply frames_bind; [|intros _; apply frames_ret].
    destruct (find_scene _ _) as [origin|]; [|apply frames_ret].
    destruct (Js.last_elem _) as [lastChoice|]; [|apply frames_ret].
    apply frames_updateChoice. }
  assert (Hframe : others_untouched storyId (stories w)
            (stories (snd (StoryEditorPage.aiSuggest storyId fetch suggestChoices st w)))).
  { unfold StoryEditorPage.aiSuggest. rewrite bind_run.
    change (snd (UseStories.getStory storyId w)) with w.
    rewrite getStory_find.
    destruct (find _ (stories w)) as [story|] eqn:Hfound;
      [|apply others_untouched_refl].
    apply find_some in Hfound. destruct Hfound as [_ Hid].
    apply String.eqb_eq in Hid. subst storyId. apply Hhandle. }
  intros after. fold after in Hframe.
  split; [exact Hframe|].
  unfold others_untouched in Hframe. revert Hframe.
  generalize (stories after) as l'. generalize (stories w) as l.
  intros l l' H. induction H as [|a b l l' [Hid _] _ [IH1 IH2]]; [split; reflexivity|].
  unfold story_ids in *. cbn. split; congruence.
Qed.

(** * The selection of the editor and the home page *)

Lemma find_map_same_test {A : Type} (p : A -> bool) (f : A -> A) (l : list A) :
  (forall x, p (f x) = p x) ->
  find p (map f l) = option_map f (find p l).
Proof.
  intros Hp. induction l as [|x l IH]; [reflexivity|].
  cbn [map find]. rewrite Hp. destruct (p x); [reflexivity | exact IH].
Qed.

Lemma find_scene_filter_other (scenes : list Scene.t) (sceneId selected : string) :
  selected <> sceneId ->
  find_scene (filter (fun s => negb (Js.strict_eq (Scene.id s) sceneId)) scenes)
    (Some selected)
  = find_scene scenes (Some selected).
Proof.
  intros Hne. unfold find_scene, Js.strict_eq_opt, Js.strict_eq.
  induction scenes as [|s scenes IH]; [reflexivity|].
  cbn [filter find].
  destruct (String.eqb_spec (Scene.id s) sceneId) as [E|E]; cbn [negb].
  - destruct (String.eqb_spec (Scene.id s) selected) as [E'|E']; [congruence | exact IH].
  - cbn [find]. destruct (String.eqb (Scene.id s) selected); [reflexivity | exact IH].
Qed.

(** X19: deleting a scene in the editor leaves a usable selection.
    When the story shown is the stored one and the selection, if any,
    names one of its scenes, then after [handleDeleteScene] the
    selection never names the deleted scene, it is unchanged when another
    scene was deleted, and it is null or names a scene of the story as
    stored after the deletion. *)
Theorem delete_scene_keeps_selection_valid (w : World) (story : Story.t)
    (selectedSceneId : option string) (sceneId : string)
    (Hstored : fst (UseStories.getStory (Story.id story) w) = Some story)
    (Hselected : forall selected, selectedSceneId = Some selected ->
                   Js.defined (find_scene (Story.scenes story) (Some selected)) = true) :
  let after :=
    StoryEditor.handleDeleteScene (StoryEditorPage.onDeleteScene story) story
      selectedSceneId sceneId w in
  fst after <> Some sceneId /\
  (selectedSceneId <> Some sceneId -> fst after = selectedSceneId) /\
  exists story',
    fst (UseStories.getStory (Story.id story) (snd after)) = Some story' /\
    (fst after = None \/ Js.defined (find_scene (Story.scenes story') (fst after)) = true).
Proof.
  intros after.
  assert (Hworld : stories (snd after)
                   = UseStories.deleteScene_prev (Story.id story) sceneId (stories w)).
  { unfold after, StoryEditor.handleDeleteScene, StoryEditorPage.onDeleteScene.
    rewrite bind_run.
    destruct (Js.strict_eq_opt sceneId selectedSceneId); cbn [ret snd];
      apply deleteScene_stories. }
  assert (Hfst : fst after =
                 if Js.strict_eq_opt sceneId selectedSceneId
                 then StoryEditor.first_id_or_null
                        (filter (fun s => negb (Js.strict_eq (Scene.id s) sceneId))
                           (Story.scenes story))
                 else selectedSceneId).
  { unfold after, StoryEditor.handleDeleteScene. rewrite bind_run.
    destruct (Js.strict_eq_opt sceneId selectedSceneId); reflexivity. }
  rewrite getStory_find in Hstored. rewrite getStory_find, Hworld.
  unfold UseStories.deleteScene_prev.
  rewrite (find_map_same_test (fun s => Js.strict_eq (Story.id s) (Story.id story))).
  2:{ intros x. destruct (Js.strict_eq (Story.id x) (Story.id story)) eqn:E;
        [cbn [Story.id]; exact E | exact E]. }
  rewrite Hstored. cbn [option_map].
  unfold Js.strict_eq at 1. rewrite String.eqb_refl.
  rewrite Hfst. clear Hfst Hworld after.
  set (remaining := filter (fun s => negb (Js.strict_eq (Scene.id s) sceneId))
                      (Story.scenes story)).
  assert (Hfirst : forall first rest, remaining = first :: rest ->
                     Scene.id first <> sceneId).
  { intros first rest Hrem.
    assert (Hin : In first remaining) by (rewrite Hrem; left; reflexivity).
    apply filter_In in Hin. destruct Hin as [_ Hkeep].
    unfold Js.strict_eq in Hkeep.
    destruct (String.eqb_spec (Scene.id first) sceneId); [discriminate | assumption]. }
  destruct selectedSceneId as [selected|]; cbn [Js.strict_eq_opt].
  - destruct (String.eqb_spec sceneId selected) as [E|E].
    + subst selected. split; [|split].
      * unfold StoryEditor.first_id_or_null, SceneEditor.or_null.
        destruct remaining as [|first rest] eqn:Hrem; cbn [Js.first_elem]; [discriminate|].
        destruct (Js.truthy (Scene.id first)); [|discriminate].
        intros Heq. injection Heq as Heq. exact (Hfirst first rest eq_refl Heq).
      * intros Hne. contradiction.
      * eexists. split; [reflexivity|]. cbn [Story.scenes]. fold remaining.
        unfold StoryEditor.first_id_or_null, SceneEditor.or_null.
        destruct remaining as [|first rest]; cbn [Js.first_elem]; [left; reflexivity|].
        destruct (Js.truthy (Scene.id first)); [|left; reflexivity].
        right. unfold find_scene. cbn [find Js.strict_eq_opt].
        rewrite String.eqb_refl. reflexivity.
    + split; [|split].
      * intros Heq. injection Heq as Heq. congruence.
      * reflexivity.
      * eexists. split; [reflexivity|]. right. cbn [Story.scenes]. unfold remaining.
        rewrite find_scene_filter_other by congruence.
        apply Hselected. reflexivity.
  - split; [discriminate|]. split; [reflexivity|].
    eexists. split; [reflexivity|]. left. reflexivity.
Qed.

(** On the story [A], [B] with [A] selected: deleting [A] selects
    [B]. *)
Lemma delete_scene_keeps_selection_valid_witness :
  let story := origin_story [] in
  let after :=
    StoryEditor.handleDeleteScene (StoryEditorPage.onDeleteScene story) story
      (Some "a") "a" (sample_world [story]) in
  fst after = Some "b" /\
  fst after <> Some "a" /\
  (Some "a" <> Some "a" -> fst after = Some "a") /\
  exists story',
    fst (UseStories.getStory (Story.id story) (snd after)) = Some story' /\
    (fst after = None \/ Js.defined (find_scene (Story.scenes story') (fst after)) = true).
Proof.
  intros story after. split; [reflexivity|].
  apply (delete_scene_keeps_selection_valid (sample_world [story]) story (Some "a") "a").
  - reflexivity.
  - intros selected Hsel. injection Hsel as Hsel. subst selected. reflexivity.
Defined.

Lemma trim_start_head (s : string) :
  match Js.trim_start s with
  | EmptyString => True
  | String c _ => Js.is_space c = false
  end.
Proof.
  induction s as [|c s IH]; cbn [Js.trim_start]; [exact I|].
  destruct (Js.is_space c) eqn:E; [exact IH | exact E].
Qed.

Lemma trim_end_head (c : ascii) (s : string) :
  Js.is_space c = false ->
  exists kept, Js.trim_end (String c s) = String c kept.
Proof.
  intros Hc. cbn [Js.trim_end]. destruct (Js.trim_end s) as [|c' kept].
  - rewrite Hc. eexists. reflexivity.
  - eexists. reflexivity.
Qed.

Lemma trim_end_last (s : string) :
  ends_with_space (Js.trim_end s) = false.
Proof.
  induction s as [|c s IH]; [reflexivity|].
  cbn [Js.trim_end]. destruct (Js.trim_end s) as [|c' kept] eqn:E.
  - destruct (Js.is_space c) eqn:Hc; [reflexivity|]. cbn [ends_with_space]. exact Hc.
  - cbn [ends_with_space] in *. exact IH.
Qed.

(** X20: creating a story from the home page.  A title that is blank
    after trimming creates nothing and navigates nowhere.  Otherwise
    exactly one story is appended and its identifier is the one
    navigated to; its title is the trimmed input, which is not empty and
    neither begins nor ends with white space; its description is the
    trimmed input or, when that is blank, the default text, and is never
    empty; it has no scene and no start scene. *)
Theorem handleCreateStory_result (newTitle newDescription : string) (w : World) :
  let after := StoryListPage.handleCreateStory newTitle newDescription w in
  (Js.truthy (Js.trim newTitle) = false -> after = (None, w)) /\
  (Js.truthy (Js.trim newTitle) = true ->
   exists story,
     stories (snd after) = stories w ++ [story] /\
     fst after = Some (Story.id story) /\
     Story.title story = Js.trim newTitle /\
     starts_with_space (Story.title story) = false /\
     ends_with_space (Story.title story) = false /\
     Story.description story
     = (if Js.truthy (Js.trim newDescription)
        then Js.trim newDescription
        else "An interactive story adventure") /\
     Js.truthy (Story.description story) = true /\
     Story.scenes story = [] /\
     Story.startSceneId story = None).
Proof.
  intros after. unfold after, StoryListPage.handleCreateStory. split.
  - intros Hblank. rewrite Hblank. reflexivity.
  - intros Htitle. rewrite Htitle. rewrite bind_run.
    unfold UseStories.createStory at 1 2. rewrite !bind_run. cbn [ret fst snd].
    eexists. split; [|split; [|split; [|split; [|split; [|split; [|split; [|split]]]]]]].
    + rewrite setStories_stories. unfold UseStories.createStory_prev.
      unfold UseStories.generateId. cbn [fst snd stories]. reflexivity.
    + reflexivity.
    + reflexivity.
    + cbn [Story.title]. unfold Js.trim.
      pose proof (trim_start_head newTitle) as Hhead.
      destruct (Js.trim_start newTitle) as [|c rest]; [reflexivity|].
      destruct (trim_end_head c rest Hhead) as [kept Hkept]. rewrite Hkept.
      cbn [starts_with_space]. exact Hhead.
    + cbn [Story.title]. unfold Js.trim. apply trim_end_last.
    + reflexivity.
    + cbn [Story.description]. unfold UseAiApi.or_else.
      destruct (Js.truthy (Js.trim newDescription)) eqn:E; [exact E | reflexivity].
    + reflexivity.
    + reflexivity.
Qed.

(** * The words of a scene body *)

Lemma concat_empty_cons (x : string) (l : list string) :
  String.concat EmptyString (x :: l) = (x ++ String.concat EmptyString l)%string.
Proof.
  destruct l as [|y l]; cbn [String.concat].
  - symmetry. apply append_empty.
  - reflexivity.
Qed.

Lemma concat_push_char (c : ascii) (l : list string) :
  String.concat EmptyString (Js.push_char c l)
  = String c (String.concat EmptyString l).
Proof.
  destruct l as [|x l]; [reflexivity|].
  cbn [Js.push_char]. rewrite !concat_empty_cons. reflexivity.
Qed.

Lemma split_from_concat (s : string) (in_space : bool) :
  String.concat EmptyString (Js.split_from in_space s) = s.
Proof.
  revert in_space. induction s as [|c s IH]; intros in_space.
  - destruct in_space; reflexivity.
  - cbn [Js.split_from]. destruct (Bool.eqb (Js.is_space c) in_space).
    + rewrite concat_push_char, IH. reflexivity.
    + rewrite concat_empty_cons, concat_push_char, IH. reflexivity.
Qed.

Lemma split_from_shape (s : string) :
  token_shape (Js.split_from false s) = true /\ run_shape (Js.split_from true s) = true.
Proof.
  induction s as [|c s [IHword IHrun]]; [split; reflexivity|].
  cbn [Js.split_from]. destruct (Js.is_space c) eqn:Hc; cbn [Bool.eqb].
  - destruct (Js.split_from true s) as [|run [|word rest]]; try discriminate.
    cbn [Js.push_char]. cbn [run_shape] in IHrun.
    cbn [token_shape tail_shape run_shape is_word is_run all_chars Js.truthy andb].
    fold (is_run run). rewrite Hc. cbn [andb]. split; exact IHrun.
  - destruct (Js.split_from false s) as [|first rest]; try discriminate.
    cbn [Js.push_char]. cbn [token_shape] in IHword.
    cbn [token_shape run_shape is_word is_run all_chars Js.truthy andb orb].
    fold (is_word first). rewrite Hc. cbn [negb andb].
    split; [exact IHword | rewrite andb_true_r; exact IHword].
Qed.

Lemma tail_shape_even (tokens : list string) :
  tail_shape tokens = true -> Nat.even (length tokens) = true.
Proof.
  revert tokens.
  fix IH 1. intros [|run [|word rest]] H; [reflexivity | discriminate |].
  cbn [length Nat.even]. apply IH. cbn [tail_shape] in H.
  apply andb_true_iff in H. apply H.
Qed.

(** X21: the words shown for a scene body.  When the current scene
    has a non-empty body, the effect replaces the words by the tokens of
    [body.split(/(\s+)/)] and clears the highlight: written one after
    the other the tokens are the body; they are a word, then runs of
    white space and words in turn, so their number is odd; a word holds
    no white space, a run only white space and at least one character,
    and no word but the first and the last is empty.  Without a current
    scene, or when its body is empty, the effect changes nothing, so the
    words of the scene shown before stay. *)
Theorem split_effect_words (currentScene : option Scene.t) (n : StoryPreview.Narration) :
  let n' := StoryPreview.split_effect currentScene n in
  (forall scene, currentScene = Some scene -> Js.truthy (Scene.body scene) = true ->
     String.concat EmptyString (StoryPreview.words n') = Scene.body scene /\
     token_shape (StoryPreview.words n') = true /\
     Nat.odd (length (StoryPreview.words n')) = true /\
     StoryPreview.currentWordIndex n' = None) /\
  (currentScene = None \/
   (exists scene, currentScene = Some scene /\ Scene.body scene = EmptyString) ->
   n' = n).
Proof.
  intros n'. unfold n', StoryPreview.split_effect. split.
  - intros scene Hscene Hbody. rewrite Hscene, Hbody.
    cbn [StoryPreview.words StoryPreview.currentWordIndex]. unfold Js.split_spaces.
    split; [apply split_from_concat|].
    pose proof (proj1 (split_from_shape (Scene.body scene))) as Hshape.
    split; [exact Hshape|]. split; [|reflexivity].
    destruct (Js.split_from false (Scene.body scene)) as [|first rest]; [discriminate|].
    cbn [token_shape] in Hshape. apply andb_true_iff in Hshape.
    destruct Hshape as [_ Htail]. apply tail_shape_even in Htail.
    cbn [length]. rewrite Nat.odd_succ. exact Htail.
  - intros [Hnone|(scene & Hscene & Hbody)].
    + rewrite Hnone. reflexivity.
    + rewrite Hscene, Hbody. reflexivity.
Qed.

Lemma split_from_not_nil (s : string) (in_space : bool) :
  Js.split_from in_space s <> [].
Proof.
  destruct s as [|c s]; cbn [Js.split_from].
  - destruct in_space; discriminate.
  - destruct (Bool.eqb (Js.is_space c) in_space); [|discriminate].
    destruct (Js.split_from in_space s); discriminate.
Qed.

Lemma glue_push_char (c : ascii) (tokens more : list string) :
  tokens <> [] ->
  Js.push_char c (glue tokens more) = glue (Js.push_char c tokens) more.
Proof.
  intros Hne. destruct tokens as [|x [|y tokens]]; [contradiction | reflexivity | reflexivity].
Qed.

Lemma glue_cons (x : string) (tokens more : list string) :
  tokens <> [] ->
  x :: glue tokens more = glue (x :: tokens) more.
Proof.
  intros Hne. destruct tokens as [|y tokens]; [contradiction | reflexivity].
Qed.

Lemma split_from_app (pre : string) (c : ascii) (rest : string) (in_space : bool) :
  Js.is_space c = false ->
  Js.split_from in_space (pre ++ String c rest)
  = glue (Js.split_from in_space pre) (Js.split_from false (String c rest)).
Proof.
  intros Hc. revert in_space. induction pre as [|d pre IH]; intros in_space.
  - cbn [append]. destruct in_space.
    + cbn [Js.split_from]. rewrite Hc. cbn [Bool.eqb].
      destruct (Js.split_from false rest); reflexivity.
    + cbn [Js.split_from]. rewrite Hc. cbn [Bool.eqb].
      destruct (Js.split_from false rest); reflexivity.
  - change (String d pre ++ String c rest)%string
      with (String d (pre ++ String c rest)).
    cbn [Js.split_from]. destruct (Bool.eqb (Js.is_space d) in_space).
    + rewrite IH. apply glue_push_char, split_from_not_nil.
    + rewrite IH. rewrite glue_push_char by apply split_from_not_nil.
      apply glue_cons. destruct (Js.split_from (Js.is_space d) pre); discriminate.
Qed.

Lemma glue_nth (tokens more : list string) :
  tokens <> [] ->
  nth_error (glue tokens more) (length tokens - 1)
  = Some (last tokens EmptyString ++ hd EmptyString more)%string.
Proof.
  intros Hne. unfold glue.
  assert (Hlen : length (removelast tokens) = length tokens - 1).
  { clear more. induction tokens as [|x [|y tokens] IH]; [contradiction | reflexivity |].
    change (length (x :: removelast (y :: tokens)) = length (y :: tokens)).
    cbn [length]. rewrite IH by discriminate. cbn [length]. lia. }
  rewrite nth_error_app2 by lia. rewrite Hlen, Nat.sub_diag. reflexivity.
Qed.

Lemma hd_push_char (c : ascii) (tokens : list string) :
  hd EmptyString (Js.push_char c tokens) = String c (hd EmptyString tokens).
Proof. destruct tokens; reflexivity. Qed.

Lemma split_from_hd (s : string) :
  hd EmptyString (Js.split_from false s) = take_word s.
Proof.
  induction s as [|c s IH]; [reflexivity|].
  cbn [Js.split_from take_word]. destruct (Js.is_space c); cbn [Bool.eqb].
  - reflexivity.
  - rewrite hd_push_char, IH. reflexivity.
Qed.

Lemma push_char_app (c : ascii) (tokens more : list string) :
  tokens <> [] -> Js.push_char c (tokens ++ more) = Js.push_char c tokens ++ more.
Proof. intros Hne. destruct tokens; [contradiction | reflexivity]. Qed.

Lemma split_from_ends_with_space (pre : string) (in_space : bool) :
  ends_with_space pre = true ->
  exists tokens, tokens <> [] /\ Js.split_from in_space pre = tokens ++ [EmptyString].
Proof.
  revert in_space. induction pre as [|d pre IH]; intros in_space Hend; [discriminate|].
  destruct pre as [|e pre].
  - cbn [ends_with_space] in Hend. cbn [Js.split_from]. rewrite Hend.
    destruct in_space; cbn [Bool.eqb Js.push_char].
    + exists [String d EmptyString]. split; [discriminate | reflexivity].
    + exists [EmptyString; String d EmptyString]. split; [discriminate | reflexivity].
  - assert (Hend' : ends_with_space (String e pre) = true) by exact Hend.
    change (Js.split_from in_space (String d (String e pre)))
      with (if Bool.eqb (Js.is_space d) in_space
            then Js.push_char d (Js.split_from in_space (String e pre))
            else EmptyString
                 :: Js.push_char d (Js.split_from (Js.is_space d) (String e pre))).
    destruct (Bool.eqb (Js.is_space d) in_space).
    + destruct (IH in_space Hend') as (tokens & Hne & Htokens). rewrite Htokens.
      exists (Js.push_char d tokens). split.
      * destruct tokens; discriminate.
      * apply push_char_app, Hne.
    + destruct (IH (Js.is_space d) Hend') as (tokens & Hne & Htokens). rewrite Htokens.
      exists (EmptyString :: Js.push_char d tokens). split; [discriminate|].
      rewrite push_char_app by exact Hne. reflexivity.
Qed.

Lemma substring_to_prefix (pre rest : string) :
  Js.substring_to (String.length pre) (pre ++ rest) = pre.
Proof.
  unfold Js.substring_to. induction pre as [|c pre IH].
  - destruct rest; reflexivity.
  - cbn [String.length append String.substring]. rewrite IH. reflexivity.
Qed.

(** X22: the word that the narration highlights.  Take a current
    scene whose body holds, at some position, a character other than
    white space, and the words that the effect shows for it.  For the
    boundary event named [word] at that position, the handler keeps the
    words and highlights the index of the word that holds the position:
    the token there is the last token of the text before the position,
    followed by the characters from the position to the next white
    space.  When the position begins a word, that is when nothing or a
    white space comes before it, the token is exactly the word that
    begins there. *)
Theorem word_index_finds_word (scene : Scene.t) (pre : string) (c : ascii) (rest : string)
    (n : StoryPreview.Narration)
    (Hbody : Scene.body scene = (pre ++ String c rest)%string)
    (Hc : Js.is_space c = false) :
  let shown := StoryPreview.split_effect (Some scene) n in
  let n' := StoryPreview.onboundary (Some scene) "word" (String.length pre) shown in
  StoryPreview.words n' = Js.split_spaces (Scene.body scene) /\
  exists index,
    StoryPreview.currentWordIndex n' = Some index /\
    nth_error (StoryPreview.words n') index
    = Some (last (Js.split_spaces pre) EmptyString ++ take_word (String c rest))%string /\
    (pre = EmptyString \/ ends_with_space pre = true ->
     nth_error (StoryPreview.words n') index = Some (take_word (String c rest))).
Proof.
  intros shown n'.
  assert (Htruthy : Js.truthy (Scene.body scene) = true).
  { rewrite Hbody. destruct pre; reflexivity. }
  assert (Hshown : shown = {| StoryPreview.words := Js.split_spaces (Scene.body scene);
                              StoryPreview.currentWordIndex := None |}).
  { unfold shown, StoryPreview.split_effect. rewrite Htruthy. reflexivity. }
  assert (Hn' : n' = {| StoryPreview.words := Js.split_spaces (Scene.body scene);
                        StoryPreview.currentWordIndex :=
                          Some (StoryPreview.word_index (Scene.body scene)
                                  (String.length pre)) |}).
  { unfold n', StoryPreview.onboundary. rewrite Htruthy, Hshown. reflexivity. }
  rewrite Hn'. cbn [StoryPreview.words StoryPreview.currentWordIndex].
  split; [reflexivity|]. eexists. split; [reflexivity|].
  assert (Hnth : nth_error (Js.split_spaces (Scene.body scene))
                   (StoryPreview.word_index (Scene.body scene) (String.length pre))
                 = Some (last (Js.split_spaces pre) EmptyString
                         ++ take_word (String c rest))%string).
  { unfold StoryPreview.word_index, Js.split_spaces. rewrite Hbody.
    rewrite substring_to_prefix, (split_from_app pre c rest false Hc).
    rewrite glue_nth by apply split_from_not_nil.
    rewrite split_from_hd. reflexivity. }
  split; [exact Hnth|].
  intros Hstart. rewrite Hnth. f_equal.
  replace (last (Js.split_spaces pre) EmptyString) with EmptyString; [reflexivity|].
  unfold Js.split_spaces. destruct Hstart as [Hempty|Hend].
  - subst pre. reflexivity.
  - destruct (split_from_ends_with_space pre false Hend) as (tokens & _ & Htokens).
    rewrite Htokens, last_last. reflexivity.
Qed.

(** In [go  north] the position 4 begins [north], the token of index
    2; a NO-BREAK SPACE separates words as a space does. *)
Lemma word_index_finds_word_witness :
  let scene := {| Scene.id := "a"; Scene.title := "A"; Scene.body := "go  north";
                  Scene.choices := [] |} in
  let shown := StoryPreview.split_effect (Some scene) StoryPreview.init_narration in
  let n' := StoryPreview.onboundary (Some scene) "word" 4 shown in
  StoryPreview.currentWordIndex n' = Some 2 /\
  nth_error (StoryPreview.words n') 2 = Some "north" /\
  Js.split_spaces (String "a" (String (ascii_of_nat 160) "b"))
  = ["a"; String (ascii_of_nat 160) EmptyString; "b"].
Proof.
  intros scene shown n'. split; [reflexivity|]. split; [|reflexivity].
  destruct (word_index_finds_word scene "go  " "n" "orth" StoryPreview.init_narration
              eq_refl eq_refl) as (_ & index & Hindex & _ & Hword).
  assert (Htwo : index = 2).
  { assert (H : Some index = Some 2) by (rewrite <- Hindex; reflexivity).
    injection H as H. exact H. }
  rewrite <- Htwo. exact (Hword (or_intror eq_refl)).
Defined.

(** * The edges of the graph *)

Lemma substring_to_length (n : nat) (s : string) :
  String.length (Js.substring_to n s) <= n.
Proof.
  unfold Js.substring_to. revert s. induction n as [|n IH]; intros [|c s]; cbn; try lia.
  specialize (IH s). lia.
Qed.

Lemma substring_to_short (n : nat) (s : string) :
  String.length s <= n -> Js.substring_to n s = s.
Proof.
  unfold Js.substring_to. revert s. induction n as [|n IH]; intros [|c s] Hlen;
    cbn in *; try reflexivity; try lia.
  rewrite IH by lia. reflexivity.
Qed.

Lemma edge_label_length (text : string) :
  String.length (StoryGraphVisualizer.edge_label text) <= 23 /\
  (String.length text <= 20 -> StoryGraphVisualizer.edge_label text = text).
Proof.
  unfold StoryGraphVisualizer.edge_label. split.
  - rewrite length_append. pose proof (substring_to_length 20 text).
    destruct (Nat.ltb 20 (String.length text)); cbn [String.length]; lia.
  - intros Hshort. rewrite substring_to_short by exact Hshort.
    destruct (Nat.ltb_spec 20 (String.length text)); [lia | apply append_empty].
Qed.

(** X23: the edges of the story graph.  Every edge comes from a choice
    with a non-empty target: it leaves the node of the scene that holds
    the choice and points at the target of the choice, its label has at
    most 23 characters and is the text of the choice when that has at
    most 20.  Every such choice has its edge, whether or not its target
    names a scene of the story, so an edge may point at no node; the
    edges are as many as these choices. *)
Theorem edges_follow_linked_choices (story : Story.t) :
  (forall e, In e (StoryGraphVisualizer.initialEdges story) ->
     exists scene choice,
       In scene (Story.scenes story) /\ In choice (Scene.choices scene) /\
       Choice.targetSceneId choice = Some (StoryGraphVisualizer.target e) /\
       Js.truthy (StoryGraphVisualizer.target e) = true /\
       StoryGraphVisualizer.source e = Scene.id scene /\
       In (StoryGraphVisualizer.source e) (StoryGraphVisualizer.node_ids story) /\
       String.length (StoryGraphVisualizer.label e) <= 23 /\
       (String.length (Choice.text choice) <= 20 ->
        StoryGraphVisualizer.label e = Choice.text choice)) /\
  (forall scene choice,
     In scene (Story.scenes story) -> In choice (Scene.choices scene) ->
     Js.truthy_opt (Choice.targetSceneId choice) = true ->
     exists e,
       In e (StoryGraphVisualizer.initialEdges story) /\
       StoryGraphVisualizer.source e = Scene.id scene /\
       Some (StoryGraphVisualizer.target e) = Choice.targetSceneId choice) /\
  length (StoryGraphVisualizer.initialEdges story) = length (linked_choices story).
Proof.
  unfold StoryGraphVisualizer.initialEdges, StoryGraphVisualizer.node_ids, linked_choices.
  split; [|split].
  - intros e He. apply in_flat_map in He. destruct He as (scene & Hscene & He).
    apply in_flat_map in He. destruct He as (choice & Hchoice & He).
    exists scene, choice.
    destruct (Choice.targetSceneId choice) as [targetId|] eqn:Htarget; [|contradiction].
    destruct (Js.truthy targetId) eqn:Htruthy; [|contradiction].
    destruct He as [He|[]]. subst e. cbn [StoryGraphVisualizer.target
      StoryGraphVisualizer.source StoryGraphVisualizer.label].
    pose proof (edge_label_length (Choice.text choice)) as [Hlen Hshort].
    repeat (split; [first [assumption | reflexivity]|]).
    split; [apply in_map, Hscene|]. split; assumption.
  - intros scene choice Hscene Hchoice Hlinked.
    destruct (Choice.targetSceneId choice) as [targetId|] eqn:Htarget; [|discriminate].
    cbn [Js.truthy_opt] in Hlinked.
    eexists. split; [|split].
    + apply in_flat_map. exists scene. split; [exact Hscene|].
      apply in_flat_map. exists choice. split; [exact Hchoice|].
      rewrite Htarget, Hlinked. left. reflexivity.
    + reflexivity.
    + reflexivity.
  - induction (Story.scenes story) as [|scene scenes IH]; [reflexivity|].
    cbn [flat_map]. rewrite filter_app, !length_app, IH. f_equal.
    clear IH. induction (Scene.choices scene) as [|choice choices IH]; [reflexivity|].
    cbn [flat_map filter]. rewrite length_app, IH.
    destruct (Choice.targetSceneId choice) as [targetId|]; cbn [Js.truthy_opt];
      [|reflexivity].
    destruct (Js.truthy targetId); reflexivity.
Qed.

(** * Accepting a scene suggestion in the sidebar editor *)

Lemma later_refl (w : World) : later 0 w w.
Proof. unfold later. repeat split. lia. Qed.

Lemma later_trans (a b : nat) (w1 w2 w3 : World) :
  later a w1 w2 -> later b w2 w3 -> later (a + b) w1 w3.
Proof.
  intros (H1 & H2 & H3) (H4 & H5 & H6). unfold later.
  rewrite H4, H5, H6, H1, H2, H3. repeat split. lia.
Qed.

Lemma later_setStories (f : list Story.t -> list Story.t) (w : World) :
  later 0 w (snd (UseStories.setStories f w)).
Proof. unfold later. cbn. repeat split. lia. Qed.

Lemma later_createScene (storyId : string) (title : option string) (w : World) :
  later 2 w (snd (UseStories.createScene storyId title w)).
Proof. unfold later. cbn. repeat split. lia. Qed.

Lemma later_addChoice (storyId sceneId : string) (text : option string) (w : World) :
  later 2 w (snd (UseStories.addChoice storyId sceneId text w)).
Proof. unfold later. cbn. repeat split. lia. Qed.

Lemma later_forEach_addChoice (story : Story.t) (sceneId : string) (texts : list string)
    (w : World) :
  later (2 * length texts) w
    (snd (forEach (fun text => StoryEditorPage.onAddChoice story sceneId (Some text))
            texts w)).
Proof.
  revert w. induction texts as [|text texts IH]; intros w; cbn [forEach length].
  - apply later_refl.
  - rewrite bind_run.
    replace (2 * S (length texts)) with (2 + 2 * length texts) by lia.
    apply (later_trans 2 _ w
             (snd (StoryEditorPage.onAddChoice story sceneId (Some text) w)));
      [|apply IH].
    unfold StoryEditorPage.onAddChoice. rewrite bind_run. apply later_addChoice.
Qed.

Lemma generateId_drawn (k : nat) (w w' : World) :
  later k w w' -> fst (UseStories.generateId w') = drawn_id w k.
Proof.
  intros (Hnow & Hrandom & Hreads). rewrite generateId_reads. unfold drawn_id.
  rewrite Hnow, Hrandom, Hreads. reflexivity.
Qed.

Lemma holds_scene_map (storyId sceneId : string) (q q' : list Choice.t -> Prop)
    (f : Story.t -> Story.t) (l : list Story.t) :
  (forall story scene,
     Story.id story = storyId -> In scene (Story.scenes story) -> Scene.id scene = sceneId ->
     q (Scene.choices scene) ->
     Story.id (f story) = storyId /\
     exists scene',
       In scene' (Story.scenes (f story)) /\ Scene.id scene' = sceneId /\
       q' (Scene.choices scene')) ->
  holds_scene storyId sceneId q l ->
  holds_scene storyId sceneId q' (map f l).
Proof.
  intros Hf (story & scene & Hstory & Hid & Hscene & Hsid & Hq).
  destruct (Hf story scene Hid Hscene Hsid Hq) as (Hid' & scene' & Hscene' & Hsid' & Hq').
  exists (f story), scene'.
  split; [apply in_map, Hstory|]. repeat (split; [assumption|]). assumption.
Qed.

Lemma holds_scene_createScene (storyId sceneId target : string)
    (q : list Choice.t -> Prop) (newScene : Scene.t) (l : list Story.t) :
  holds_scene storyId sceneId q l ->
  holds_scene storyId sceneId q (UseStories.createScene_prev target newScene l).
Proof.
  apply holds_scene_map. intros story scene Hid Hscene Hsid Hq.
  destruct (Js.strict_eq (Story.id story) target).
  - split; [exact Hid|]. exists scene. cbn [UseStories.with_scenes Story.scenes].
    split; [apply in_or_app; left; exact Hscene|]. split; assumption.
  - split; [exact Hid|]. exists scene. repeat (split; [assumption|]). assumption.
Qed.

Lemma holds_scene_updateScene (storyId sceneId target targetScene : string)
    (q : list Choice.t -> Prop) (updates : PartialScene.t) (l : list Story.t) :
  PartialScene.id updates = None -> PartialScene.choices updates = None ->
  holds_scene storyId sceneId q l ->
  holds_scene storyId sceneId q
    (UseStories.updateScene_prev target targetScene updates l).
Proof.
  intros Hnoid Hnochoices.
  apply holds_scene_map. intros story scene Hid Hscene Hsid Hq.
  destruct (Js.strict_eq (Story.id story) target).
  - split; [exact Hid|]. cbn [UseStories.with_scenes Story.scenes].
    exists (if Js.strict_eq (Scene.id scene) targetScene
            then spread_scene scene updates else scene).
    split; [apply (in_map (fun s => if Js.strict_eq (Scene.id s) targetScene
                                    then spread_scene s updates else s)), Hscene|].
    destruct (Js.strict_eq (Scene.id scene) targetScene).
    + cbn [spread_scene Scene.id Scene.choices]. rewrite Hnoid, Hnochoices.
      split; assumption.
    + split; assumption.
  - split; [exact Hid|]. exists scene. repeat (split; [assumption|]). assumption.
Qed.

Lemma holds_scene_addChoice (storyId sceneId target targetScene : string)
    (q : list Choice.t -> Prop) (newChoice : Choice.t) (l : list Story.t) :
  grows q ->
  holds_scene storyId sceneId q l ->
  holds_scene storyId sceneId q
    (UseStories.addChoice_prev target targetScene newChoice l).
Proof.
  intros Hgrows.
  apply holds_scene_map. intros story scene Hid Hscene Hsid Hq.
  destruct (Js.strict_eq (Story.id story) target).
  - split; [exact Hid|]. cbn [UseStories.with_scenes Story.scenes].
    exists (if Js.strict_eq (Scene.id scene) targetScene
            then UseStories.with_choices scene (Scene.choices scene ++ [newChoice])
            else scene).
    split; [apply (in_map (fun s => if Js.strict_eq (Scene.id s) targetScene
                                    then UseStories.with_choices s
                                           (Scene.choices s ++ [newChoice])
                                    else s)), Hscene|].
    destruct (Js.strict_eq (Scene.id scene) targetScene).
    + cbn [UseStories.with_choices Scene.id Scene.choices].
      split; [assumption | apply Hgrows, Hq].
    + split; assumption.
  - split; [exact Hid|]. exists scene. repeat (split; [assumption|]). assumption.
Qed.

Lemma holds_scene_added (storyId sceneId : string) (q : list Choice.t -> Prop)
    (newChoice : Choice.t) (l : list Story.t) :
  holds_scene storyId sceneId q l ->
  holds_scene storyId sceneId
    (fun choices => exists before, q before /\ choices = before ++ [newChoice])
    (UseStories.addChoice_prev storyId sceneId newChoice l).
Proof.
  apply holds_scene_map. intros story scene Hid Hscene Hsid Hq.
  assert (Hs : Js.strict_eq (Story.id story) storyId = true).
  { unfold Js.strict_eq. rewrite Hid. apply String.eqb_refl. }
  assert (Hs' : Js.strict_eq (Scene.id scene) sceneId = true).
  { unfold Js.strict_eq. rewrite Hsid. apply String.eqb_refl. }
  rewrite Hs. split; [exact Hid|]. cbn [UseStories.with_scenes Story.scenes].
  exists (UseStories.with_choices scene (Scene.choices scene ++ [newChoice])).
  split.
  - apply in_map_iff. exists scene. split; [|exact Hscene]. rewrite Hs'. reflexivity.
  - split; [exact Hsid|]. exists (Scene.choices scene). split; [exact Hq | reflexivity].
Qed.

Lemma holds_scene_forEach_addChoice (storyId sceneId : string) (q : list Choice.t -> Prop)
    (story : Story.t) (targetScene : string) (texts : list string) (w : World) :
  grows q ->
  holds_scene storyId sceneId q (stories w) ->
  holds_scene storyId sceneId q
    (stories (snd (forEach (fun text =>
                              StoryEditorPage.onAddChoice story targetScene (Some text))
                     texts w))).
Proof.
  intros Hgrows. revert w.
  induction texts as [|text texts IH]; intros w Hholds; cbn [forEach].
  - exact Hholds.
  - rewrite bind_run. apply IH.
    unfold StoryEditorPage.onAddChoice. rewrite bind_run. unfold ret. cbn [snd].
    rewrite addChoice_stories. apply holds_scene_addChoice; assumption.
Qed.

Lemma holds_scene_updateChoice (storyId sceneId choiceId : string)
    (q : list Choice.t -> Prop) (updates : PartialChoice.t) (l : list Story.t) :
  holds_scene storyId sceneId q l ->
  holds_scene storyId sceneId
    (fun choices =>
       exists prior,
         q prior /\
         choices = map (fun choice => if Js.strict_eq (Choice.id choice) choiceId
                                      then spread_choice choice updates else choice) prior)
    (UseStories.updateChoice_prev storyId sceneId choiceId updates l).
Proof.
  apply holds_scene_map. intros story scene Hid Hscene Hsid Hq.
  assert (Hs : Js.strict_eq (Story.id story) storyId = true).
  { unfold Js.strict_eq. rewrite Hid. apply String.eqb_refl. }
  assert (Hs' : Js.strict_eq (Scene.id scene) sceneId = true).
  { unfold Js.strict_eq. rewrite Hsid. apply String.eqb_refl. }
  rewrite Hs. split; [exact Hid|]. cbn [UseStories.with_scenes Story.scenes].
  exists (UseStories.with_choices scene
            (map (fun choice => if Js.strict_eq (Choice.id choice) choiceId
                                then spread_choice choice updates else choice)
               (Scene.choices scene))).
  split.
  - apply in_map_iff. exists scene. split; [|exact Hscene]. rewrite Hs'. reflexivity.
  - split; [exact Hsid|]. cbn [UseStories.with_choices Scene.choices].
    exists (Scene.choices scene). split; [exact Hq | reflexivity].
Qed.

Lemma updateChoice_prev_targets (storyId sceneId choiceId : string)
    (updates : PartialChoice.t) (target : option string) (l : list Story.t) :
  PartialChoice.id updates = None ->
  PartialChoice.targetSceneId updates = Some target ->
  forall story scene choice,
    In story (UseStories.updateChoice_prev storyId sceneId choiceId updates l) ->
    Story.id story = storyId ->
    In scene (Story.scenes story) -> Scene.id scene = sceneId ->
    In choice (Scene.choices scene) -> Choice.id choice = choiceId ->
    Choice.targetSceneId choice = target.
Proof.
  intros Hnoid Htarget story scene choice Hstory Hid Hscene Hsid Hchoice Hcid.
  unfold UseStories.updateChoice_prev in Hstory.
  apply in_map_iff in Hstory. destruct Hstory as (story0 & Hmap & _).
  unfold Js.strict_eq in Hmap.
  destruct (String.eqb_spec (Story.id story0) storyId) as [E|E];
    subst story; [|contradiction].
  cbn in Hscene. apply in_map_iff in Hscene. destruct Hscene as (scene0 & Hmap & _).
  destruct (String.eqb_spec (Scene.id scene0) sceneId) as [E'|E'];
    subst scene; [|contradiction].
  cbn in Hchoice. apply in_map_iff in Hchoice. destruct Hchoice as (choice0 & Hmap & _).
  destruct (String.eqb_spec (Choice.id choice0) choiceId) as [E''|E''].
  - subst choice. cbn. rewrite Htarget. reflexivity.
  - subst choice. contradiction.
Qed.

Lemma updateChoice_prev_ends_with_spread (storyId sceneId choiceId : string)
    (updates : PartialChoice.t) (c : Choice.t) (l : list Story.t) :
  ends_with storyId sceneId c l ->
  ends_with storyId sceneId
    (if Js.strict_eq (Choice.id c) choiceId then spread_choice c updates else c)
    (UseStories.updateChoice_prev storyId sceneId choiceId updates l).
Proof.
  intros Hends story scene Hstory Hid Hscene Hsid.
  unfold UseStories.updateChoice_prev in Hstory.
  apply in_map_iff in Hstory. destruct Hstory as (story0 & Hmap & Hstory0).
  unfold Js.strict_eq in Hmap.
  destruct (String.eqb_spec (Story.id story0) storyId) as [E|E].
  - subst story. cbn in Hscene.
    apply in_map_iff in Hscene. destruct Hscene as (scene0 & Hmap & Hscene0).
    unfold Js.strict_eq in Hmap.
    destruct (Hends story0 scene0 Hstory0 E Hscene0) as (before & Hbefore).
    { destruct (String.eqb_spec (Scene.id scene0) sceneId) as [E'|E'];
        subst scene; [exact E' | contradiction]. }
    destruct (String.eqb_spec (Scene.id scene0) sceneId) as [E'|E'].
    + subst scene. cbn. rewrite Hbefore, map_app. cbn. eexists. reflexivity.
    + subst scene. contradiction.
  - subst story.
    destruct (Hends story0 scene Hstory0 Hid Hscene Hsid) as (before & Hbefore).
    contradiction.
Qed.

Lemma last_elem_In {A : Type} (l : list A) (x : A) :
  Js.last_elem l = Some x -> In x l.
Proof.
  induction l as [|y [|z l] IH]; cbn [Js.last_elem]; intros H.
  - discriminate.
  - injection H as H. left. exact H.
  - right. apply IH. exact H.
Qed.

Lemma forEach_or_nothing {A : Type} (f : A -> M unit) (l : list A) :
  match l with
  | [] => ret tt
  | _ :: _ => forEach f l
  end = forEach f l.
Proof. destruct l; reflexivity. Qed.

(** X24: "add as new scene" in the sidebar editor, with the callbacks
    bound to the store for the story.  When a suggestion is held and the
    selection names a scene of the stored story, the handler closes the
    modal, drops the suggestion and selects the created scene, whose
    identifier is the first one drawn.  The choice it appends to the
    originating scene, with the text derived from the suggested title
    and the identifier drawn after those of the suggested choices, is
    the last choice of that scene afterwards and has no target: the
    handler reads the last choice from the story of its render, so the
    target goes to the choice that was last before, which then leads to
    the created scene, as does every choice of the scene with its
    identifier.  The appended choice is linked only when it drew the
    identifier of that prior last choice. *)
Theorem add_as_new_links_prior_choice (w : World) (story : Story.t)
    (st : StoryEditor.State) (suggestion : StoryEditor.SceneSuggestion)
    (selected : string) (origin : Scene.t)
    (Hstored : fst (UseStories.getStory (Story.id story) w) = Some story)
    (Hsuggestion : StoryEditor.aiSuggestion st = Some suggestion)
    (Hselected : StoryEditor.selectedSceneId st = Some selected)
    (Hnonempty : Js.truthy selected = true)
    (Horigin : find_scene (Story.scenes story) (Some selected) = Some origin) :
  let after :=
    StoryEditor.handleAddSceneAsNew (StoryEditorPage.onCreateScene story)
      (StoryEditorPage.onUpdateScene story) (StoryEditorPage.onAddChoice story)
      (StoryEditorPage.onUpdateChoice story) story st w in
  let newSceneId := drawn_id w 0 in
  let newChoiceId :=
    drawn_id w (2 + 2 * length (StoryEditor.suggestedChoices suggestion)) in
  let appended :=
    {| Choice.id := newChoiceId;
       Choice.text := ("Continue to " ++ StoryEditor.title suggestion)%string;
       Choice.targetSceneId :=
         match Js.last_elem (Scene.choices origin) with
         | Some lastChoice =>
             if Js.strict_eq newChoiceId (Choice.id lastChoice)
             then Some newSceneId else None
         | None => None
         end |} in
  fst after = {| StoryEditor.selectedSceneId := Some newSceneId;
                 StoryEditor.modalType := StoryEditor.none;
                 StoryEditor.aiSuggestion := None |} /\
  ends_with (Story.id story) selected appended (stories (snd after)) /\
  holds_scene (Story.id story) selected
    (fun choices => exists before, choices = before ++ [appended])
    (stories (snd after)) /\
  (forall lastChoice, Js.last_elem (Scene.choices origin) = Some lastChoice ->
     holds_scene (Story.id story) selected
       (fun choices =>
          exists choice,
            In choice choices /\ Choice.id choice = Choice.id lastChoice /\
            Choice.targetSceneId choice = Some newSceneId)
       (stories (snd after)) /\
     forall story' scene' choice',
       In story' (stories (snd after)) -> Story.id story' = Story.id story ->
       In scene' (Story.scenes story') -> Scene.id scene' = selected ->
       In choice' (Scene.choices scene') -> Choice.id choice' = Choice.id lastChoice ->
       Choice.targetSceneId choice' = Some newSceneId).
Proof.
  intros after newSceneId newChoiceId appended.
  subst after. unfold StoryEditor.handleAddSceneAsNew.
  rewrite Hsuggestion, Hselected, Hnonempty, Horigin.
  rewrite bind_run.
  set (created := StoryEditorPage.onCreateScene story w).
  assert (Hnew : Scene.id (fst created) = newSceneId).
  { unfold created, StoryEditorPage.onCreateScene, newSceneId.
    rewrite <- (generateId_drawn 0 w w (later_refl w)). reflexivity. }
  assert (L1 : later 2 w (snd created)) by apply later_createScene.
  rewrite bind_run.
  set (w2 := snd (StoryEditorPage.onUpdateScene story (Scene.id (fst created)) _
                    (snd created))).
  assert (L2 : later 2 w w2).
  { replace 2 with (2 + 0) by lia. apply (later_trans _ _ _ (snd created)); [exact L1|].
    apply later_setStories. }
  rewrite bind_run, forEach_or_nothing.
  set (w3 := snd (forEach _ (StoryEditor.suggestedChoices suggestion) w2)).
  assert (L3 : later (2 + 2 * length (StoryEditor.suggestedChoices suggestion)) w w3).
  { apply (later_trans _ _ _ w2); [exact L2|]. apply later_forEach_addChoice. }
  assert (Hchain : forall q, grows q ->
            holds_scene (Story.id story) selected q (stories w) ->
            holds_scene (Story.id story) selected q (stories w3)).
  { intros q Hgrows Hq. unfold w3. apply holds_scene_forEach_addChoice; [exact Hgrows|].
    unfold w2, StoryEditorPage.onUpdateScene. rewrite updateScene_stories.
    apply holds_scene_updateScene; [reflexivity | reflexivity |].
    unfold created, StoryEditorPage.onCreateScene. rewrite createScene_stories.
    apply holds_scene_createScene, Hq. }
  assert (Hbase : forall q : list Choice.t -> Prop, q (Scene.choices origin) ->
            holds_scene (Story.id story) selected q (stories w)).
  { intros q Hq. exists story, origin.
    rewrite getStory_find in Hstored. apply find_some in Hstored.
    unfold find_scene in Horigin. apply find_some in Horigin.
    destruct Hstored as [Hin _]. destruct Horigin as [Hin' Hid'].
    cbn [Js.strict_eq_opt] in Hid'. apply String.eqb_eq in Hid'.
    repeat (split; [first [assumption | reflexivity]|]). exact Hq. }
  rewrite bind_run. unfold StoryEditorPage.onAddChoice at 1 2.
  rewrite !bind_run. unfold ret at 1 3. cbn [fst snd].
  set (added := UseStories.addChoice (Story.id story) selected
                  (Some ("Continue to " ++ StoryEditor.title suggestion)%string) w3).
  assert (Hadded : fst added
                   = {| Choice.id := newChoiceId;
                        Choice.text := ("Continue to " ++ StoryEditor.title suggestion)%string;
                        Choice.targetSceneId := None |}).
  { unfold added. rewrite addChoice_returns, (generateId_drawn _ w w3 L3). reflexivity. }
  assert (Hw4 : ends_with (Story.id story) selected (fst added) (stories (snd added))).
  { unfold added. rewrite addChoice_stories. apply addChoice_prev_ends_with. }
  assert (Hw4' : holds_scene (Story.id story) selected
                   (fun choices => exists before, True /\ choices = before ++ [fst added])
                   (stories (snd added))).
  { unfold added at 2. rewrite addChoice_stories. apply holds_scene_added.
    apply Hchain; [intros choices more _; exact I|]. apply Hbase. exact I. }
  rewrite Hnew. unfold appended.
  destruct (Js.last_elem (Scene.choices origin)) as [lastChoice|] eqn:Hlast.
  - unfold ret. cbn [fst snd]. split; [reflexivity|].
    unfold StoryEditorPage.onUpdateChoice. rewrite updateChoice_stories.
    set (patch := {| PartialChoice.id := None; PartialChoice.text := None;
                     PartialChoice.targetSceneId := Some (Some newSceneId) |}).
    assert (Hspread : (if Js.strict_eq (Choice.id (fst added)) (Choice.id lastChoice)
                       then spread_choice (fst added) patch else fst added)
                      = {| Choice.id := newChoiceId;
                           Choice.text :=
                             ("Continue to " ++ StoryEditor.title suggestion)%string;
                           Choice.targetSceneId :=
                             if Js.strict_eq newChoiceId (Choice.id lastChoice)
                             then Some newSceneId else None |}).
    { rewrite Hadded. cbn [Choice.id].
      destruct (Js.strict_eq newChoiceId (Choice.id lastChoice)); reflexivity. }
    split; [|split].
    + rewrite <- Hspread. apply updateChoice_prev_ends_with_spread, Hw4.
    + apply (holds_scene_updateChoice _ _ (Choice.id lastChoice) _ patch) in Hw4'.
      destruct Hw4' as (story' & scene' & Hs1 & Hs2 & Hs3 & Hs4 & prior & (before & _ & Hp)
                        & Hmap).
      exists story', scene'. repeat (split; [assumption|]).
      subst prior. rewrite map_app in Hmap. cbn [map] in Hmap. rewrite Hspread in Hmap.
      eexists. exact Hmap.
    + intros lastChoice' Hsame. injection Hsame as Hsame. subst lastChoice'. split.
      * assert (Hprior : holds_scene (Story.id story) selected
                           (fun choices => exists choice,
                              In choice choices /\ Choice.id choice = Choice.id lastChoice)
                           (stories (snd added))).
        { unfold added. rewrite addChoice_stories. apply holds_scene_addChoice.
          - intros choices more (choice & Hin & Hid). exists choice.
            split; [apply in_or_app; left; exact Hin | exact Hid].
          - apply Hchain.
            + intros choices more (choice & Hin & Hid). exists choice.
              split; [apply in_or_app; left; exact Hin | exact Hid].
            + apply Hbase. exists lastChoice.
              split; [apply last_elem_In, Hlast | reflexivity]. }
        apply (holds_scene_updateChoice _ _ (Choice.id lastChoice) _ patch) in Hprior.
        destruct Hprior as (story' & scene' & Hs1 & Hs2 & Hs3 & Hs4 & prior
                            & (choice & Hin & Hid) & Hmap).
        exists story', scene'. repeat (split; [assumption|]).
        exists (spread_choice choice patch). split; [|split; [exact Hid | reflexivity]].
        rewrite Hmap. apply in_map_iff. exists choice. split; [|exact Hin].
        unfold Js.strict_eq. rewrite Hid, String.eqb_refl. reflexivity.
      * apply (updateChoice_prev_targets _ _ _ patch); reflexivity.
  - unfold ret. cbn [fst snd]. split; [reflexivity|].
    rewrite <- Hadded. split; [exact Hw4|]. split.
    + destruct Hw4' as (story' & scene' & Hs1 & Hs2 & Hs3 & Hs4 & before & _ & Hp).
      exists story', scene'. repeat (split; [assumption|]). exists before. exact Hp.
    + intros lastChoice Hnone. discriminate.
Qed.

(** On the story [A], [B] where [A] has the choice [Stay]: accepting
    the cave scene leaves [Continue to Cave] last in [A] without a
    target, and [Stay] then leads to the created scene. *)
Lemma add_as_new_links_prior_choice_witness :
  let story := origin_story [Choice.make "c0" "Stay" None] in
  let st := {| StoryEditor.selectedSceneId := Some "a";
               StoryEditor.modalType := StoryEditor.scene_suggestion;
               StoryEditor.aiSuggestion :=
                 Some {| StoryEditor.title := "Cave";
                         StoryEditor.body := "You enter a cave.";
                         StoryEditor.suggestedChoices := ["Look around"; "Leave"] |} |} in
  let after :=
    StoryEditor.handleAddSceneAsNew (StoryEditorPage.onCreateScene story)
      (StoryEditorPage.onUpdateScene story) (StoryEditorPage.onAddChoice story)
      (StoryEditorPage.onUpdateChoice story) story st (sample_world [story]) in
  ends_with "s" "a" (Choice.make "1700000000000-7k3j9x2m1" "Continue to Cave" None)
    (stories (snd after)) /\
  holds_scene "s" "a"
    (fun choices =>
       exists choice,
         In choice choices /\ Choice.id choice = "c0" /\
         Choice.targetSceneId choice = Some "1700000000000-1k3j9x2m1")
    (stories (snd after)) /\
  map (fun story' => map Scene.choices (Story.scenes story')) (stories (snd after))
  = [[[Choice.make "c0" "Stay" (Some "1700000000000-1k3j9x2m1");
       Choice.make "1700000000000-7k3j9x2m1" "Continue to Cave" None];
      [];
      [Choice.make "1700000000000-3k3j9x2m1" "Look around" None;
       Choice.make "1700000000000-5k3j9x2m1" "Leave" None]]].
Proof.
  intros story st after.
  destruct (add_as_new_links_prior_choice (sample_world [story]) story st
              {| StoryEditor.title := "Cave"; StoryEditor.body := "You enter a cave.";
                 StoryEditor.suggestedChoices := ["Look around"; "Leave"] |}
              "a" (sample_scene "a" "A" [Choice.make "c0" "Stay" None])
              eq_refl eq_refl eq_refl eq_refl eq_refl)
    as (_ & Hends & _ & Hprior).
  split; [exact Hends|]. split; [|reflexivity].
  exact (proj1 (Hprior (Choice.make "c0" "Stay" None) eq_refl)).
Defined.
